(** * Nematus (multi-source): beam search and the translation job protocol

    A shallow embedding of [gen_sample] (nematus/nmt.py) and of the
    [Translation] / [Translator] code of nematus/translate.py, with the
    properties of the search and coordination layer stated over it.

    Numbers.  The program computes scores in floating point ([floatX]);
    here a score or probability is a real number ([R]), [numpy.log] is
    [ln], and rounding is not modelled.  Token ids, sentence ids and exit
    codes are Python ints ([Z]); positions in lists are [nat]. *)

From Stdlib Require Import Reals Lra Lia ZArith List Permutation Ascii String.
From stdpp Require Import base option list strings gmap.

(** ** Small list and matrix helpers (numpy arrays as lists of rows) *)

Abbreviation mat := (list (list R)).

(** [numpy.log(m)], element by element. *)
Definition mat_log (m : mat) : mat := map (map ln) m.

(** [a + b] on two arrays of one shape. *)
Definition mat_add (a b : mat) : mat := zip_with (zip_with Rplus) a b.

(** Python's [sum(ms)] over a non-empty list of arrays: [0 + ms[0] + ...];
    the scalar [0] is absorbed by the first array. *)
Definition mat_sum (m0 : mat) (ms : list mat) : mat := foldl mat_add m0 ms.

(** [m / n] for a scalar [n]. *)
Definition mat_div (m : mat) (n : R) : mat := map (map (fun x => (x / n)%R)) m.

(** [v[:, None] - m]: row [h] of [m] is subtracted from the scalar [v[h]]. *)
Definition col_minus (v : list R) (m : mat) : mat :=
  zip_with (fun s row => map (fun x => (s - x)%R) row) v m.

(** [m.flatten()], row-major. *)
Definition flatten (m : mat) : list R := concat m.

(** Python's zip over the unpacked rows: the transposition of a list of equally long rows, for a
    given number of columns. *)
Definition transpose {A} (cols : nat) (rows : list (list A)) : list (list A) :=
  map (fun j => omap (fun r => r !! j) rows) (seq 0 cols).

(** [keep flags l]: the entries of [l] whose flag is set, in order; the
    two branches of the loop that sorts the new hypotheses into finished
    and live ones are [keep dead] and [keep (negb <$> dead)]. *)
Fixpoint keep {A} (flags : list bool) (l : list A) : list A :=
  match flags, l with
  | f :: fs, x :: xs => if f then x :: keep fs xs else keep fs xs
  | _, _ => []
  end.

(** ** The partition primitive

    [a.argpartition(kth)] belongs to numpy, not to this program.  Its
    documented behaviour: a negative [kth] counts from the end, a [kth]
    outside the array raises, and the result is a permutation of the
    positions in which position [kth] holds the element a full sort would
    put there, no larger element before it and no smaller one after it.
    The order inside the two parts is not specified. *)

Definition norm_kth (n : nat) (kth : Z) : option nat :=
  let kth' := if (kth <? 0)%Z then (kth + Z.of_nat n)%Z else kth in
  if ((0 <=? kth') && (kth' <? Z.of_nat n))%Z then Some (Z.to_nat kth') else None.

(** [a[i]] for a position known to be inside [a]. *)
Definition at_pos (a : list R) (i : nat) : R := nth i a 0%R.

Definition partitioned_at (a : list R) (j : nat) (r : list nat) : Prop :=
  ∀ i ri rj, r !! i = Some ri → r !! j = Some rj →
    (i ≤ j → (at_pos a ri <= at_pos a rj)%R) ∧
    (j ≤ i → (at_pos a rj <= at_pos a ri)%R).

Record argpartition_contract (argpartition : list R → Z → option (list nat)) : Prop := {
  argpartition_raises : ∀ a kth,
    norm_kth (length a) kth = None → argpartition a kth = None;
  argpartition_returns : ∀ a kth j,
    norm_kth (length a) kth = Some j →
    ∃ r, argpartition a kth = Some r ∧ r ≡ₚ seq 0 (length a) ∧ partitioned_at a j r
}.

(** [numpy.argmin]: the first position of the smallest element. *)
Fixpoint argmin_from (best : R) (besti i : nat) (l : list R) : nat :=
  match l with
  | [] => besti
  | x :: l' =>
      if Rlt_dec x best then argmin_from x i (S i) l'
      else argmin_from best besti (S i) l'
  end.

Definition argmin (l : list R) : option nat :=
  match l with
  | [] => None
  | x :: l' => Some (argmin_from x 0 1 l')
  end.

(** One implementation of the primitive: the selection loop that numpy's
    introselect runs for a small [kth].  Round [i] looks for the first
    strictly smallest element from position [i] on and swaps it into
    position [i]. *)
Definition swap_head (m : nat) (l : list nat) : list nat :=
  match l, m with
  | x :: xs, S m' =>
      match xs !! m' with
      | Some y => y :: <[m' := x]> xs
      | None => l
      end
  | _, _ => l
  end.

Fixpoint dumb_select (v : nat → R) (rounds : nat) (tosort : list nat) : list nat :=
  match rounds, tosort with
  | S n, x :: xs =>
      match swap_head (argmin_from (v x) 0 1 (map v xs)) (x :: xs) with
      | y :: ys => y :: dumb_select v n ys
      | [] => []
      end
  | _, _ => tosort
  end.

Definition select_argpartition (a : list R) (kth : Z) : option (list nat) :=
  j ← norm_kth (length a) kth;
  Some (dumb_select (at_pos a) (S j) (seq 0 (length a))).

(** ** [gen_sample] (nmt.py): beam search over an ensemble

    The embedding follows the branch [stochastic=False] of the loop, with
    [argmax], [return_alignment], [suppress_unk] and [return_hyp_graph]
    off: alignments and the hypothesis graph are recorded beside the
    search and never read by it.  Only the initialisation keeps the
    [stochastic] flag, which decides the number of initial hypotheses.
    On this path no list is changed in place once it is shared: a
    hypothesis is extended with [+], which builds a new list, so values
    stand for the Python objects. *)

Section GenSample.
(** [X]: the inputs [xs]; [St]: the recurrent state of one model for one
    hypothesis; [Ctx]: what [f_init] returns beside the state. *)
Context {X St Ctx : Type}.

(** One member of the ensemble: [f_init[i]] and [f_next[i]].  [f_next]
    receives the previous words, the contexts tiled once per live
    hypothesis and the states, and returns the next-word probabilities
    (one row per hypothesis) and the new states. *)
Record model := Model {
  f_init : X → St * Ctx;
  f_next : list Z → list Ctx → list St → mat * list St
}.

Variable argpartition : list R → Z → option (list nat).

(** The variables of [gen_sample] that live across iterations.  The
    hypotheses are parallel lists, as in the source. *)
Record beam := Beam {
  sample : list (list Z);
  sample_score : list R;
  sample_word_probs : list (list R);
  live_k : nat;
  dead_k : nat;
  hyp_samples : list (list Z);
  hyp_scores : list R;
  word_probs : list (list R);
  next_w : list Z;
  next_state : list (list St)
}.

Definition init_live_k (stochastic : bool) (k : nat) : nat :=
  if stochastic then k else 1.

(** Lines 1094-1153: the state before the first iteration. *)
Definition init_beam (stochastic : bool) (k : nat) (models : list model) (x : X) : beam :=
  let live_k := init_live_k stochastic k in
  {| sample := [];
     sample_score := [];
     sample_word_probs := [];
     live_k := live_k;
     dead_k := 0;
     hyp_samples := replicate live_k [];
     hyp_scores := replicate live_k 0%R;
     word_probs := replicate live_k [];
     next_w := replicate live_k (-1)%Z;
     next_state := map (λ m, replicate live_k (f_init m x).1) models |}.

(** [ctx[0][i]], the context of model [i], computed once. *)
Definition init_ctx (models : list model) (x : X) : list Ctx :=
  map (λ m, (f_init m x).2) models.

(** Lines 1157-1183: every model is stepped on all live hypotheses. *)
Definition run_models (models : list model) (ctx : list Ctx) (b : beam)
  : list (mat * list St) :=
  zip_with (λ m cs, f_next m (next_w b) (replicate (live_k b) cs.1) cs.2)
           models (zip ctx (next_state b)).

(** [next_p[0].shape[1]]. *)
Definition shape1 (m : mat) : nat :=
  match m with row :: _ => length row | [] => 0 end.

(** Line 1235: [hyp_scores[:, None] - sum(numpy.log(next_p))]. *)
Definition cand_scores_of (hyp_scores : list R) (p0 : mat) (ps : list mat) : mat :=
  col_minus hyp_scores (mat_sum (mat_log p0) (map mat_log ps)).

(** Line 1236: [sum(next_p) / num_models]. *)
Definition probs_of (num_models : nat) (p0 : mat) (ps : list mat) : mat :=
  mat_div (mat_sum p0 ps) (INR num_models).

(** Line 1239: the positions of the selected candidates. *)
Definition ranks_of (k : nat) (dead_k : nat) (cand_flat : list R) : option (list nat) :=
  part ← argpartition cand_flat (Z.of_nat k - Z.of_nat dead_k - 1)%Z;
  Some (take (k - dead_k) part).

Definition is_eos (s : list Z) : bool := bool_decide (last s = Some 0%Z).

(** One iteration of the loop, lines 1157-1325 on the beam-search branch.
    [None] is a Python exception (an index out of range, [argpartition]
    refusing [kth], an empty ensemble); the flag tells whether the
    iteration left the loop through [break]. *)
Definition beam_step (k : nat) (models : list model) (ctx : list Ctx) (b : beam)
  : option (beam * bool) :=
  let outs := run_models models ctx b in
  let next_p := outs.*1 in
  let next_state' := outs.*2 in
  match next_p with
  | [] => None
  | p0 :: ps =>
      let cand_flat := flatten (cand_scores_of (hyp_scores b) p0 ps) in
      let probs_flat := flatten (probs_of (length models) p0 ps) in
      ranks_flat ← ranks_of k (dead_k b) cand_flat;
      let voc_size := shape1 p0 in
      (* Python 2, integer arrays: [/] is the floor division *)
      let trans_indices := map (λ r, r / voc_size) ranks_flat in
      let word_indices := map (λ r, r mod voc_size) ranks_flat in
      costs ← mapM (λ r, cand_flat !! r) ranks_flat;
      new_hyp_samples ←
        mapM (λ tw, s ← hyp_samples b !! tw.1; Some (s ++ [Z.of_nat tw.2]))
             (zip trans_indices word_indices);
      new_word_probs ←
        mapM (λ tr, wp ← word_probs b !! tr.1; p ← probs_flat !! tr.2; Some (wp ++ [p]))
             (zip trans_indices ranks_flat);
      new_hyp_states ←
        mapM (λ ti, mapM (λ ns : list St, ns !! ti) next_state') trans_indices;
      let dead := map is_eos new_hyp_samples in
      let live := map negb dead in
      let new_live_k := length (keep live new_hyp_samples) in
      let dead_k' := dead_k b + length (keep dead new_hyp_samples) in
      let hyp_samples' := keep live new_hyp_samples in
      let hyp_states' := keep live new_hyp_states in
      let stop := (new_live_k <? 1) || (k <=? dead_k') in
      Some ({| sample := sample b ++ keep dead new_hyp_samples;
               sample_score := sample_score b ++ keep dead costs;
               sample_word_probs := sample_word_probs b ++ keep dead new_word_probs;
               live_k := new_live_k;
               dead_k := dead_k';
               hyp_samples := hyp_samples';
               hyp_scores := keep live costs;
               word_probs := keep live new_word_probs;
               (* [w[-1]]: every new hypothesis has a last word *)
               next_w := if stop then next_w b
                         else omap last hyp_samples';
               next_state := if stop then next_state'
                             else transpose (length models) hyp_states' |},
            stop)
  end.

(** [for ii in xrange(maxlen)]: the flag of the result tells whether the
    loop was left through [break] (otherwise [ii] ran up to [maxlen]). *)
Fixpoint beam_loop (k : nat) (models : list model) (ctx : list Ctx)
         (maxlen : nat) (b : beam) : option (beam * bool) :=
  match maxlen with
  | 0 => Some (b, false)
  | S n =>
      match beam_step k models ctx b with
      | None => None
      | Some (b', true) => Some (b', true)
      | Some (b', false) => beam_loop k models ctx n b'
      end
  end.

(** Lines 1327-1332, "dump every remaining one": the hypotheses still
    live are appended to the finished ones. *)
Definition dump_remaining (b : beam) : option (list (list Z) * list R * list (list R)) :=
  if 0 <? live_k b then
    ss ← mapM (λ idx, hyp_samples b !! idx) (seq 0 (live_k b));
    sc ← mapM (λ idx, hyp_scores b !! idx) (seq 0 (live_k b));
    wp ← mapM (λ idx, word_probs b !! idx) (seq 0 (live_k b));
    Some (sample b ++ ss, sample_score b ++ sc, sample_word_probs b ++ wp)
  else Some (sample b, sample_score b, sample_word_probs b).

(** [gen_sample(f_init, f_next, x, k=k, maxlen=maxlen, stochastic=False)]:
    [(sample, sample_score, sample_word_probs)]. *)
Definition gen_sample (models : list model) (x : X) (k maxlen : nat)
  : option (list (list Z) * list R * list (list R)) :=
  r ← beam_loop k models (init_ctx models x) maxlen (init_beam false k models x);
  dump_remaining r.1.
End GenSample.

(** ** [Translation.get_alignment_json] (translate.py) *)

Section Translation.
(** [W]: an alignment weight; [str]: Python's [str] on it. *)
Context {W : Type} (str : W → string).

(** A [Translation] as [Translator.translate] builds it when alignments
    are requested: [sentence_id] is the position of the segment, and
    [hypothesis_id] the rank in the n-best list ([None] for a single
    best translation). *)
Record Translation := {
  source_words : list string;
  target_words : list string;
  sentence_id : Z;
  score : R;
  alignment : list (list W);
  hypothesis_id : option Z;
  aux_source_words : list (list string);
  aux_alignment : list (list (list W))
}.

Definition enumerate {A} (l : list A) : list (nat * A) := imap pair l.

Definition link : Type := string * string * string * Z * Z.

(** [get_alignment_json(as_string=False, aux=aux)]: the list [links]
    ([as_string=True] prints the same list with [json.dumps]).  [None]
    is an [IndexError]. *)
Definition get_alignment_json (t : Translation) (aux : option nat) : option (list link) :=
  src ← match aux with
        | None => Some (source_words t ++ ["</s>"], alignment t)
        | Some a =>
            ws ← aux_source_words t !! a;
            al ← aux_alignment t !! a;
            Some (ws ++ ["</s>"], al)
        end;
  let source_tokens := src.1 in
  let target_tokens := target_words t ++ ["</s>"] in
  let tid := match hypothesis_id t with
             | Some h => (sentence_id t + h)%Z
             | None => sentence_id t
             end in
  links ← mapM (λ ta : nat * list W,
                  mapM (λ sw : nat * W,
                          tt ← target_tokens !! ta.1;
                          st ← source_tokens !! sw.1;
                          Some (tt, st, str sw.2, sentence_id t, tid))
                       (enumerate ta.2))
               (enumerate src.2);
  Some (concat links).
End Translation.

(** ** [Translator._translate] (translate.py, lines 409-422) *)

Section TranslateJob.
(** [A]: the alignment of one hypothesis for one source; [G]: the
    hypothesis graph. *)
Context {A G : Type}.

(** What [gen_sample] returns to [_translate]. *)
Record sampled := {
  s_sample : list (list Z);
  s_score : list R;
  s_word_probs : list (list R);
  s_alignments : list (list A);
  s_hyp_graph : G
}.

Inductive output_item :=
| NBest (sample : list (list Z)) (score : list R) (word_probs : list (list R))
        (alignments : list (list A)) (hyp_graph : G)
| Best (sample : list Z) (score : R) (word_probs : list R)
       (alignments : list A) (hyp_graph : G).

(** [len(s) ** normalization_alpha]; every hypothesis [gen_sample]
    returns to [_translate] (which passes [maxlen=200]) has a word. *)
Definition adjusted_length (normalization_alpha : R) (s : list Z) : R :=
  Rpower (INR (length s)) normalization_alpha.

(** Lines 410-412: [score / adjusted_lengths] when
    [normalization_alpha] is not zero. *)
Definition normalize (normalization_alpha : R) (sample : list (list Z)) (score : list R)
  : list R :=
  if Req_dec_T normalization_alpha 0 then score
  else zip_with Rdiv score (map (adjusted_length normalization_alpha) sample).

(** Lines 409-422; [None] is an exception ([argmin] of nothing, an index
    out of range). *)
Definition _translate (normalization_alpha : R) (nbest : bool) (r : sampled)
  : option output_item :=
  let score := normalize normalization_alpha (s_sample r) (s_score r) in
  if nbest then
    Some (NBest (s_sample r) score (s_word_probs r) (s_alignments r) (s_hyp_graph r))
  else
    sidx ← argmin score;
    smp ← s_sample r !! sidx;
    sc ← score !! sidx;
    wp ← s_word_probs r !! sidx;
    al ← mapM (λ align : list A, align !! sidx) (s_alignments r);
    Some (Best smp sc wp al (s_hyp_graph r)).
End TranslateJob.

(** ** [Translator._retrieve_jobs] (translate.py, lines 567-598)

    The coordinator sees the world through [self._output_queue.get]: the
    call returns the next result, or raises [Empty] after the timeout, and
    then the coordinator looks at its worker processes.  A run is driven
    by the list of what the successive calls find. *)

Record process := {
  pid : Z;
  is_alive : bool;
  exitcode : option Z
}.

Section RetrieveJobs.
(** [RID]: request identifiers; [Item]: what a worker puts on the queue
    for one segment. *)
Context `{Countable RID} {Item : Type}.

Inductive queue_event :=
| Resp (request_id : RID) (idx : nat) (output_item : Item)
| Empty (processes : list process).

(** What the coordinator does to the outside on a crash. *)
Inductive action :=
| CancelJoinThread
| Terminate (idx : nat)
| LogError (pid : Z) (exitcode : option Z).

(** Line 582: [not is_alive() and exitcode != 0]. *)
Definition crashed (p : process) : bool :=
  negb (is_alive p) && negb (bool_decide (exitcode p = Some 0%Z)).

(** Lines 585-590, for the crashed worker [p]: what is done before
    [sys.exit(1)]. *)
Definition crash_actions (processes : list process) (p : process) : list action :=
  [CancelJoinThread; CancelJoinThread]
    ++ map Terminate (seq 0 (length processes))
    ++ [LogError (pid p) (exitcode p)].

Inductive collected :=
| Collected (request_id : RID) (buffer : gmap RID (gmap nat Item))
            (queue : list queue_event)
| SysExit (code : Z) (log : list action) (queue : list queue_event)
| Starved (buffer : gmap RID (gmap nat Item)).

(** [self._retrieved_translations[request_id]]: a [defaultdict(dict)]
    creates the entry it is asked for. *)
Definition entry (request_id : RID) (buffer : gmap RID (gmap nat Item)) : gmap nat Item :=
  default ∅ (buffer !! request_id).

Definition touch (request_id : RID) (buffer : gmap RID (gmap nat Item))
  : gmap RID (gmap nat Item) :=
  <[request_id := entry request_id buffer]> buffer.

(** Lines 570-592.  [request_id] is the local variable of that name: the
    parameter at first, then whatever line 591 unpacked from the last
    result.  After an [Empty] without a crash the inner loop asks the
    queue again; nothing has changed, so testing the outer condition
    again gives the same answer.  [Starved]: the queue never delivers
    anything more. *)
Fixpoint collect (num_samples : nat) (request_id : RID)
         (buffer : gmap RID (gmap nat Item)) (queue : list queue_event) : collected :=
  let buffer := touch request_id buffer in
  if size (entry request_id buffer) <? num_samples then
    match queue with
    | [] => Starved buffer
    | Empty processes :: queue' =>
        match List.find crashed processes with
        | Some p => SysExit 1 (crash_actions processes p) queue'
        | None => collect num_samples request_id buffer queue'
        end
    | Resp request_id' idx output_item :: queue' =>
        collect num_samples request_id'
                (<[request_id' := <[idx := output_item]> (entry request_id' buffer)]> buffer)
                queue'
    end
  else Collected request_id buffer queue.

Inductive retrieved :=
| Yielded (items : list Item) (buffer : gmap RID (gmap nat Item))
          (queue : list queue_event)
| KeyError (items : list Item)
| Exited (code : Z) (log : list action) (queue : list queue_event)
| Blocked (buffer : gmap RID (gmap nat Item)).

(** Lines 594-595: the items yielded before a missing index raises. *)
Fixpoint yield_all (e : gmap nat Item) (idxs : list nat) : list Item * bool :=
  match idxs with
  | [] => ([], true)
  | idx :: idxs' =>
      match e !! idx with
      | Some it => let r := yield_all e idxs' in (it :: r.1, r.2)
      | None => ([], false)
      end
  end.

(** The generator run to its end, as [translate] consumes it. *)
Definition _retrieve_jobs (num_samples : nat) (request_id : RID)
           (buffer : gmap RID (gmap nat Item)) (queue : list queue_event) : retrieved :=
  match collect num_samples request_id buffer queue with
  | Collected request_id buffer queue' =>
      match yield_all (entry request_id buffer) (seq 0 num_samples) with
      | (items, true) => Yielded items (delete request_id buffer) queue'
      | (items, false) => KeyError items
      end
  | SysExit code log queue' => Exited code log queue'
  | Starved buffer => Blocked buffer
  end.
End RetrieveJobs.

(** ** Small ensembles used as concrete inputs *)

(** A model without memory: whatever the previous word, every live
    hypothesis gets the distribution [row] over the vocabulary. *)
Definition const_model (row : list R) : @model unit unit unit :=
  {| f_init := λ _, (tt, tt);
     f_next := λ next_w _ states, (map (λ _, row) next_w, states) |}.

(** The ensembles of the examples: one model that prefers word 1 to the
    end of sentence (word 0), one with two equally likely words before a
    likelier third, and one that is undecided between two words. *)
Definition model_go : @model unit unit unit := const_model [(1/4)%R; (3/4)%R].
Definition model_half : @model unit unit unit := const_model [(1/2)%R; (1/2)%R].

(** ** Predicates used in the statements *)

(** The selected positions [ranks] cost no more than the positions left
    out. *)
Definition lowest_cost (cand_flat : list R) (ranks : list nat) : Prop :=
  ∀ r r', r ∈ ranks → r' < length cand_flat → r' ∉ ranks →
    (at_pos cand_flat r <= at_pos cand_flat r')%R.



(** The parallel lists of a beam describe as many hypotheses as the
    counters say, and what is finished ends with the end-of-sentence
    word 0. *)
Definition beam_consistent {St} (k : nat) (b : @beam St) : Prop :=
  dead_k b ≤ k ∧
  live_k b = length (hyp_samples b) ∧
  length (hyp_scores b) = length (hyp_samples b) ∧
  length (word_probs b) = length (hyp_samples b) ∧
  dead_k b = length (sample b) ∧
  length (sample_score b) = length (sample b) ∧
  length (sample_word_probs b) = length (sample b) ∧
  Forall (λ s, last s = Some 0%Z) (sample b).


(** The beam of [model_go] with width 2 after one and after two
    iterations: word 0 ends the first hypothesis at once, the other one
    goes on with word 1. *)
Definition beam_go_1 : @beam unit :=
  {| sample := [[0%Z]];
     sample_score := [(0 - ln (1 / 4))%R];
     sample_word_probs := [[(1 / 4 / 1)%R]];
     live_k := 1;
     dead_k := 1;
     hyp_samples := [[1%Z]];
     hyp_scores := [(0 - ln (3 / 4))%R];
     word_probs := [[(3 / 4 / 1)%R]];
     next_w := [1%Z];
     next_state := [[()]] |}.

Definition beam_go_2 : @beam unit :=
  {| sample := [[0%Z]];
     sample_score := [(0 - ln (1 / 4))%R];
     sample_word_probs := [[(1 / 4 / 1)%R]];
     live_k := 1;
     dead_k := 1;
     hyp_samples := [[1%Z; 1%Z]];
     hyp_scores := [(0 - ln (3 / 4) - ln (3 / 4))%R];
     word_probs := [[(3 / 4 / 1)%R; (3 / 4 / 1)%R]];
     next_w := [1%Z];
     next_state := [[()]] |}.



(** [m[h][w]]. *)
Definition mat_at (m : mat) (h w : nat) : option R :=
  row ← m !! h; row !! w.


(** A step output of one model: [rows] rows, one per live hypothesis, each
    a distribution over [voc_size] words with values in (0, 1]. *)
Definition shaped (rows voc_size : nat) (m : mat) : Prop :=
  length m = rows ∧ Forall (λ row, length row = voc_size) m.

Definition probabilities (rows voc_size : nat) (p : mat) : Prop :=
  shaped rows voc_size p ∧
  Forall (λ row, Forall (λ q, (0 < q <= 1)%R) row) p.


(** The beam of two copies of [model_half] with width 1 after one
    iteration: the two words tie and the end of sentence is taken. *)
Definition beam_half_1 : @beam unit :=
  {| sample := [[0%Z]];
     sample_score := [(0 - (ln (1 / 2) + ln (1 / 2)))%R];
     sample_word_probs := [[((1 / 2 + 1 / 2) / (1 + 1))%R]];
     live_k := 0;
     dead_k := 1;
     hyp_samples := [];
     hyp_scores := [];
     word_probs := [];
     next_w := [(-1)%Z];
     next_state := [[()]; [()]] |}.


(** A second-best translation of the segment with [sentence_id] 1, as
    [translate] builds it for an n-best list: one source word, one target
    word, and a 2 x 2 alignment whose weights print as below. *)
Inductive weight := Strong | Weak.

Definition weight_str (w : weight) : string :=
  match w with Strong => "0.9" | Weak => "0.1" end.

Definition translation_nbest : @Translation weight :=
  {| source_words := ["chat"];
     target_words := ["cat"];
     sentence_id := 1;
     score := 0;
     alignment := [[Strong; Weak]; [Weak; Strong]];
     hypothesis_id := Some 0%Z;
     aux_source_words := [];
     aux_alignment := [] |}.


(** What [gen_sample] may hand to [_translate]: two finished hypotheses,
    the second one cheaper; alignments (one source) are stood for by
    numbers. *)
Definition sampled_two : @sampled nat unit :=
  {| s_sample := [[3%Z; 0%Z]; [2%Z; 0%Z]];
     s_score := [2%R; 1%R];
     s_word_probs := [[(1/4)%R; (1/2)%R]; [(1/2)%R; (3/4)%R]];
     s_alignments := [[10; 20]];
     s_hyp_graph := tt |}.


(** Two workers: the first still running, the second dead with exit
    code 1. *)
Definition worker_running : process := {| pid := 100; is_alive := true; exitcode := None |}.
Definition worker_dead : process := {| pid := 101; is_alive := false; exitcode := Some 1%Z |}.


(** A returned hypothesis: it ends with the end-of-sentence word 0, which
    occurs nowhere else in it, or it was still live after [maxlen]
    iterations and has [maxlen] words, none of them 0. *)
Definition ended_or_cut (maxlen : nat) (s : list Z) : Prop :=
  (∃ s0, s = s0 ++ [0%Z] ∧ (0%Z ∉ s0) ∧ length s ≤ maxlen) ∨
  (length s = maxlen ∧ (0%Z ∉ s)).

(** What the lists of a beam hold after [n] iterations: live hypotheses
    have [n] words, none of them 0; finished ones have at most [n] words
    and 0 as their last word only; every hypothesis has one word
    probability per word. *)
Definition beam_shape {St} (n : nat) (b : @beam St) : Prop :=
  Forall2 (λ s wp, length wp = length s ∧ length s = n ∧ (0%Z ∉ s))
          (hyp_samples b) (word_probs b) ∧
  Forall2 (λ s wp, length wp = length s ∧
                   ∃ s0, s = s0 ++ [0%Z] ∧ (0%Z ∉ s0) ∧ length s ≤ n)
          (sample b) (sample_word_probs b).

(** The step function of a model always returns one distribution over
    [voc_size] words per previous word. *)
Definition returns_probabilities {X St Ctx} (voc_size : nat) (m : @model X St Ctx) : Prop :=
  ∀ next_w ctx states, probabilities (length next_w) voc_size (f_next m next_w ctx states).1.


(** ** [gen_sample] (nmt.py): greedy decoding

    The branch [stochastic=True, argmax=True] of the same loop (lines
    1184-1191): one hypothesis, no beam; [sample] is a flat list of words
    and [sample_score] a number. *)

(** [numpy.argmax]: the first position of the largest element. *)
Fixpoint argmax_from (best : R) (besti i : nat) (l : list R) : nat :=
  match l with
  | [] => besti
  | x :: l' =>
      if Rlt_dec best x then argmax_from x i (S i) l'
      else argmax_from best besti (S i) l'
  end.

Definition argmax (l : list R) : option nat :=
  match l with
  | [] => None
  | x :: l' => Some (argmax_from x 0 1 l')
  end.

Section Greedy.
Context {X St Ctx : Type}.

(** Lines 1157-1189 for one iteration.  On this branch nothing assigns
    [next_w]: every call of [f_next] gets the initial [-1] for each of the
    [live_k = k] rows.  The word is the argmax of row 0 of the sum of the
    models' distributions; the score grows by the log of the FIRST
    model's probability for it. *)
Definition greedy_step (models : list (@model X St Ctx)) (ctx : list Ctx) (k : nat)
           (next_state : list (list St)) : option (nat * R * list (list St)) :=
  let outs := zip_with (λ m cs, f_next m (replicate k (-1)%Z) (replicate k cs.1) cs.2)
                       models (zip ctx next_state) in
  match outs.*1 with
  | [] => None
  | p0 :: ps =>
      row ← mat_sum p0 ps !! 0;
      nw ← argmax row;
      row0 ← p0 !! 0;
      p ← row0 !! nw;
      Some (nw, ln p, outs.*2)
  end.

Fixpoint greedy_loop (models : list (@model X St Ctx)) (ctx : list Ctx) (k maxlen : nat)
         (next_state : list (list St)) (sample : list Z) (sample_score : R)
  : option (list Z * R) :=
  match maxlen with
  | 0 => Some (sample, sample_score)
  | S n =>
      r ← greedy_step models ctx k next_state;
      let nw := r.1.1 in
      let sample := sample ++ [Z.of_nat nw] in
      let sample_score := (sample_score + r.1.2)%R in
      if nw =? 0 then Some (sample, sample_score)
      else greedy_loop models ctx k n r.2 sample sample_score
  end.

(** [gen_sample(..., k=k, maxlen=maxlen, stochastic=True, argmax=True)]:
    [(sample, sample_score)].  [None] is an exception; the first one is
    the assertion of lines 1082-1084. *)
Definition gen_sample_argmax (models : list (@model X St Ctx)) (x : X) (k maxlen : nat)
  : option (list Z * R) :=
  if 1 <? k then None
  else greedy_loop models (init_ctx models x) k maxlen
                   (next_state (init_beam true k models x)) [] 0%R.
End Greedy.

(** A model that reads the previous word: after the start sign it
    prefers word 1, after anything else the end of sentence. *)
Definition model_echo : @model unit unit unit :=
  {| f_init := λ _, (tt, tt);
     f_next := λ next_w _ states,
       (map (λ w : Z, if bool_decide (w = (-1)%Z) then [(1/4)%R; (3/4)%R]
                      else [(3/4)%R; (1/4)%R]) next_w,
        states) |}.


(** ** [gen_sample] (nmt.py): sampling

    The branch [stochastic=True, argmax=False] (lines 1193-1233): [k]
    trajectories, no pruning.  The words [next_w_tmp] are drawn inside
    the compiled step function from its random stream; here [draws ii]
    is what the LAST model drew in iteration [ii], one word per live
    trajectory (a word is a position in the vocabulary, a [nat]). *)

Section Sampling.
Context {X St Ctx : Type}.

(** One iteration.  The first loop appends the drawn words; the second
    one, [for ti in xrange(live_k)], collects the states and overwrites
    [hyp_scores[ti]] and extends [word_probs[ti]] with the cost and the
    probability of the drawn word under the last model; then the four
    lists are zipped and the trajectories whose last word is not above 0
    are moved to the finished ones.  [dead_k] is not touched. *)
Definition sample_step (models : list (@model X St Ctx)) (ctx : list Ctx)
           (nws : list nat) (b : @beam St) : option (@beam St * bool) :=
  let outs := run_models models ctx b in
  let next_state' := outs.*2 in
  p_last ← last outs.*1;
  let cand_scores := col_minus (hyp_scores b) (mat_log p_last) in
  if length (hyp_samples b) <? length nws then None else
  let hyp_samples1 :=
    imap (λ idx s, match nws !! idx with
                   | Some nw => s ++ [Z.of_nat nw]
                   | None => s
                   end) (hyp_samples b) in
  hyp_states ← mapM (λ ti, mapM (λ ns : list St, ns !! ti) next_state')
                    (seq 0 (live_k b));
  updates ← mapM (λ ti, nw ← nws !! ti;
                        c ← mat_at cand_scores ti nw;
                        p ← mat_at p_last ti nw;
                        _ ← hyp_scores b !! ti;
                        _ ← word_probs b !! ti;
                        Some (c, p))
                 (seq 0 (live_k b));
  let hyp_scores1 :=
    imap (λ ti c0, match updates !! ti with Some u => u.1 | None => c0 end)
         (hyp_scores b) in
  let word_probs1 :=
    imap (λ ti wp, match updates !! ti with Some u => wp ++ [u.2] | None => wp end)
         (word_probs b) in
  let rows := zip hyp_samples1 (zip hyp_states (zip hyp_scores1 word_probs1)) in
  lasts ← mapM (λ row, last row.1) rows;
  let live := map (λ w, bool_decide (0 < w)%Z) lasts in
  let dead := map negb live in
  let hyp_samples' := keep live rows.*1 in
  let hyp_states' := keep live rows.*2.*1 in
  let stop := length hyp_samples' <? 1 in
  Some ({| sample := sample b ++ keep dead rows.*1;
           sample_score := sample_score b ++ keep dead rows.*2.*2.*1;
           sample_word_probs := sample_word_probs b ++ keep dead rows.*2.*2.*2;
           live_k := length hyp_samples';
           dead_k := dead_k b;
           hyp_samples := hyp_samples';
           hyp_scores := keep live rows.*2.*2.*1;
           word_probs := keep live rows.*2.*2.*2;
           next_w := if stop then next_w b else omap last hyp_samples';
           next_state := if stop then next_state'
                         else transpose (length models) hyp_states' |},
        stop).

(** [for ii in xrange(maxlen)], iteration [ii] first. *)
Fixpoint sample_loop (models : list (@model X St Ctx)) (ctx : list Ctx)
         (draws : nat → list nat) (ii maxlen : nat) (b : @beam St)
  : option (@beam St * bool) :=
  match maxlen with
  | 0 => Some (b, false)
  | S n =>
      match sample_step models ctx (draws ii) b with
      | None => None
      | Some (b', true) => Some (b', true)
      | Some (b', false) => sample_loop models ctx draws (S ii) n b'
      end
  end.

(** [gen_sample(..., k=k, maxlen=maxlen, stochastic=True, argmax=False)]:
    [(sample, sample_score, sample_word_probs)]. *)
Definition gen_sample_stochastic (models : list (@model X St Ctx)) (x : X)
           (k maxlen : nat) (draws : nat → list nat)
  : option (list (list Z) * list R * list (list R)) :=
  r ← sample_loop models (init_ctx models x) draws 0 maxlen (init_beam true k models x);
  dump_remaining r.1.
End Sampling.


(** The lists of a sampling beam describe [live_k] trajectories, and [k]
    together with the finished ones. *)
Definition sampling_consistent {St} (k : nat) (b : @beam St) : Prop :=
  live_k b = length (hyp_samples b) ∧
  length (hyp_scores b) = length (hyp_samples b) ∧
  length (word_probs b) = length (hyp_samples b) ∧
  length (sample_score b) = length (sample b) ∧
  length (sample_word_probs b) = length (sample b) ∧
  length (sample b) + length (hyp_samples b) = k.

(** [hyp_sample[-1] > 0]. *)
Definition goes_on (s : list Z) : bool :=
  match last s with Some w => bool_decide (0 < w)%Z | None => false end.


(** Words drawn for two trajectories: word 1 and the end of sentence
    first, the end of sentence for the one that is left afterwards. *)
Definition draws_two (ii : nat) : list nat :=
  match ii with 0 => [1; 0] | _ => [0] end.


(** The beam with the states of the last model only ([n] models come
    before it). *)
Definition only_last {St} (n : nat) (b : @beam St) : @beam St :=
  {| sample := sample b;
     sample_score := sample_score b;
     sample_word_probs := sample_word_probs b;
     live_k := live_k b;
     dead_k := dead_k b;
     hyp_samples := hyp_samples b;
     hyp_scores := hyp_scores b;
     word_probs := word_probs b;
     next_w := next_w b;
     next_state := drop n (next_state b) |}.


(** ** [Translator._send_jobs_multisource] (translate.py, lines 516-565)

    Lines are byte strings; [char_level] is off. *)

(** Python 2 [str.isspace] on one byte. *)
Definition is_space (a : ascii) : bool :=
  let n := nat_of_ascii a in (n =? 32) || ((9 <=? n) && (n <=? 13)).

(** [s.split(sep)] for a one-byte separator: every occurrence cuts, empty
    pieces are kept. *)
Fixpoint split_when (sep : ascii → bool) (s : string) : list string :=
  match s with
  | EmptyString => [EmptyString]
  | String a s' =>
      if sep a then EmptyString :: split_when sep s'
      else match split_when sep s' with
           | w :: ws => String a w :: ws
           | [] => [String a EmptyString]
           end
  end.

Definition split_on (sep : ascii) (s : string) : list string :=
  split_when (λ a, bool_decide (a = sep)) s.

(** [s.strip().split()]: the maximal runs without white space. *)
Definition py_words (s : string) : list string :=
  List.filter (λ w, negb (bool_decide (w = EmptyString))) (split_when is_space s).

(** [zip(input_, *aux_input_)]: one tuple per line, as many as the
    shortest input has. *)
Fixpoint zip_lines (input_ : list string) (aux_input_ : list (list string))
  : list (list string) :=
  match input_ with
  | [] => []
  | l :: rest =>
      match mapM head aux_input_ with
      | Some hs => (l :: hs) :: zip_lines rest (map tail aux_input_)
      | None => []
      end
  end.

Section SendJobs.
(** [RID]: request identifiers; [Settings]: the decoding options copied
    into every item. *)
Context {RID Settings : Type}.

(** A [QueueItem] as this function builds it. *)
Record job := {
  j_settings : Settings;
  j_seq : list (list Z);
  j_aux_seq : list (list (list Z));
  j_idx : nat;
  j_request_id : RID
}.

Inductive encoded (A : Type) :=
| Encoded (x : A)
| WrongFactors
| IndexErr.
Arguments Encoded {A} x.
Arguments WrongFactors {A}.
Arguments IndexErr {A}.

(** Line 540: the ids of the factors of one word; a factor the
    dictionary does not know is 1.  [None]: there is no dictionary for
    the factor. *)
Definition factor_ids (dicts : list (gmap string Z)) (w : string) : option (list Z) :=
  mapM (λ jf : nat * string, d ← dicts !! jf.1; Some (default 1%Z (d !! jf.2)))
       (imap pair (split_on "|"%char w)).

(** Lines 539-547 for the words of one input of one line, in order. *)
Fixpoint encode_words (dicts : list (gmap string Z)) (factors : nat) (words : list string)
  : encoded (list (list Z)) :=
  match words with
  | [] => Encoded []
  | w :: words' =>
      match factor_ids dicts w with
      | None => IndexErr
      | Some ids =>
          if length ids =? factors then
            match encode_words dicts factors words' with
            | Encoded x => Encoded (ids :: x)
            | e => e
            end
          else WrongFactors
      end
  end.

(** Lines 531-550 for one line: every input is cut into words, encoded
    with the dictionaries of its position, and closed by the row of
    zeros. *)
Fixpoint encode_line (word_dicts : list (list (gmap string Z))) (factors : nat)
         (iidx : nat) (line : list string) : encoded (list (list (list Z))) :=
  match line with
  | [] => Encoded []
  | input :: line' =>
      match word_dicts !! iidx with
      | None => match py_words input with
                | [] => (* no word asks for a dictionary *)
                    match encode_line word_dicts factors (S iidx) line' with
                    | Encoded xs => Encoded ([replicate factors 0%Z] :: xs)
                    | e => e
                    end
                | _ => IndexErr
                end
      | Some dicts =>
          match encode_words dicts factors (py_words input) with
          | Encoded x =>
              match encode_line word_dicts factors (S iidx) line' with
              | Encoded xs => Encoded ((x ++ [replicate factors 0%Z]) :: xs)
              | e => e
              end
          | WrongFactors => WrongFactors
          | IndexErr => IndexErr
          end
      end
  end.

Inductive sent :=
| Sent (queued : list job) (n_samples : nat) (source_sentences : list (list (list string)))
| SentExit (code : Z) (queued : list job) (terminated : list nat)
| SentRaised (queued : list job).

(** The loop over the lines from line [sidx] on; [queued] are the items
    put on the input queue so far. *)
Fixpoint send_lines (word_dicts : list (list (gmap string Z))) (factors num_processes : nat)
         (settings : Settings) (request_id : RID)
         (sidx : nat) (lines : list (list string)) (queued : list job)
  : list job + sent :=
  match lines with
  | [] => inl queued
  | line :: lines' =>
      match encode_line word_dicts factors 0 line with
      | Encoded xs =>
          send_lines word_dicts factors num_processes settings request_id (S sidx) lines'
                     (queued ++ [{| j_settings := settings;
                                    j_seq := default [] (head xs);
                                    j_aux_seq := tail xs;
                                    j_idx := sidx;
                                    j_request_id := request_id |}])
      | WrongFactors => inr (SentExit 1 queued (seq 0 num_processes))
      | IndexErr => inr (SentRaised queued)
      end
  end.

(** [_send_jobs_multisource(input_, aux_input_, translation_settings)].
    Without a single line the final [return sidx+1, ...] finds [sidx]
    unbound. *)
Definition _send_jobs_multisource (word_dicts : list (list (gmap string Z)))
           (factors num_processes : nat) (settings : Settings) (request_id : RID)
           (input_ : list string) (aux_input_ : list (list string)) : sent :=
  let lines := zip_lines input_ aux_input_ in
  match send_lines word_dicts factors num_processes settings request_id 0 lines [] with
  | inr r => r
  | inl queued =>
      match lines with
      | [] => SentRaised queued
      | _ => Sent queued (length lines)
                  (map (λ iidx, map (λ line, py_words (default EmptyString (line !! iidx))) lines)
                       (seq 0 (S (length aux_input_))))
      end
  end.
End SendJobs.
Arguments Encoded {A} x.
Arguments WrongFactors {A}.
Arguments IndexErr {A}.


(** An encoded input: rows of [factors] ids, the last one the row of
    zeros that stands for the end of the sentence. *)
Definition closed_by_eos (factors : nat) (x : list (list Z)) : Prop :=
  (∃ body, x = body ++ [replicate factors 0%Z]) ∧
  Forall (λ row, length row = factors) x.


(** Lines 383-386 of [Translator._start_worker]: a worker answers an
    item with the request id and the index of the item and with what
    [_translate] makes of it ([work]). *)
Definition worker_response {RID Settings Item : Type}
           (work : @job RID Settings → Item) (j : @job RID Settings)
  : @queue_event RID Item :=
  Resp (j_request_id j) (j_idx j) (work j).

(** ** Dictionaries and lines used as concrete inputs *)

Definition dict_ab : gmap string Z := {[ "a"%string := 2%Z; "b"%string := 3%Z ]}.

(** One dictionary for the main input and one for the auxiliary input. *)
Definition word_dicts_two : list (list (gmap string Z)) := [[dict_ab]; [dict_ab]].

(** Two dictionaries for the only input: words may have two factors. *)
Definition word_dicts_factored : list (list (gmap string Z)) := [[dict_ab; dict_ab]].

Definition job_0 : @job nat unit :=
  {| j_settings := tt; j_seq := [[2%Z]; [3%Z]; [0%Z]]; j_aux_seq := [[[3%Z]; [0%Z]]];
     j_idx := 0; j_request_id := 7 |}.
Definition job_1 : @job nat unit :=
  {| j_settings := tt; j_seq := [[3%Z]; [1%Z]; [0%Z]];
     j_aux_seq := [[[2%Z]; [2%Z]; [0%Z]]];
     j_idx := 1; j_request_id := 7 |}.
Definition job_a : @job nat unit :=
  {| j_settings := tt; j_seq := [[2%Z]; [0%Z]]; j_aux_seq := [];
     j_idx := 0; j_request_id := 7 |}.


(** ** [Translator._build_dictionaries] (translate.py, lines 182-263) *)

(** [options['n_words_src']]: absent, a number (older models), or the
    list of sizes that training stores (nmt.py, line 1641). *)
Inductive vocabulary_size :=
| NoSize
| IntSize (n : Z)
| ListSize (ns : list Z).

Section BuildDictionaries.
(** [D]: the name of a dictionary file; [load_dict]: its content;
    [iteritems]: the order in which Python goes through a dictionary. *)
Context {D : Type} (load_dict : D → gmap string Z)
        (iteritems : gmap string Z → list (string * Z)).

(** The entries of [self._options[0]] that the function reads. *)
Record model_options := {
  dictionaries : list D;
  extra_source_dicts_nums : list nat;
  extra_source_dicts : list D;
  n_words_src : vocabulary_size
}.

(** Lines 202-206: the loop over [range(sum(extra_source_dicts_nums))];
    [None] is the [IndexError] of [extra_source_dicts_nums[i]]. *)
Fixpoint aux_groups (nums : list nat) (extra : list D) (range : list nat)
         (totalnum : nat) (aux_dictionaries_source : list (list D))
  : option (list (list D)) :=
  match range with
  | [] => Some aux_dictionaries_source
  | i :: range' =>
      num ← nums !! i;
      let end_idx := totalnum + num in
      aux_groups nums extra range' end_idx
                 (aux_dictionaries_source
                    ++ [take (end_idx - totalnum) (drop totalnum extra)])
  end.

(** Lines 197-210. *)
Definition aux_dictionaries (o : model_options) (multisource : bool) (num_encoders : nat)
           (dictionaries_source : list D) : option (list (list D)) :=
  if multisource then
    groups ← aux_groups (extra_source_dicts_nums o) (extra_source_dicts o)
                        (seq 0 (sum_list (extra_source_dicts_nums o))) 0 [];
    Some (match groups with
          | [] => [concat (replicate num_encoders dictionaries_source)]
          | _ => groups
          end)
  else Some [].

(** Lines 239-242: with a number that is not 0, the words whose index
    is not below it are deleted.  An empty list is false; against any
    other list the comparison [idx >= all_n_words_src] of Python 2 is
    false, a number being smaller than a list. *)
Definition prune (size : vocabulary_size) (word_dict : gmap string Z) : gmap string Z :=
  match size with
  | IntSize n =>
      if bool_decide (n = 0%Z) then word_dict
      else filter (λ kv : string * Z, (kv.2 < n)%Z) word_dict
  | ListSize _ | NoSize => word_dict
  end.

(** Lines 243-247 (and 257-261 for the target). *)
Definition invert (word_dict : gmap string Z) : gmap Z string :=
  <[1%Z := "UNK"%string]>
    (<[0%Z := "<eos>"%string]>
       (foldl (λ (word_idict : gmap Z string) (kv : string * Z), <[kv.2 := kv.1]> word_idict)
              ∅ (iteritems word_dict))).

Record built := {
  _word_dicts : list (list (gmap string Z));
  _word_idicts : list (list (gmap Z string));
  _word_idict_trg : gmap Z string
}.

(** [None]: an [IndexError], of [dictionaries[-1]] or of the loop over
    the auxiliary dictionaries. *)
Definition _build_dictionaries (o : model_options) (multisource : bool) (num_encoders : nat)
  : option built :=
  let dictionaries_source := take (length (dictionaries o) - 1) (dictionaries o) in
  dictionary_target ← last (dictionaries o);
  aux_dictionaries_source ← aux_dictionaries o multisource num_encoders dictionaries_source;
  let word_dicts :=
    map (map (λ dictionary, prune (n_words_src o) (load_dict dictionary)))
        (dictionaries_source :: aux_dictionaries_source) in
  Some {| _word_dicts := word_dicts;
          _word_idicts := map (map invert) word_dicts;
          _word_idict_trg := invert (load_dict dictionary_target) |}.
End BuildDictionaries.


(** A model with one auxiliary input: the same file is the source, the
    auxiliary and the target dictionary, and the vocabulary is cut at
    index 3. *)
Definition options_ab : @model_options unit :=
  {| dictionaries := [tt; tt];
     extra_source_dicts_nums := [1];
     extra_source_dicts := [tt];
     n_words_src := IntSize 3 |}.

Definition dict_a : gmap string Z := {[ "a"%string := 2%Z ]}.
Definition idict_a : gmap Z string :=
  {[ 0%Z := "<eos>"%string; 1%Z := "UNK"%string; 2%Z := "a"%string ]}.
Definition idict_ab : gmap Z string :=
  {[ 0%Z := "<eos>"%string; 1%Z := "UNK"%string; 2%Z := "a"%string; 3%Z := "b"%string ]}.

Definition built_ab : built :=
  {| _word_dicts := [[dict_a]; [dict_a]];
     _word_idicts := [[idict_a]; [idict_a]];
     _word_idict_trg := idict_ab |}.

Definition job_unk : @job nat unit :=
  {| j_settings := tt; j_seq := [[2%Z]; [1%Z]; [0%Z]];
     j_aux_seq := [[[1%Z]; [2%Z]; [0%Z]]];
     j_idx := 0; j_request_id := 7 |}.


(** Every index of a dictionary is below [n]. *)
Definition below (n : Z) (word_dict : gmap string Z) : Prop :=
  ∀ w i, word_dict !! w = Some i → (i < n)%Z.



(** ** [prepare_data] (nmt.py, lines 45-84)

    A source sentence is a list of words, a word the list of its
    factors; a target sentence is a list of words.  [x] is indexed by
    factor, position and sentence, the other arrays by position and
    sentence; the masks hold the floats 0 and 1. *)

Record batch := {
  b_x : list (list (list Z));
  b_x_mask : list (list R);
  b_y : list (list Z);
  b_y_mask : list (list R)
}.

(** [Nothing]: the four [None]s of line 69; [ValueError]: what numpy
    raises, for the maximum of no length at all or for an assignment
    between arrays whose shapes do not fit. *)
Inductive prepared :=
| Batch (b : batch)
| Nothing
| ValueError.

(** [numpy.zeros((rows, cols))]. *)
Definition zeros {A} (zero : A) (rows cols : nat) : list (list A) :=
  replicate rows (replicate cols zero).

(** [numpy.max(lengths)]. *)
Definition numpy_max (lengths : list nat) : option nat :=
  match lengths with
  | [] => None
  | _ => Some (max_list lengths)
  end.

(** [a[t, idx]]. *)
Definition cell {A} (a : list (list A)) (t idx : nat) : option A :=
  a !! t ≫= (.!! idx).

(** [a[:len(vals), idx] = vals]. *)
Definition assign_col {A} (a : list (list A)) (idx : nat) (vals : list A) : list (list A) :=
  imap (λ t row, match vals !! t with
                 | Some v => <[idx := v]> row
                 | None => row
                 end) a.

(** [zip] over the unpacked [s_x]: one row per factor, as many rows as
    the shortest word has factors. *)
Definition zip_star (s_x : list (list Z)) : list (list Z) :=
  match s_x with
  | [] => []
  | w :: ws => transpose (foldr (λ w' n, length w' `min` n) (length w) ws) s_x
  end.

(** The value that the assignment to [x[:, :lengths_x[idx], idx]] in
    line 79 writes, one row per factor of [x]: the rows of [zip_star s_x] when there are
    [n_factors] of them, a single row for every factor, nothing for a
    sentence without words; other shapes do not fit. *)
Definition broadcast_factors (n_factors : nat) (s_x : list (list Z))
  : option (list (list Z)) :=
  let value := zip_star s_x in
  match s_x with
  | [] => Some (replicate n_factors [])
  | _ =>
      if length value =? 0 then None
      else if length value =? n_factors then Some value
      else if length value =? 1 then Some (replicate n_factors (default [] (head value)))
      else None
  end.

(** Lines 78-82: one round of the loop that fills the arrays. *)
Definition fill (n_factors : nat) (b : batch) (idx : nat)
           (s_x : list (list Z)) (s_y : list Z) : option batch :=
  value ← broadcast_factors n_factors s_x;
  Some {| b_x := zip_with (λ x_f row, assign_col x_f idx row) (b_x b) value;
          b_x_mask := assign_col (b_x_mask b) idx (replicate (length s_x + 1) 1%R);
          b_y := assign_col (b_y b) idx s_y;
          b_y_mask := assign_col (b_y_mask b) idx (replicate (length s_y + 1) 1%R) |}.

Definition fill_all (n_factors : nat) (b : batch)
           (pairs : list (list (list Z) * list Z)) : option batch :=
  foldl (λ (acc : option batch) (ip : nat * (list (list Z) * list Z)),
           b' ← acc; fill n_factors b' ip.1 ip.2.1 ip.2.2)
        (Some b) (enumerate pairs).

(** Lines 71-84. *)
Definition build_batch (n_factors : nat) (seqs_x : list (list (list Z)))
           (seqs_y : list (list Z)) : prepared :=
  let n_samples := length seqs_x in
  match numpy_max (length <$> seqs_x), numpy_max (length <$> seqs_y) with
  | Some max_x, Some max_y =>
      let maxlen_x := max_x + 1 in
      let maxlen_y := max_y + 1 in
      match fill_all n_factors
                     {| b_x := replicate n_factors (zeros 0%Z maxlen_x n_samples);
                        b_x_mask := zeros 0%R maxlen_x n_samples;
                        b_y := zeros 0%Z maxlen_y n_samples;
                        b_y_mask := zeros 0%R maxlen_y n_samples |}
                     (zip seqs_x seqs_y) with
      | Some b => Batch b
      | None => ValueError
      end
  | _, _ => ValueError
  end.

(** Lines 52-66: the pairs in which both sentences are shorter than
    [maxlen]. *)
Definition keep_short (maxlen : Z) (seqs_x : list (list (list Z))) (seqs_y : list (list Z))
  : list (list (list Z) * list Z) :=
  List.filter (λ p, bool_decide (Z.of_nat (length p.1) < maxlen)%Z
                    && bool_decide (Z.of_nat (length p.2) < maxlen)%Z)
              (zip seqs_x seqs_y).

(** [prepare_data(seqs_x, seqs_y, maxlen, n_factors=n_factors)]. *)
Definition prepare_data (seqs_x : list (list (list Z))) (seqs_y : list (list Z))
           (maxlen : option Z) (n_factors : nat) : prepared :=
  match maxlen with
  | Some maxlen =>
      let kept := keep_short maxlen seqs_x seqs_y in
      if length kept <? 1 then Nothing
      else build_batch n_factors kept.*1 kept.*2
  | None => build_batch n_factors seqs_x seqs_y
  end.

(** The pairs that go into the batch. *)
Definition batch_pairs (seqs_x : list (list (list Z))) (seqs_y : list (list Z))
           (maxlen : option Z) : list (list (list Z) * list Z) :=
  match maxlen with
  | Some maxlen => keep_short maxlen seqs_x seqs_y
  | None => zip seqs_x seqs_y
  end.


(** ** [Translator.translate] (translate.py, lines 609-684) *)

Section Translate.
(** [A]: the alignment of one hypothesis for one source; [G]: the
    hypothesis graph; [Settings]: the decoding options that go into the
    queue items. *)
Context `{Countable RID} {Settings A G : Type}.

(** The fields of [translation_settings] that the function reads. *)
Record translation_settings := {
  ts_request_id : RID;
  ts_predicted_trg : bool;
  ts_n_best : bool;
  ts_get_alignment : bool;
  ts_decoding : Settings
}.

(** A [Translation] as this function builds it.  [aux_source_words] is
    the list of the auxiliary sentences, or, when the previous
    translation is to be used, the string "<START>" or the previous
    entry of [translations] itself. *)
Inductive translated :=
| Translated (sentence_id : nat) (source_words : list string) (target_words : list string)
             (score : R) (alignment : option A) (target_probs : list R) (hyp_graph : G)
             (hypothesis_id : option nat) (aux_source_words : current_aux)
             (aux_alignment : list (option A))
with current_aux :=
| AuxStart
| AuxPrevious (previous : translated_entry)
| AuxWords (words : list (list string))
with translated_entry :=
| Single (t : translated)
| EmptyNBest.

Definition t_sentence_id (t : translated) : nat :=
  match t with Translated i _ _ _ _ _ _ _ _ _ => i end.
Definition t_source_words (t : translated) : list string :=
  match t with Translated _ ws _ _ _ _ _ _ _ _ => ws end.
Definition t_target_words (t : translated) : list string :=
  match t with Translated _ _ ws _ _ _ _ _ _ _ => ws end.
Definition t_score (t : translated) : R :=
  match t with Translated _ _ _ sc _ _ _ _ _ _ => sc end.
Definition t_alignment (t : translated) : option A :=
  match t with Translated _ _ _ _ al _ _ _ _ _ => al end.
Definition t_target_probs (t : translated) : list R :=
  match t with Translated _ _ _ _ _ wp _ _ _ _ => wp end.
Definition t_hypothesis_id (t : translated) : option nat :=
  match t with Translated _ _ _ _ _ _ _ h _ _ => h end.
Definition t_aux_source_words (t : translated) : current_aux :=
  match t with Translated _ _ _ _ _ _ _ _ aux _ => aux end.
Definition t_aux_alignment (t : translated) : list (option A) :=
  match t with Translated _ _ _ _ _ _ _ _ _ al => al end.

(** [Raised]: an exception.  [Unmodelled]: the result on the queue was
    made for the other value of [n_best]; what then happens is decided
    by code outside these files. *)
Inductive loop_error :=
| Raised
| Unmodelled.

(** Lines 628-679: one round of the loop over the retrieved results.
    In the branch of the n-best list, line 651 asks for the length of
    the number [self.num_encoders - 1], which raises as soon as there
    is a hypothesis to go through.  [seqs2words] turns the indices of a
    sentence into words with the target dictionary. *)
Definition translate_one (num_encoders : nat) (seqs2words : list Z → list string)
           (ts : translation_settings) (aux_given : bool)
           (multiple_source_sentences : list (list (list string)))
           (translations : list translated_entry) (i : nat) (trans : @output_item A G)
  : translated_entry + loop_error :=
  match (if ts_predicted_trg ts && aux_given then
           if i =? 0 then Some AuxStart else AuxPrevious <$> translations !! (i - 1)
         else AuxWords <$> mapM (λ ss : list (list string), ss !! i)
                                (tail multiple_source_sentences)) with
  | None => inr Raised
  | Some current_aux =>
      if ts_n_best ts then
        match trans with
        | NBest samples scores word_probs alignments hyp_graph =>
            match scores with
            | [] => inl EmptyNBest
            | _ => inr Raised
            end
        | Best _ _ _ _ _ => inr Unmodelled
        end
      else
        match trans with
        | Best samples scores word_probs alignments hyp_graph =>
            match (if ts_get_alignment ts then
                     current_alignment ← alignments !! 0;
                     aux_current_alignments ←
                       mapM (λ e, alignments !! (e + 1)) (seq 0 (num_encoders - 1));
                     Some (Some current_alignment, Some <$> aux_current_alignments)
                   else Some (None, replicate (num_encoders - 1) None)),
                  multiple_source_sentences !! 0 ≫= (.!! i) with
            | Some (current_alignment, aux_current_alignments), Some source_words =>
                inl (Single (Translated i source_words (seqs2words samples) scores
                                        current_alignment word_probs hyp_graph None
                                        current_aux aux_current_alignments))
            | _, _ => inr Raised
            end
        | NBest _ _ _ _ _ => inr Unmodelled
        end
  end.

Definition translate_loop (num_encoders : nat) (seqs2words : list Z → list string)
           (ts : translation_settings) (aux_given : bool)
           (multiple_source_sentences : list (list (list string)))
           (items : list (@output_item A G)) : list translated_entry + loop_error :=
  foldl (λ (acc : list translated_entry + loop_error) (it : nat * @output_item A G),
           match acc with
           | inl translations =>
               match translate_one num_encoders seqs2words ts aux_given
                                   multiple_source_sentences translations it.1 it.2 with
               | inl translation => inl (translations ++ [translation])
               | inr e => inr e
               end
           | inr e => inr e
           end)
        (inl []) (enumerate items).

Inductive translate_result :=
| Translations (translations : list translated_entry)
               (buffer : gmap RID (gmap nat (@output_item A G)))
               (queue : list (@queue_event RID (@output_item A G)))
| TranslateExit (code : Z)
| TranslateRaised
| TranslateUnmodelled
| TranslateBlocked.

(** [translate(source_segments, translation_settings,
    aux_source_segments)]; [buffer] is [self._retrieved_translations]
    and [queue] what the output queue delivers from now on. *)
Definition translate (word_dicts : list (list (gmap string Z)))
           (factors num_processes num_encoders : nat)
           (seqs2words : list Z → list string) (ts : translation_settings)
           (source_segments : list string) (aux_source_segments : list (list string))
           (buffer : gmap RID (gmap nat (@output_item A G)))
           (queue : list (@queue_event RID (@output_item A G))) : translate_result :=
  match _send_jobs_multisource word_dicts factors num_processes (ts_decoding ts)
                               (ts_request_id ts) source_segments aux_source_segments with
  | SentExit code _ _ => TranslateExit code
  | SentRaised _ => TranslateRaised
  | Sent _ n_samples multiple_source_sentences =>
      let aux_given := negb (bool_decide (aux_source_segments = [])) in
      match _retrieve_jobs n_samples (ts_request_id ts) buffer queue with
      | Exited code _ _ => TranslateExit code
      | Blocked _ => TranslateBlocked
      | KeyError items =>
          match translate_loop num_encoders seqs2words ts aux_given
                               multiple_source_sentences items with
          | inr Unmodelled => TranslateUnmodelled
          | _ => TranslateRaised
          end
      | Yielded items buffer' queue' =>
          match translate_loop num_encoders seqs2words ts aux_given
                               multiple_source_sentences items with
          | inl translations => Translations translations buffer' queue'
          | inr Raised => TranslateRaised
          | inr Unmodelled => TranslateUnmodelled
          end
      end
  end.
End Translate.

(** * Properties *)

(** ** The partition primitive: [select_argpartition] meets the contract *)

Lemma argmin_from_spec (l : list R) : ∀ best besti i,
  besti < i →
  (argmin_from best besti i l = besti ∧ Forall (λ x, (best <= x)%R) l) ∨
  (∃ j y, argmin_from best besti i l = i + j ∧ l !! j = Some y ∧ (y < best)%R ∧
          Forall (λ x, (y <= x)%R) l ∧
          ∀ j' x, j' < j → l !! j' = Some x → (y < x)%R).
Proof.
  induction l as [|x l IH]; intros best besti i Hlt; simpl.
  - left. split; [done | constructor].
  - destruct (Rlt_dec x best) as [Hx | Hx].
    + destruct (IH x i (S i) ltac:(lia)) as [[-> Hall] | (j & y & -> & Hj & Hy & Hall & Hfirst)].
      * right. exists 0, x. split; [lia |]. split; [done |]. split; [done |].
        split; [constructor; [lra | done] | intros; lia].
      * right. exists (S j), y. split; [lia |]. split; [done |]. split; [lra |].
        split; [constructor; [lra | done] |].
        intros [|j'] x' Hj' Hx'; simpl in Hx'.
        -- injection Hx' as <-. lra.
        -- apply (Hfirst j'); [lia | done].
    + destruct (IH best besti (S i) ltac:(lia)) as [[-> Hall] | (j & y & -> & Hj & Hy & Hall & Hfirst)].
      * left. split; [done |]. constructor; [lra | done].
      * right. exists (S j), y. split; [lia |]. split; [done |]. split; [done |].
        split; [constructor; [lra | done] |].
        intros [|j'] x' Hj' Hx'; simpl in Hx'.
        -- injection Hx' as <-. lra.
        -- apply (Hfirst j'); [lia | done].
Qed.

Lemma swap_insert_perm (x y : nat) (xs : list nat) (m : nat) :
  xs !! m = Some y → y :: <[m := x]> xs ≡ₚ x :: xs.
Proof.
  revert m. induction xs as [|z xs IH]; intros [|m] Hm; simpl in *; try done.
  - injection Hm as ->. apply perm_swap.
  - rewrite perm_swap. rewrite (IH m Hm). apply perm_swap.
Qed.

Lemma dumb_select_cons (v : nat → R) (n x : nat) (xs : list nat) :
  dumb_select v (S n) (x :: xs) =
  match swap_head (argmin_from (v x) 0 1 (map v xs)) (x :: xs) with
  | y :: ys => y :: dumb_select v n ys
  | [] => []
  end.
Proof. reflexivity. Qed.

Lemma swap_head_perm (m : nat) (l : list nat) : swap_head m l ≡ₚ l.
Proof.
  destruct l as [|x xs], m as [|m]; simpl; try done.
  destruct (xs !! m) as [y|] eqn:Hm; [|done].
  by apply swap_insert_perm.
Qed.

Lemma swap_head_min (v : nat → R) (x : nat) (xs : list nat) :
  ∃ y ys, swap_head (argmin_from (v x) 0 1 (map v xs)) (x :: xs) = y :: ys ∧
          Forall (λ z, (v y <= v z)%R) (y :: ys).
Proof.
  destruct (argmin_from_spec (map v xs) (v x) 0 1 ltac:(lia))
    as [[-> Hall] | (j & vy & -> & Hj & Hy & Hall & _)].
  - exists x, xs. split; [done |]. constructor; [lra |].
    rewrite Forall_map in Hall. done.
  - rewrite list_lookup_fmap in Hj.
    destruct (xs !! j) as [y|] eqn:Hxs; simpl in Hj; [|done].
    injection Hj as <-. exists y, (<[j := x]> xs). split.
    + simpl. by rewrite Hxs.
    + rewrite Forall_map in Hall.
      assert (Hp : y :: <[j := x]> xs ≡ₚ x :: xs) by by apply swap_insert_perm.
      rewrite Hp. constructor; [lra | done].
Qed.

Lemma dumb_select_perm (v : nat → R) (n : nat) : ∀ l, dumb_select v n l ≡ₚ l.
Proof.
  induction n as [|n IH]; intros [|x xs]; try done.
  rewrite dumb_select_cons.
  pose proof (swap_head_perm (argmin_from (v x) 0 1 (map v xs)) (x :: xs)) as Hp.
  destruct (swap_head _ _) as [|y ys].
  - by apply Permutation_nil_cons in Hp.
  - by rewrite IH.
Qed.

(** After [n] rounds each of the first [n] positions holds an element no
    larger than any element after it. *)
Lemma dumb_select_sorted (v : nat → R) (n : nat) : ∀ l i k ri rk,
  i < n → i ≤ k →
  dumb_select v n l !! i = Some ri → dumb_select v n l !! k = Some rk →
  (v ri <= v rk)%R.
Proof.
  induction n as [|n IH]; intros l i k ri rk Hi Hk Hri Hrk; [lia |].
  destruct l as [|x xs]; [done |]. rewrite dumb_select_cons in Hri, Hrk.
  destruct (swap_head_min v x xs) as (y & ys & Heq & Hall).
  rewrite Heq in Hri, Hrk.
  destruct i as [|i].
  - injection Hri as <-.
    assert (Hin : rk ∈ y :: ys).
    { rewrite <- (dumb_select_perm v n ys). by eapply list_elem_of_lookup_2. }
    rewrite Forall_forall in Hall. by apply Hall.
  - destruct k as [|k]; [lia |]. simpl in Hri, Hrk.
    apply (IH ys i k); [lia | lia | done | done].
Qed.

Lemma select_argpartition_contract : argpartition_contract select_argpartition.
Proof.
  split; intros a kth; unfold select_argpartition.
  - by intros ->.
  - intros j ->. exists (dumb_select (at_pos a) (S j) (seq 0 (length a))).
    split; [done |]. split.
    + apply dumb_select_perm.
    + intros i ri rj Hri Hrj. split; intros Hij.
      * by eapply (dumb_select_sorted _ (S j) _ i j); [lia | | |].
      * by eapply (dumb_select_sorted _ (S j) _ j i); [lia | | |].
Qed.

(** ** [gen_sample]: the initial state *)

Section InitBeam.
Context {X St Ctx : Type}.
Implicit Types (models : list (@model X St Ctx)) (x : X).

(** C3, as the code has it: a beam search ([stochastic=False]) starts
    from ONE empty hypothesis with cost 0 and start word -1, nothing
    finished, whatever the beam width [k]; the [k] initial hypotheses
    belong to the sampling mode ([stochastic=True]). *)
Theorem init_beam_single_hypothesis models x k :
  let b := init_beam false k models x in
  live_k b = 1 ∧ hyp_samples b = [[]] ∧ hyp_scores b = [0%R] ∧
  word_probs b = [[]] ∧ next_w b = [(-1)%Z] ∧
  dead_k b = 0 ∧ sample b = [] ∧
  let b' := init_beam true k models x in
  live_k b' = k ∧ hyp_samples b' = replicate k [] ∧
  hyp_scores b' = replicate k 0%R ∧ next_w b' = replicate k (-1)%Z.
Proof. repeat split. Qed.
End InitBeam.

(** C3, as stated, fails: with beam width 2 the beam search does not start
    from 2 empty hypotheses. *)
Lemma init_beam_not_k_hypotheses :
  ¬ (let b := init_beam false 2 [const_model [1%R]] tt in
     hyp_samples b = replicate 2 [] ∧ hyp_scores b = replicate 2 0%R ∧
     next_w b = replicate 2 (-1)%Z).
Proof. simpl. intros [Hs _]. discriminate Hs. Qed.

(** ** [gen_sample]: one iteration *)

Lemma keep_same_length {A B} (flags : list bool) (l : list A) (l' : list B) :
  length l = length l' → length (keep flags l) = length (keep flags l').
Proof.
  revert l l'. induction flags as [|f fs IH]; intros [|x xs] [|y ys] Hl;
    simpl in *; try done.
  destruct f; simpl; auto.
Qed.

Lemma keep_split_length {A} (flags : list bool) (l : list A) :
  length flags = length l →
  length (keep flags l) + length (keep (map negb flags) l) = length l.
Proof.
  revert l. induction flags as [|f fs IH]; intros [|x xs] Hl; simpl in *; try done.
  specialize (IH xs ltac:(lia)). destruct f; simpl; lia.
Qed.

Lemma keep_zip {A B} (flags : list bool) (l : list A) (l' : list B) :
  zip (keep flags l) (keep flags l') = keep flags (zip l l').
Proof.
  revert l l'. induction flags as [|f fs IH]; intros [|x xs] [|y ys]; simpl; try done.
  - by destruct (if f then _ else _).
  - destruct f; simpl; by rewrite IH.
Qed.

Lemma elem_of_keep {A} (flags : list bool) (l : list A) (x : A) :
  x ∈ keep flags l → x ∈ l.
Proof.
  revert l. induction flags as [|f fs IH]; intros [|y ys]; simpl;
    try (intros Hin; by apply elem_of_nil in Hin).
  destruct f.
  - rewrite !elem_of_cons. intros [-> | Hin]; [by left | right; by apply IH].
  - intros Hin. rewrite elem_of_cons. right. by apply IH.
Qed.

Lemma keep_map_Forall {A} (f : A → bool) (l : list A) :
  Forall (λ x, f x = true) (keep (map f l) l).
Proof.
  induction l as [|x l IH]; simpl; [constructor |].
  destruct (f x) eqn:Hf; [constructor |]; done.
Qed.

Section Step.
Context {X St Ctx : Type}.
Variable argpartition : list R → Z → option (list nat).
Implicit Types (models : list (@model X St Ctx)) (ctx : list Ctx) (b : @beam St).

(** What an iteration that raises nothing has computed. *)
Lemma beam_step_inv k models ctx b b' stop :
  beam_step argpartition k models ctx b = Some (b', stop) →
  ∃ p0 ps ranks_flat costs new_hyp_samples new_word_probs
    (new_hyp_states : list (list St)),
    (run_models models ctx b).*1 = p0 :: ps ∧
    let cand_flat := flatten (cand_scores_of (hyp_scores b) p0 ps) in
    let probs_flat := flatten (probs_of (length models) p0 ps) in
    let voc_size := shape1 p0 in
    ranks_of argpartition k (dead_k b) cand_flat = Some ranks_flat ∧
    Forall2 (λ r c, cand_flat !! r = Some c) ranks_flat costs ∧
    Forall2 (λ r s', ∃ s, hyp_samples b !! (r / voc_size) = Some s ∧
                          s' = s ++ [Z.of_nat (r mod voc_size)])
            ranks_flat new_hyp_samples ∧
    Forall2 (λ r wp', ∃ wp p, word_probs b !! (r / voc_size) = Some wp ∧
                              probs_flat !! r = Some p ∧ wp' = wp ++ [p])
            ranks_flat new_word_probs ∧
    length new_hyp_states = length ranks_flat ∧
    let dead := map is_eos new_hyp_samples in
    let live := map negb dead in
    sample b' = sample b ++ keep dead new_hyp_samples ∧
    sample_score b' = sample_score b ++ keep dead costs ∧
    sample_word_probs b' = sample_word_probs b ++ keep dead new_word_probs ∧
    live_k b' = length (keep live new_hyp_samples) ∧
    dead_k b' = dead_k b + length (keep dead new_hyp_samples) ∧
    hyp_samples b' = keep live new_hyp_samples ∧
    hyp_scores b' = keep live costs ∧
    word_probs b' = keep live new_word_probs ∧
    stop = (live_k b' <? 1) || (k <=? dead_k b').
Proof.
  unfold beam_step. intros Hstep.
  destruct ((run_models models ctx b).*1) as [|p0 ps] eqn:Hp; [done |].
  destruct (ranks_of _ _ _ _) as [ranks_flat|] eqn:Hranks; [|done].
  simpl in Hstep.
  destruct (mapM _ ranks_flat) as [costs|] eqn:Hcosts; [|done].
  simpl in Hstep.
  destruct (mapM _ (zip (map (λ r, r / shape1 p0) ranks_flat)
                        (map (λ r, r mod shape1 p0) ranks_flat)))
    as [nhs|] eqn:Hnhs; [|done].
  simpl in Hstep.
  destruct (mapM _ (zip (map (λ r, r / shape1 p0) ranks_flat) ranks_flat))
    as [nwp|] eqn:Hnwp; [|done].
  simpl in Hstep.
  destruct (mapM _ (map (λ r, r / shape1 p0) ranks_flat)) as [nst|] eqn:Hnst; [|done].
  simpl in Hstep. injection Hstep as <- <-.
  exists p0, ps, ranks_flat, costs, nhs, nwp, nst. simpl.
  split; [done |]. split; [done |].
  split; [by apply mapM_Some_1 |].
  split.
  { apply mapM_Some_1 in Hnhs. clear -Hnhs.
    revert nhs Hnhs. induction ranks_flat as [|r rs IH]; intros nhs Hn;
      simpl in Hn; inversion Hn as [|? s' ? nhs' Hs' Hrest]; subst; constructor.
    - simpl in Hs'. destruct (hyp_samples b !! _) as [s|]; [|done].
      simpl in Hs'. injection Hs' as <-. by exists s.
    - by apply IH. }
  split.
  { apply mapM_Some_1 in Hnwp. clear -Hnwp.
    revert nwp Hnwp. induction ranks_flat as [|r rs IH]; intros nwp Hn;
      simpl in Hn; inversion Hn as [|? s' ? nwp' Hs' Hrest]; subst; constructor.
    - simpl in Hs'. destruct (word_probs b !! _) as [wp|]; [|done].
      simpl in Hs'. destruct (_ !! r) as [p|]; [|done].
      simpl in Hs'. injection Hs' as <-. by exists wp, p.
    - by apply IH. }
  split.
  { apply length_mapM in Hnst. by rewrite length_map in Hnst. }
  repeat split.
Qed.
End Step.

(** ** [gen_sample]: the selection of the candidates *)

Section Selection.
Variable argpartition : list R → Z → option (list nat).
Hypothesis contract : argpartition_contract argpartition.

Lemma ranks_of_selected (k dead_k : nat) (cand_flat : list R) (ranks_flat : list nat) :
  ranks_of argpartition k dead_k cand_flat = Some ranks_flat →
  length ranks_flat = k - dead_k ∧
  NoDup ranks_flat ∧
  Forall (λ r, r < length cand_flat) ranks_flat ∧
  lowest_cost cand_flat ranks_flat.
Proof.
  unfold ranks_of. intros Hr.
  destruct (argpartition cand_flat _) as [part|] eqn:Hpart; [|done].
  simpl in Hr. injection Hr as <-.
  destruct (norm_kth (length cand_flat) (Z.of_nat k - Z.of_nat dead_k - 1)) as [j|] eqn:Hj.
  2: { rewrite (argpartition_raises _ contract _ _ Hj) in Hpart. done. }
  destruct (argpartition_returns _ contract _ _ _ Hj) as (r & Hr & Hperm & Hpartd).
  rewrite Hpart in Hr. injection Hr as <-.
  assert (Hlen : length part = length cand_flat).
  { by rewrite Hperm, length_seq. }
  assert (Hj' : j < length cand_flat ∧ (dead_k < k → j = k - dead_k - 1)).
  { unfold norm_kth in Hj.
    set (kz := (Z.of_nat k - Z.of_nat dead_k - 1)%Z) in *.
    destruct (kz <? 0)%Z eqn:E1;
      destruct ((0 <=? _) && (_ <? _))%Z eqn:E2; try done;
      injection Hj as <-; apply andb_true_iff in E2 as [E2 E3];
      apply Z.leb_le in E2; apply Z.ltb_lt in E3;
      [apply Z.ltb_lt in E1 | apply Z.ltb_ge in E1]; lia. }
  destruct Hj' as [Hjn Hjk].
  assert (Hnd : NoDup part) by (rewrite Hperm; apply NoDup_seq).
  split.
  { rewrite length_take. lia. }
  split.
  { rewrite <- (take_drop (k - dead_k) part) in Hnd.
    by apply NoDup_app in Hnd as [? _]. }
  split.
  { apply Forall_forall. intros r Hin.
    apply elem_of_take in Hin as (i & Hi & _).
    apply list_elem_of_lookup_2 in Hi. rewrite Hperm in Hi.
    apply elem_of_seq in Hi. lia. }
  intros r r' Hin Hr' Hnotin.
  apply elem_of_take in Hin as (i & Hi & Hik).
  assert (Hin' : r' ∈ part).
  { rewrite Hperm. apply elem_of_seq. lia. }
  apply list_elem_of_lookup_1 in Hin' as [i' Hi'].
  assert (k - dead_k ≤ i').
  { destruct (decide (i' < k - dead_k)) as [Hlt|]; [|lia].
    exfalso. apply Hnotin. apply elem_of_take. eauto. }
  destruct (lookup_lt_is_Some_2 part j ltac:(lia)) as [rj Hrj].
  destruct (Hpartd i r rj Hi Hrj) as [Hle _].
  destruct (Hpartd i' r' rj Hi' Hrj) as [_ Hge].
  specialize (Hle ltac:(lia)). specialize (Hge ltac:(lia)). lra.
Qed.
End Selection.

Section SelectionStep.
Context {X St Ctx : Type}.
Variable argpartition : list R → Z → option (list nat).
Hypothesis contract : argpartition_contract argpartition.
Implicit Types (models : list (@model X St Ctx)) (ctx : list Ctx) (b : @beam St).

End SelectionStep.

(** *** Concrete runs with [select_argpartition] *)

Lemma if_Rlt_dec_true {A} (a b : R) (x y : A) :
  (a < b)%R → (if Rlt_dec a b then x else y) = x.
Proof. intros. destruct (Rlt_dec a b); [done | lra]. Qed.

Lemma if_Rlt_dec_false {A} (a b : R) (x y : A) :
  ¬ (a < b)%R → (if Rlt_dec a b then x else y) = y.
Proof. intros. destruct (Rlt_dec a b); [lra | done]. Qed.

Lemma ln_half_neg : (ln (1 / 2) < 0)%R.
Proof. rewrite <- ln_1. apply ln_increasing; lra. Qed.

Lemma ln_quarter_half : (ln (1 / 4) < ln (1 / 2))%R.
Proof. apply ln_increasing; lra. Qed.

Lemma ln_quarter_three_quarters : (ln (1 / 4) < ln (3 / 4))%R.
Proof. apply ln_increasing; lra. Qed.

Lemma ln_three_quarters_neg : (ln (3 / 4) < 0)%R.
Proof. rewrite <- ln_1. apply ln_increasing; lra. Qed.

(** Decides the comparisons of the selection loop on costs built from the
    logarithms above. *)
Ltac decide_Rlt :=
  pose proof ln_half_neg; pose proof ln_quarter_half;
  pose proof ln_quarter_three_quarters; pose proof ln_three_quarters_neg;
  cbn;
  repeat (first [ rewrite if_Rlt_dec_true by lra
                | rewrite if_Rlt_dec_false by lra ]; cbn).



(** ** [gen_sample]: the loop *)

Section Loop.
Context {X St Ctx : Type}.
Variable argpartition : list R → Z → option (list nat).
Implicit Types (models : list (@model X St Ctx)) (ctx : list Ctx) (b : @beam St).

Lemma init_beam_consistent models x k : beam_consistent k (init_beam false k models x).
Proof. unfold beam_consistent. simpl. repeat split; try lia. constructor. Qed.

Lemma ranks_of_length_le k dead_k cand_flat ranks_flat :
  ranks_of argpartition k dead_k cand_flat = Some ranks_flat →
  length ranks_flat ≤ k - dead_k.
Proof.
  unfold ranks_of. destruct (argpartition _ _) as [part|]; [|done].
  simpl. intros [= <-]. rewrite length_take. lia.
Qed.

(** One iteration keeps the beam consistent, never holds more than [k]
    hypotheses, and only appends to what is finished. *)
Lemma beam_step_consistent k models ctx b b' stop :
  beam_consistent k b →
  beam_step argpartition k models ctx b = Some (b', stop) →
  beam_consistent k b' ∧
  live_k b' + dead_k b' ≤ k ∧
  (argpartition_contract argpartition → live_k b' + dead_k b' = k) ∧
  (stop = true ↔ live_k b' = 0 ∨ k ≤ dead_k b') ∧
  sample b `prefix_of` sample b' ∧
  sample_score b `prefix_of` sample_score b' ∧
  sample_word_probs b `prefix_of` sample_word_probs b'.
Proof.
  intros (Hdk & Hlive & Hsc & Hwp & Hdead & Hssc & Hswp & Heos) Hstep.
  destruct (beam_step_inv _ _ _ _ _ _ _ Hstep)
    as (p0 & ps & ranks & costs & nhs & nwp & nst & Hp & Hranks & Hcosts & Hnhs & Hnwp &
        Hnst & Hs' & Hss' & Hswp' & Hlive' & Hdead' & Hhs' & Hhsc' & Hwp' & Hstop).
  simpl in *.
  pose proof (ranks_of_length_le _ _ _ _ Hranks) as Hle.
  pose proof (Forall2_length _ _ _ Hcosts) as Hlc.
  pose proof (Forall2_length _ _ _ Hnhs) as Hln.
  pose proof (Forall2_length _ _ _ Hnwp) as Hlw.
  pose proof (keep_split_length (map is_eos nhs) nhs ltac:(by rewrite length_map)) as Hsplit.
  assert (Hsum : live_k b' + dead_k b' = dead_k b + length ranks) by lia.
  split.
  { unfold beam_consistent. rewrite Hs', Hss', Hswp', Hhs', Hhsc', Hwp', Hdead', Hlive'.
    rewrite !length_app.
    rewrite (keep_same_length (map is_eos nhs) costs nhs) by lia.
    rewrite (keep_same_length (map is_eos nhs) nwp nhs) by lia.
    rewrite (keep_same_length (map negb (map is_eos nhs)) costs nhs) by lia.
    rewrite (keep_same_length (map negb (map is_eos nhs)) nwp nhs) by lia.
    repeat split; try lia.
    apply Forall_app. split; [done |].
    eapply Forall_impl; [apply (keep_map_Forall is_eos) |].
    intros s Hs. unfold is_eos in Hs. by apply bool_decide_eq_true in Hs. }
  split; [lia |].
  split.
  { intros Hc. destruct (ranks_of_selected _ Hc _ _ _ _ Hranks) as [Hlen _]. lia. }
  split.
  { rewrite Hstop. rewrite orb_true_iff, Nat.ltb_lt, Nat.leb_le. lia. }
  rewrite Hs', Hss', Hswp'. repeat split; by apply prefix_app_r.
Qed.

(** A longer loop continues a shorter one. *)
Lemma beam_loop_add k models ctx n m b :
  beam_loop argpartition k models ctx (n + m) b =
  match beam_loop argpartition k models ctx n b with
  | Some (b', false) => beam_loop argpartition k models ctx m b'
  | r => r
  end.
Proof.
  revert b. induction n as [|n IH]; intros b; simpl.
  - by destruct (beam_loop _ _ _ _ m b) as [[? []]|].
  - destruct (beam_step _ _ _ _ b) as [[b' []]|]; [done | apply IH | done].
Qed.

Lemma beam_loop_consistent k models ctx n b b' brk :
  beam_consistent k b →
  beam_loop argpartition k models ctx n b = Some (b', brk) →
  beam_consistent k b' ∧
  (1 ≤ n → live_k b' + dead_k b' ≤ k) ∧
  (1 ≤ n → argpartition_contract argpartition → live_k b' + dead_k b' = k) ∧
  (brk = true → live_k b' = 0 ∨ k ≤ dead_k b') ∧
  (1 ≤ n → brk = false → 1 ≤ live_k b' ∧ dead_k b' < k) ∧
  sample b `prefix_of` sample b' ∧
  sample_score b `prefix_of` sample_score b' ∧
  sample_word_probs b `prefix_of` sample_word_probs b'.
Proof.
  revert b. induction n as [|n IH]; intros b Hcons Hloop; simpl in Hloop.
  - injection Hloop as <- <-.
    split; [done |]. split; [lia |]. split; [lia |]. split; [done |].
    split; [lia | done].
  - destruct (beam_step _ _ _ _ b) as [[b1 stop]|] eqn:Hstep; [|done].
    destruct (beam_step_consistent _ _ _ _ _ _ Hcons Hstep)
      as (Hcons1 & Hle & Heq & Hstop & Hp1 & Hp2 & Hp3).
    destruct stop.
    + injection Hloop as <- <-.
      split; [done |]. split; [done |]. split; [done |].
      split; [intros _; by apply Hstop |]. split; done.
    + assert (Hgo : 1 ≤ live_k b1 ∧ dead_k b1 < k).
      { destruct (decide (live_k b1 = 0 ∨ k ≤ dead_k b1)) as [Hd|Hd]; [|lia].
        by apply Hstop in Hd. }
      destruct n as [|n'].
      * simpl in Hloop. injection Hloop as <- <-.
        split; [done |]. split; [done |]. split; [done |]. split; [done |].
        split; done.
      * destruct (IH b1 Hcons1 Hloop) as (Hc' & Hle' & Heq' & Hb' & Hgo' & Hq1 & Hq2 & Hq3).
        split; [done |]. split; [intros _; apply Hle'; lia |].
        split; [intros _; apply Heq'; lia |]. split; [done |].
        split; [intros _; apply Hgo'; lia |].
        repeat split; etrans; done.
Qed.



Lemma mapM_lookup_all {A} (l : list A) :
  mapM (λ idx, l !! idx) (seq 0 (length l)) = Some l.
Proof.
  apply mapM_Some_2, Forall2_same_length_lookup. split; [by rewrite length_seq |].
  intros i idx y Hidx Hy. apply lookup_seq in Hidx as [-> _]. done.
Qed.

(** The final dump of a consistent beam appends the live hypotheses as
    they are. *)
Lemma dump_remaining_consistent k b :
  beam_consistent k b →
  dump_remaining b =
  Some (sample b ++ hyp_samples b, sample_score b ++ hyp_scores b,
        sample_word_probs b ++ word_probs b).
Proof.
  intros (_ & Hlive & Hsc & Hwp & _). unfold dump_remaining.
  destruct (Nat.ltb_spec 0 (live_k b)) as [Hpos | Hzero].
  - rewrite Hlive, (mapM_lookup_all (hyp_samples b)). simpl.
    rewrite <- Hsc, (mapM_lookup_all (hyp_scores b)). simpl.
    rewrite Hsc, <- Hwp, (mapM_lookup_all (word_probs b)). done.
  - assert (Hn : length (hyp_samples b) = 0) by lia.
    rewrite Hn in Hsc, Hwp.
    apply nil_length_inv in Hn, Hsc, Hwp. rewrite Hn, Hsc, Hwp.
    by rewrite !app_nil_r.
Qed.
End Loop.

(** *** Concrete runs of the loop *)

Ltac eval_closed :=
  repeat match goal with
    | |- context [norm_kth ?n ?z] =>
        let v := eval vm_compute in (norm_kth n z) in
        progress change (norm_kth n z) with v
    | |- context [is_eos ?s] =>
        let v := eval vm_compute in (is_eos s) in
        progress change (is_eos s) with v
    | |- context [Z.of_nat ?n] =>
        let v := eval vm_compute in (Z.of_nat n) in
        progress change (Z.of_nat n) with v
    end.

(** Runs one iteration of the loop on a concrete beam. *)
Ltac run_step :=
  unfold beam_step, ranks_of, select_argpartition; cbn -[norm_kth is_eos];
  eval_closed; cbn -[norm_kth is_eos]; decide_Rlt; eval_closed; cbn.

Lemma beam_loop_go_1 :
  beam_loop select_argpartition 2 [model_go] (init_ctx [model_go] tt) 1
            (init_beam false 2 [model_go] tt) = Some (beam_go_1, false).
Proof. cbn [beam_loop]. run_step. reflexivity. Qed.

Lemma beam_loop_go_2 :
  beam_loop select_argpartition 2 [model_go] (init_ctx [model_go] tt) 2
            (init_beam false 2 [model_go] tt) = Some (beam_go_2, false).
Proof. cbn [beam_loop]. run_step. run_step. reflexivity. Qed.


(** ** [gen_sample]: the invariants of the search *)

Section Search.
Context {X St Ctx : Type}.
Variable argpartition : list R → Z → option (list nat).
Implicit Types (models : list (@model X St Ctx)) (x : X) (b : @beam St).

(** C5: after [n >= 1] iterations the live hypotheses and the finished
    ones are at most [k] together, every finished hypothesis ends with
    the end-of-sentence word 0, and whatever is finished then is still
    there, unchanged and in place, after any further iterations and in
    what [gen_sample] returns. *)
Theorem beam_bounded_and_finished_kept models x k n m b brk b' brk' :
  1 ≤ n →
  beam_loop argpartition k models (init_ctx models x) n
            (init_beam false k models x) = Some (b, brk) →
  beam_loop argpartition k models (init_ctx models x) (n + m)
            (init_beam false k models x) = Some (b', brk') →
  length (hyp_samples b) + dead_k b ≤ k ∧
  live_k b = length (hyp_samples b) ∧
  dead_k b = length (sample b) ∧
  Forall (λ s, last s = Some 0%Z) (sample b) ∧
  sample b `prefix_of` sample b' ∧
  sample_score b `prefix_of` sample_score b' ∧
  sample_word_probs b `prefix_of` sample_word_probs b' ∧
  ∀ out, dump_remaining b' = Some out →
         sample b `prefix_of` out.1.1 ∧
         sample_score b `prefix_of` out.1.2 ∧
         sample_word_probs b `prefix_of` out.2.
Proof.
  intros Hn Hloop Hloop'.
  destruct (beam_loop_consistent _ _ _ _ _ _ _ _ (init_beam_consistent models x k) Hloop)
    as (Hcons & Hle & _ & _ & _ & _).
  assert (Hpre : beam_consistent k b' ∧
                 sample b `prefix_of` sample b' ∧
                 sample_score b `prefix_of` sample_score b' ∧
                 sample_word_probs b `prefix_of` sample_word_probs b').
  { rewrite beam_loop_add, Hloop in Hloop'. destruct brk.
    - injection Hloop' as <- <-. done.
    - destruct (beam_loop_consistent _ _ _ _ _ _ _ _ Hcons Hloop')
        as (Hc' & _ & _ & _ & _ & Hp). done. }
  destruct Hpre as (Hcons' & Hp1 & Hp2 & Hp3).
  destruct Hcons as (_ & Hlive & _ & _ & Hdead & _ & _ & Heos).
  specialize (Hle Hn).
  split; [lia |]. split; [done |]. split; [done |]. split; [done |].
  split; [done |]. split; [done |]. split; [done |].
  intros out Hout. rewrite (dump_remaining_consistent k b' Hcons') in Hout.
  injection Hout as <-. simpl.
  repeat split; (etrans; [eassumption | by apply prefix_app_r]).
Qed.

Hypothesis contract : argpartition_contract argpartition.

End Search.

Lemma beam_bounded_and_finished_kept_witness :
  length (hyp_samples beam_go_1) + dead_k beam_go_1 ≤ 2 ∧
  live_k beam_go_1 = length (hyp_samples beam_go_1) ∧
  dead_k beam_go_1 = length (sample beam_go_1) ∧
  Forall (λ s, last s = Some 0%Z) (sample beam_go_1) ∧
  sample beam_go_1 `prefix_of` sample beam_go_2 ∧
  sample_score beam_go_1 `prefix_of` sample_score beam_go_2 ∧
  sample_word_probs beam_go_1 `prefix_of` sample_word_probs beam_go_2 ∧
  ∀ out, dump_remaining beam_go_2 = Some out →
         sample beam_go_1 `prefix_of` out.1.1 ∧
         sample_score beam_go_1 `prefix_of` out.1.2 ∧
         sample_word_probs beam_go_1 `prefix_of` out.2.
Proof.
  apply (beam_bounded_and_finished_kept select_argpartition [model_go] tt 2 1 1
           beam_go_1 false beam_go_2 false).
  - lia.
  - apply beam_loop_go_1.
  - apply beam_loop_go_2.
Defined.

Lemma gen_sample_go_2 :
  gen_sample select_argpartition [model_go] tt 2 2 =
  Some ([[0%Z]; [1%Z; 1%Z]],
        [(0 - ln (1 / 4))%R; (0 - ln (3 / 4) - ln (3 / 4))%R],
        [[(1 / 4 / 1)%R]; [(3 / 4 / 1)%R; (3 / 4 / 1)%R]]).
Proof. unfold gen_sample. rewrite beam_loop_go_2. reflexivity. Qed.






(** ** [gen_sample]: how the ensemble is combined *)

Lemma mat_at_add (a b : mat) (h w : nat) (x y : R) :
  mat_at a h w = Some x → mat_at b h w = Some y →
  mat_at (mat_add a b) h w = Some (x + y)%R.
Proof.
  unfold mat_at, mat_add. intros Ha Hb. rewrite lookup_zip_with.
  destruct (a !! h) as [ra|]; [|done]. destruct (b !! h) as [rb|]; [|done].
  simpl in *. rewrite lookup_zip_with, Ha, Hb. done.
Qed.

Lemma mat_at_log (m : mat) (h w : nat) (x : R) :
  mat_at m h w = Some x → mat_at (mat_log m) h w = Some (ln x).
Proof.
  unfold mat_at, mat_log. intros Hm. rewrite list_lookup_fmap.
  destruct (m !! h) as [row|]; [|done]. simpl in *.
  by rewrite list_lookup_fmap, Hm.
Qed.


Lemma mat_at_col_minus (v : list R) (m : mat) (h w : nat) :
  mat_at (col_minus v m) h w =
  s ← v !! h; x ← mat_at m h w; Some (s - x)%R.
Proof.
  unfold mat_at, col_minus. rewrite lookup_zip_with.
  destruct (v !! h) as [s|]; [|done]. simpl.
  destruct (m !! h) as [row|]; [|done]. simpl.
  rewrite list_lookup_fmap. by destruct (row !! w).
Qed.

Lemma mat_at_sum (h w : nat) (ps : list mat) : ∀ (qs : list R) (m0 : mat) (q0 : R),
  mat_at m0 h w = Some q0 →
  Forall2 (λ m q, mat_at m h w = Some q) ps qs →
  mat_at (mat_sum m0 ps) h w = Some (foldl Rplus q0 qs).
Proof.
  induction ps as [|p ps IH]; intros qs m0 q0 H0 Hall;
    inversion Hall as [|? q ? qs' Hq Hrest]; subst; simpl; [done |].
  apply IH; [|done]. by apply mat_at_add.
Qed.





(** ** [gen_sample]: costs along a lineage *)

Lemma shaped_log (rows voc_size : nat) (m : mat) :
  shaped rows voc_size m → shaped rows voc_size (mat_log m).
Proof.
  intros [Hlen Hall]. split; unfold mat_log.
  - by rewrite length_map.
  - apply Forall_map. eapply Forall_impl; [exact Hall |].
    intros row Hrow. simpl. by rewrite length_map.
Qed.

Lemma shaped_add (rows voc_size : nat) (a b : mat) :
  shaped rows voc_size a → shaped rows voc_size b →
  shaped rows voc_size (mat_add a b).
Proof.
  intros [Hla Ha] [Hlb Hb]. split; unfold mat_add.
  - rewrite length_zip_with. lia.
  - apply Forall_forall. intros row Hin.
    apply list_elem_of_lookup_1 in Hin as [i Hi].
    apply lookup_zip_with_Some in Hi as (ra & rb & -> & Hra & Hrb).
    rewrite Forall_forall in Ha, Hb.
    rewrite length_zip_with.
    rewrite (Ha ra), (Hb rb); [lia | |]; by eapply list_elem_of_lookup_2.
Qed.

Lemma shaped_sum (rows voc_size : nat) (ps : list mat) : ∀ m0,
  shaped rows voc_size m0 → Forall (shaped rows voc_size) ps →
  shaped rows voc_size (mat_sum m0 ps).
Proof.
  induction ps as [|p ps IH]; intros m0 H0 Hall; simpl; [done |].
  inversion Hall; subst. apply IH; [|done]. by apply shaped_add.
Qed.

Lemma shaped_col_minus (voc_size : nat) (v : list R) (m : mat) :
  shaped (length v) voc_size m → shaped (length v) voc_size (col_minus v m).
Proof.
  intros [Hlen Hall]. split; unfold col_minus.
  - rewrite length_zip_with. lia.
  - apply Forall_forall. intros row Hin.
    apply list_elem_of_lookup_1 in Hin as [i Hi].
    apply lookup_zip_with_Some in Hi as (s & r & -> & _ & Hr).
    rewrite length_map. rewrite Forall_forall in Hall. apply Hall.
    by eapply list_elem_of_lookup_2.
Qed.

(** Position [r] of the flattened array is row [r / voc_size], column
    [r mod voc_size]. *)
Lemma flatten_lookup (voc_size : nat) (m : mat) : ∀ r,
  0 < voc_size →
  Forall (λ row, length row = voc_size) m →
  flatten m !! r = mat_at m (r / voc_size) (r mod voc_size).
Proof.
  unfold flatten, mat_at.
  induction m as [|row m IH]; intros r Hpos Hall; simpl; [done |].
  inversion Hall as [|? ? Hrow Hrest]; subst.
  destruct (decide (r < length row)) as [Hlt | Hge].
  - rewrite lookup_app_l by done.
    rewrite Nat.div_small, Nat.mod_small by done. done.
  - assert (Hr : ∃ r', r = length row + r') by (exists (r - length row); lia).
    destruct Hr as [r' ->].
    rewrite lookup_app_r by lia.
    replace (length row + r' - length row) with r' by lia.
    rewrite (IH r' Hpos Hrest).
    replace ((length row + r') mod length row) with (r' mod length row)
      by (rewrite Nat.add_comm; rewrite <- (Nat.Div0.mod_add r' 1); f_equal; lia).
    replace ((length row + r') / length row) with (S (r' / length row)); [done |].
    replace (length row + r') with (1 * length row + r') by lia.
    rewrite Nat.div_add_l by lia. done.
Qed.

Lemma sum_logs_nonpos (qs : list R) : ∀ acc,
  (acc <= 0)%R → Forall (λ q, (0 < q <= 1)%R) qs →
  (foldl Rplus acc (map ln qs) <= 0)%R.
Proof.
  induction qs as [|q qs IH]; intros acc Hacc Hall; simpl; [done |].
  inversion Hall as [|? ? [Hq0 Hq1] Hrest]; subst.
  apply IH; [|done].
  assert (ln q <= 0)%R.
  { rewrite <- ln_1. destruct Hq1 as [Hlt | ->]; [|lra].
    left. by apply ln_increasing. }
  lra.
Qed.

Lemma probabilities_at (rows voc_size : nat) (p : mat) (h w : nat) :
  probabilities rows voc_size p → h < rows → w < voc_size →
  ∃ q, mat_at p h w = Some q ∧ (0 < q <= 1)%R.
Proof.
  intros [[Hlen Hshape] Hval] Hh Hw. unfold mat_at.
  destruct (lookup_lt_is_Some_2 p h ltac:(lia)) as [row Hrow].
  rewrite Forall_forall in Hshape, Hval.
  assert (Hin : row ∈ p) by by eapply list_elem_of_lookup_2.
  destruct (lookup_lt_is_Some_2 row w) as [q Hq]; [rewrite (Hshape row Hin); lia |].
  exists q. rewrite Hrow. simpl. split; [done |].
  specialize (Hval row Hin). rewrite Forall_forall in Hval. apply Hval.
  by eapply list_elem_of_lookup_2.
Qed.

Section Lineage.
Context {X St Ctx : Type}.
Variable argpartition : list R → Z → option (list nat).
Implicit Types (models : list (@model X St Ctx)) (ctx : list Ctx) (b : @beam St).

(** C6, as the code has it: when every model returns one distribution per
    live hypothesis with values in (0, 1], every hypothesis that an
    iteration produces, finished or live, is a hypothesis of the beam
    extended by one word, and its cost is the cost of that parent minus
    the sum over the models of the logs of their probabilities for the
    word, which is at least the cost of the parent. *)
Theorem child_cost_not_below_parent k models ctx b b' stop (voc_size : nat) :
  0 < voc_size →
  Forall (probabilities (length (hyp_scores b)) voc_size) (run_models models ctx b).*1 →
  beam_step argpartition k models ctx b = Some (b', stop) →
  ∀ s' c',
    (s', c') ∈ zip (drop (length (sample b)) (sample b'))
                   (drop (length (sample_score b)) (sample_score b'))
               ++ zip (hyp_samples b') (hyp_scores b') →
    ∃ ti wi s c p0 ps q0 qs,
      (run_models models ctx b).*1 = p0 :: ps ∧
      hyp_samples b !! ti = Some s ∧
      hyp_scores b !! ti = Some c ∧
      s' = s ++ [Z.of_nat wi] ∧
      mat_at p0 ti wi = Some q0 ∧
      Forall2 (λ m q, mat_at m ti wi = Some q) ps qs ∧
      c' = (c - foldl Rplus (ln q0) (map ln qs))%R ∧
      (c <= c')%R.
Proof.
  intros Hpos Hprob Hstep s' c' Hin.
  destruct (beam_step_inv _ _ _ _ _ _ _ Hstep)
    as (p0 & ps & ranks & costs & nhs & nwp & nst & Hp & Hranks & Hcosts & Hnhs & _ & _ &
        Hs' & Hss' & _ & _ & _ & Hhs' & Hhsc' & _).
  simpl in *.
  rewrite Hs', Hss', Hhs', Hhsc', !drop_app_length, !keep_zip in Hin.
  assert (Hin' : (s', c') ∈ zip nhs costs).
  { apply elem_of_app in Hin as [Hin | Hin]; by eapply elem_of_keep. }
  clear Hin. apply list_elem_of_lookup_1 in Hin' as [i Hi].
  apply lookup_zip_with_Some in Hi as (s0 & c0 & [= <- <-] & Hsi & Hci).
  destruct (Forall2_lookup_r _ _ _ _ _ Hnhs Hsi) as (r & Hr & s & Hs & ->).
  destruct (Forall2_lookup_r _ _ _ _ _ Hcosts Hci) as (r' & Hr' & Hc).
  rewrite Hr in Hr'. injection Hr' as <-.
  rewrite Hp in Hprob. inversion Hprob as [|? ? Hp0 Hps]; subst.
  assert (Hshape : shaped (length (hyp_scores b)) voc_size
                          (cand_scores_of (hyp_scores b) p0 ps)).
  { unfold cand_scores_of. apply shaped_col_minus, shaped_sum.
    - apply shaped_log, Hp0.
    - apply Forall_map. eapply Forall_impl; [exact Hps |].
      intros m [Hm _]. by apply shaped_log. }
  rewrite (flatten_lookup voc_size) in Hc by (done || apply Hshape).
  assert (Hvoc : shape1 p0 = voc_size).
  { destruct Hp0 as [[Hlen Hrows] _]. destruct p0 as [|row p0]; simpl.
    - unfold cand_scores_of, col_minus in Hc.
      destruct (hyp_scores b); [|done]. by rewrite zip_with_nil_l in Hc.
    - by inversion Hrows. }
  rewrite Hvoc in Hs.
  unfold cand_scores_of in Hc. rewrite mat_at_col_minus in Hc.
  destruct (hyp_scores b !! (r / voc_size)) as [c|] eqn:Hparent; [|done].
  simpl in Hc.
  assert (Hh : r / voc_size < length (hyp_scores b)) by by eapply lookup_lt_Some.
  assert (Hw : r mod voc_size < voc_size) by (apply Nat.mod_upper_bound; lia).
  destruct (probabilities_at _ _ _ _ _ Hp0 Hh Hw) as (q0 & Hq0 & Hq0v).
  assert (Hqs : ∃ qs, Forall2 (λ m q, mat_at m (r / voc_size) (r mod voc_size) = Some q) ps qs
                      ∧ Forall (λ q, (0 < q <= 1)%R) qs).
  { clear -Hps Hh Hw. induction Hps as [|m ps Hm Hrest IH].
    - exists []. split; constructor.
    - destruct IH as (qs & Hall & Hval).
      destruct (probabilities_at _ _ _ _ _ Hm Hh Hw) as (q & Hq & Hqv).
      exists (q :: qs). split; by constructor. }
  destruct Hqs as (qs & Hall & Hval).
  rewrite (mat_at_sum _ _ _ (map ln qs) _ (ln q0)) in Hc.
  2: { by apply mat_at_log. }
  2: { clear -Hall. induction Hall; simpl; constructor; [by apply mat_at_log | done]. }
  simpl in Hc. injection Hc as <-.
  exists (r / voc_size), (r mod voc_size), s, c, p0, ps, q0, qs.
  rewrite Hvoc. repeat split; try done.
  assert (foldl Rplus (ln q0) (map ln qs) <= 0)%R; [|lra].
  apply sum_logs_nonpos; [|done].
  rewrite <- ln_1. destruct Hq0v as [? [Hlt | ->]]; [|lra].
  left. by apply ln_increasing.
Qed.
End Lineage.

Lemma beam_step_go_1 :
  beam_step select_argpartition 2 [model_go] [tt] (init_beam false 2 [model_go] tt)
  = Some (beam_go_1, false).
Proof. run_step. reflexivity. Qed.

Lemma child_cost_not_below_parent_witness :
  ∃ ti wi s c p0 ps q0 qs,
    (run_models [model_go] [tt] (init_beam false 2 [model_go] tt)).*1 = p0 :: ps ∧
    hyp_samples (init_beam false 2 [model_go] tt) !! ti = Some s ∧
    hyp_scores (init_beam false 2 [model_go] tt) !! ti = Some c ∧
    [1%Z] = s ++ [Z.of_nat wi] ∧
    mat_at p0 ti wi = Some q0 ∧
    Forall2 (λ m q, mat_at m ti wi = Some q) ps qs ∧
    (0 - ln (3 / 4))%R = (c - foldl Rplus (ln q0) (map ln qs))%R ∧
    (c <= 0 - ln (3 / 4))%R.
Proof.
  apply (child_cost_not_below_parent select_argpartition 2 [model_go] [tt]
           (init_beam false 2 [model_go] tt) beam_go_1 false 2).
  - lia.
  - repeat constructor; lra.
  - apply beam_step_go_1.
  - simpl. rewrite !elem_of_cons. right. by left.
Defined.

Lemma beam_step_half_1 :
  beam_step select_argpartition 1 [model_half; model_half] [tt; tt]
            (init_beam false 1 [model_half; model_half] tt)
  = Some (beam_half_1, true).
Proof. run_step. reflexivity. Qed.

(** C6, as stated, fails for an ensemble: with two models that both give
    the chosen word probability 1/2, the combined probability recorded
    for the word is their mean, 1/2, but the child costs
    [0 - (ln (1/2) + ln (1/2))], not the cost 0 of its parent minus the
    log of that combined probability. *)
Lemma child_cost_not_minus_log_of_mean :
  let b := init_beam false 1 [model_half; model_half] tt in
  beam_step select_argpartition 1 [model_half; model_half] [tt; tt] b
    = Some (beam_half_1, true) ∧
  hyp_samples b = [[]] ∧ hyp_scores b = [0%R] ∧
  sample beam_half_1 = [[] ++ [0%Z]] ∧
  sample_word_probs beam_half_1 = [[] ++ [((1 / 2 + 1 / 2) / (1 + 1))%R]] ∧
  ∃ c', sample_score beam_half_1 = [c'] ∧
        c' ≠ (0 - ln ((1 / 2 + 1 / 2) / (1 + 1)))%R.
Proof.
  cbn zeta. split; [apply beam_step_half_1 |].
  repeat (split; [reflexivity |]).
  eexists. split; [reflexivity |].
  replace ((1 / 2 + 1 / 2) / (1 + 1))%R with (1 / 2)%R by lra.
  pose proof ln_half_neg. lra.
Qed.

(** ** [Translation.get_alignment_json] *)

Lemma mapM_enumerate {A B} (f : nat * A → option B) (g : nat → A → B) (l : list A) :
  (∀ i x, l !! i = Some x → f (i, x) = Some (g i x)) →
  mapM f (enumerate l) = Some (imap g l).
Proof.
  intros Hf. apply mapM_Some_2, Forall2_same_length_lookup. unfold enumerate.
  split; [by rewrite !length_imap |].
  intros i [j x] y Hix Hy. rewrite list_lookup_imap in Hix.
  rewrite list_lookup_imap in Hy.
  destruct (l !! i) as [x'|] eqn:Hl; [|done]. simpl in *.
  injection Hix as <- <-. injection Hy as <-. by apply Hf.
Qed.

Section AlignmentJson.
Context {W : Type} (str : W → string).
Implicit Types (t : @Translation W).

(** C9, as the code has it: for a translation with a hypothesis id [h],
    and an alignment that has no more rows than target tokens and no more
    columns than source tokens (both counted with the appended ["</s>"]),
    [get_alignment_json] returns, target position by target position and
    source position by source position, the tuples (target token, source
    token, weight as a string, sentence id, sentence id + [h]). *)
Theorem get_alignment_json_links t (aux : option nat) (h : Z)
        (ws : list string) (al : list (list W)) :
  hypothesis_id t = Some h →
  (aux = None ∧ ws = source_words t ∧ al = alignment t) ∨
  (∃ a, aux = Some a ∧ aux_source_words t !! a = Some ws ∧
        aux_alignment t !! a = Some al) →
  length al ≤ length (target_words t) + 1 →
  Forall (λ row, length row ≤ length ws + 1) al →
  get_alignment_json str t aux =
  Some (concat (imap (λ target_index row,
                        imap (λ source_index w,
                                (nth target_index (target_words t ++ ["</s>"]) "",
                                 nth source_index (ws ++ ["</s>"]) "",
                                 str w, sentence_id t, (sentence_id t + h)%Z))
                             row)
                     al)).
Proof.
  intros Hh Hsrc Hrows Hcols. unfold get_alignment_json.
  assert (Hsel : match aux with
                 | None => Some (source_words t ++ ["</s>"], alignment t)
                 | Some a =>
                     ws ← aux_source_words t !! a;
                     al ← aux_alignment t !! a;
                     Some (ws ++ ["</s>"], al)
                 end = Some (ws ++ ["</s>"], al)).
  { destruct Hsrc as [(-> & -> & ->) | (a & -> & Hws & Hal)]; [done |].
    by rewrite Hws, Hal. }
  rewrite Hsel, Hh. simpl.
  rewrite (mapM_enumerate _
            (λ target_index row,
               imap (λ source_index w,
                       (nth target_index (target_words t ++ ["</s>"]) "",
                        nth source_index (ws ++ ["</s>"]) "",
                        str w, sentence_id t, (sentence_id t + h)%Z)) row)); [done |].
  intros ti row Hrow. simpl. apply mapM_enumerate.
  intros si w Hw. simpl.
  assert (Hti : ti < length (target_words t ++ ["</s>"])).
  { apply lookup_lt_Some in Hrow. rewrite length_app. simpl. lia. }
  assert (Hsi : si < length (ws ++ ["</s>"])).
  { apply lookup_lt_Some in Hw. rewrite Forall_forall in Hcols.
    specialize (Hcols row ltac:(by eapply list_elem_of_lookup_2)).
    rewrite length_app. simpl. lia. }
  destruct (lookup_lt_is_Some_2 _ _ Hti) as [tt Htt].
  destruct (lookup_lt_is_Some_2 _ _ Hsi) as [st Hst].
  rewrite Htt, Hst. simpl.
  by rewrite (nth_lookup_Some _ _ "" _ Htt), (nth_lookup_Some _ _ "" _ Hst).
Qed.
End AlignmentJson.

Lemma get_alignment_json_links_witness :
  get_alignment_json weight_str translation_nbest None =
  Some (concat (imap (λ target_index row,
                        imap (λ source_index w,
                                (nth target_index (target_words translation_nbest ++ ["</s>"]) "",
                                 nth source_index (["chat"] ++ ["</s>"]) "",
                                 weight_str w, sentence_id translation_nbest,
                                 (sentence_id translation_nbest + 0)%Z))
                             row)
                     [[Strong; Weak]; [Weak; Strong]])).
Proof.
  apply (get_alignment_json_links weight_str translation_nbest None 0 ["chat"]
           [[Strong; Weak]; [Weak; Strong]]).
  - reflexivity.
  - left. repeat split.
  - simpl. lia.
  - repeat constructor.
Defined.

(** C9, as stated, fails: for the hypothesis with id 0 of the segment with
    sentence id 1, the fifth element of every tuple is 1 (the sum of the
    two ids), not the hypothesis id 0. *)
Lemma get_alignment_json_fifth_not_hypothesis_id :
  hypothesis_id translation_nbest = Some 0%Z ∧
  get_alignment_json weight_str translation_nbest None =
    Some [("cat", "chat", "0.9", 1%Z, 1%Z); ("cat", "</s>", "0.1", 1%Z, 1%Z);
          ("</s>", "chat", "0.1", 1%Z, 1%Z); ("</s>", "</s>", "0.9", 1%Z, 1%Z)] ∧
  ¬ (∀ links l, get_alignment_json weight_str translation_nbest None = Some links →
                l ∈ links → l.2 = 0%Z).
Proof.
  split; [reflexivity |]. split; [reflexivity |].
  intros Hclaim.
  specialize (Hclaim _ ("cat", "chat", "0.9", 1%Z, 1%Z) eq_refl ltac:(by left)).
  discriminate Hclaim.
Qed.

(** ** [Translator._translate] *)

Lemma argmin_spec (l : list R) :
  l ≠ [] →
  ∃ m y, argmin l = Some m ∧ l !! m = Some y ∧
         (∀ j x, l !! j = Some x → (y <= x)%R) ∧
         (∀ j x, j < m → l !! j = Some x → (y < x)%R).
Proof.
  destruct l as [|x l]; [done |]. intros _. simpl.
  destruct (argmin_from_spec l x 0 1 ltac:(lia))
    as [[-> Hall] | (j & y & -> & Hj & Hy & Hall & Hfirst)].
  - exists 0, x. split; [done |]. split; [done |]. split; [|intros; lia].
    intros [|j] x' Hx'; simpl in Hx'.
    + injection Hx' as <-. lra.
    + rewrite Forall_forall in Hall. apply Hall. by eapply list_elem_of_lookup_2.
  - exists (1 + j), y. split; [done |]. split; [done |]. split.
    + intros [|j'] x' Hx'; simpl in Hx'.
      * injection Hx' as <-. lra.
      * rewrite Forall_forall in Hall. apply Hall. by eapply list_elem_of_lookup_2.
    + intros [|j'] x' Hlt Hx'; simpl in Hx'.
      * injection Hx' as <-. lra.
      * apply (Hfirst j'); [lia | done].
Qed.

Lemma normalize_length (normalization_alpha : R) (sample : list (list Z)) (score : list R) :
  length sample = length score →
  length (normalize normalization_alpha sample score) = length score.
Proof.
  intros Hlen. unfold normalize. destruct (Req_dec_T _ _); [done |].
  rewrite length_zip_with, length_map. lia.
Qed.

Section SingleBest.
Context {A G : Type}.
Implicit Types (r : @sampled A G).

(** C10: when [nbest] is off and [gen_sample] has returned at least one
    hypothesis (with a score, word probabilities and one alignment per
    source for each), [_translate] returns the hypothesis at the first
    position [sidx] whose score is smallest after the normalization,
    with that normalized score, the word probabilities at [sidx] and the
    alignment at [sidx] of every source; the normalization leaves the
    scores alone when [normalization_alpha] is zero and otherwise divides
    each by its hypothesis' length to the power [normalization_alpha]. *)
Theorem translate_returns_lowest_normalized_score (normalization_alpha : R) r :
  s_score r ≠ [] →
  length (s_sample r) = length (s_score r) →
  length (s_word_probs r) = length (s_score r) →
  Forall (λ align, length align = length (s_score r)) (s_alignments r) →
  let score := normalize normalization_alpha (s_sample r) (s_score r) in
  ∃ sidx smp sc wp als,
    _translate normalization_alpha false r = Some (Best smp sc wp als (s_hyp_graph r)) ∧
    s_sample r !! sidx = Some smp ∧
    score !! sidx = Some sc ∧
    s_word_probs r !! sidx = Some wp ∧
    Forall2 (λ align a, align !! sidx = Some a) (s_alignments r) als ∧
    (∀ j sc', score !! j = Some sc' → (sc <= sc')%R) ∧
    (∀ j sc', j < sidx → score !! j = Some sc' → (sc < sc')%R) ∧
    (normalization_alpha = 0%R → score = s_score r) ∧
    (normalization_alpha ≠ 0%R →
     ∀ j s c, s_sample r !! j = Some s → s_score r !! j = Some c →
              score !! j = Some (c / Rpower (INR (length s)) normalization_alpha)%R).
Proof.
  intros Hne Hls Hlw Hla score.
  assert (Hlen : length score = length (s_score r)) by by apply normalize_length.
  assert (Hne' : score ≠ []).
  { intros Hnil. rewrite Hnil in Hlen. simpl in Hlen.
    symmetry in Hlen. by apply nil_length_inv in Hlen. }
  destruct (argmin_spec score Hne') as (sidx & sc & Hmin & Hsc & Hle & Hfirst).
  assert (Hidx : sidx < length (s_score r)).
  { rewrite <- Hlen. by eapply lookup_lt_Some. }
  destruct (lookup_lt_is_Some_2 (s_sample r) sidx ltac:(lia)) as [smp Hsmp].
  destruct (lookup_lt_is_Some_2 (s_word_probs r) sidx ltac:(lia)) as [wp Hwp].
  assert (Hals : ∃ als, Forall2 (λ align a, align !! sidx = Some a) (s_alignments r) als).
  { clear -Hla Hidx. induction Hla as [|align l Halign Hrest IH].
    - exists []. constructor.
    - destruct IH as [als Hals].
      destruct (lookup_lt_is_Some_2 align sidx ltac:(lia)) as [a Ha].
      exists (a :: als). by constructor. }
  destruct Hals as [als Hals].
  exists sidx, smp, sc, wp, als.
  split.
  { assert (Hm : mapM (λ align : list A, align !! sidx) (s_alignments r) = Some als)
      by by apply mapM_Some_2.
    unfold _translate. fold score. rewrite Hmin. simpl.
    rewrite Hsmp. simpl. rewrite Hsc. simpl. rewrite Hwp. simpl.
    by rewrite Hm. }
  split; [done |]. split; [done |]. split; [done |]. split; [done |].
  split; [done |]. split; [done |].
  split.
  { intros Hz. unfold score, normalize. by destruct (Req_dec_T _ _). }
  intros Hnz j s c Hs Hc. unfold score, normalize.
  destruct (Req_dec_T _ _); [done |].
  rewrite lookup_zip_with, Hc. simpl.
  rewrite list_lookup_fmap, Hs. done.
Qed.
End SingleBest.

Lemma translate_returns_lowest_normalized_score_witness :
  let score := normalize 0 (s_sample sampled_two) (s_score sampled_two) in
  ∃ sidx smp sc wp als,
    _translate 0 false sampled_two = Some (Best smp sc wp als (s_hyp_graph sampled_two)) ∧
    s_sample sampled_two !! sidx = Some smp ∧
    score !! sidx = Some sc ∧
    s_word_probs sampled_two !! sidx = Some wp ∧
    Forall2 (λ align a, align !! sidx = Some a) (s_alignments sampled_two) als ∧
    (∀ j sc', score !! j = Some sc' → (sc <= sc')%R) ∧
    (∀ j sc', j < sidx → score !! j = Some sc' → (sc < sc')%R) ∧
    (0%R = 0%R → score = s_score sampled_two) ∧
    (0%R ≠ 0%R →
     ∀ j s c, s_sample sampled_two !! j = Some s → s_score sampled_two !! j = Some c →
              score !! j = Some (c / Rpower (INR (length s)) 0)%R).
Proof.
  apply (translate_returns_lowest_normalized_score 0%R sampled_two).
  - discriminate.
  - reflexivity.
  - reflexivity.
  - repeat constructor.
Defined.

(** ** [Translator._retrieve_jobs] *)

Section Coordinator.
Context `{Countable RID} {Item : Type}.
Implicit Types (buffer : gmap RID (gmap nat Item)) (queue : list (@queue_event RID Item)).

Lemma entry_touch (request_id : RID) buffer :
  entry request_id (touch request_id buffer) = entry request_id buffer.
Proof. unfold entry, touch. by rewrite lookup_insert_eq. Qed.

(** C8: while the coordinator still waits for results of the request, a
    timeout of the queue at which some worker is dead with a non-zero
    exit code ends the run with [sys.exit(1)]: every worker is sent
    [terminate], the first such worker (in the order of the pool) is
    logged with its pid and exit code, and the rest of the queue is never
    asked for. *)
Theorem crashed_worker_is_fatal (num_samples : nat) (request_id : RID) buffer
        (processes : list process) queue (p : process) (code : Z) :
  size (entry request_id buffer) < num_samples →
  p ∈ processes →
  is_alive p = false →
  exitcode p = Some code →
  code ≠ 0%Z →
  ∃ p0 status,
    List.find crashed processes = Some p0 ∧
    p0 ∈ processes ∧ is_alive p0 = false ∧ exitcode p0 ≠ Some 0%Z ∧
    _retrieve_jobs num_samples request_id buffer (Empty processes :: queue)
    = Exited status ([CancelJoinThread; CancelJoinThread]
                       ++ map Terminate (seq 0 (length processes))
                       ++ [LogError (pid p0) (exitcode p0)])
             queue ∧
    status ≠ 0%Z.
Proof.
  intros Hwait Hin Halive Hcode Hnz.
  assert (Hcr : crashed p = true).
  { unfold crashed. rewrite Halive, Hcode. simpl.
    rewrite bool_decide_eq_false_2; [done |]. intros [= ->]. done. }
  destruct (List.find crashed processes) as [p0|] eqn:Hfind.
  2: { apply list_elem_of_In in Hin.
       rewrite (find_none _ _ Hfind p Hin) in Hcr. done. }
  destruct (find_some _ _ Hfind) as [Hin0 Hcr0].
  apply list_elem_of_In in Hin0.
  exists p0, 1%Z. split; [done |]. split; [done |].
  unfold crashed in Hcr0. apply andb_true_iff in Hcr0 as [Ha Hc].
  apply negb_true_iff in Ha, Hc. apply bool_decide_eq_false in Hc.
  split; [done |]. split; [done |]. split; [|done].
  unfold _retrieve_jobs. simpl. rewrite entry_touch.
  destruct (Nat.ltb_spec (size (entry request_id buffer)) num_samples); [|lia].
  by rewrite Hfind.
Qed.
End Coordinator.

Lemma crashed_worker_is_fatal_witness :
  ∃ p0 status,
    List.find crashed [worker_running; worker_dead] = Some p0 ∧
    p0 ∈ [worker_running; worker_dead] ∧ is_alive p0 = false ∧
    exitcode p0 ≠ Some 0%Z ∧
    _retrieve_jobs 2 7 (∅ : gmap nat (gmap nat string))
                   (Empty [worker_running; worker_dead] :: [Resp 7 0 "a"; Resp 7 1 "b"])
    = Exited status ([CancelJoinThread; CancelJoinThread]
                       ++ map Terminate (seq 0 (length [worker_running; worker_dead]))
                       ++ [LogError (pid p0) (exitcode p0)])
             [Resp 7 0 "a"; Resp 7 1 "b"] ∧
    status ≠ 0%Z.
Proof.
  apply (crashed_worker_is_fatal 2 7 (∅ : gmap nat (gmap nat string))
           [worker_running; worker_dead] [Resp 7 0 "a"; Resp 7 1 "b"] worker_dead 1).
  - unfold entry. rewrite lookup_empty. simpl. rewrite map_size_empty. lia.
  - right. left.
  - reflexivity.
  - reflexivity.
  - lia.
Defined.

(** C7 on a queue that also carries a result of another request: asked
    for the one segment of request 0, the coordinator takes the result of
    request 1 that arrives first, yields it, deletes the buffer of
    request 1, and leaves both the result of request 0 in the queue and
    an empty buffer entry for request 0 behind. *)
Lemma retrieve_jobs_yields_other_request :
  _retrieve_jobs 1 0 (∅ : gmap nat (gmap nat string))
                 [Resp 1 0 "other"; Resp 0 0 "mine"]
  = Yielded ["other"] {[0 := ∅]} [Resp 0 0 "mine"].
Proof. vm_compute. reflexivity. Qed.

(** *** The run on results of the requested id only *)

Section SameRequest.
Context `{Countable RID} {Item : Type}.
Implicit Types (buffer : gmap RID (gmap nat Item)) (queue : list (@queue_event RID Item))
         (results : list (nat * Item)) (e : gmap nat Item).

Lemma collect_done (num_samples : nat) (request_id : RID) buffer queue :
  ¬ size (entry request_id buffer) < num_samples →
  collect num_samples request_id buffer queue
  = Collected request_id (touch request_id buffer) queue.
Proof.
  intros Hsize. destruct queue; cbn -[entry touch size Nat.ltb]; rewrite entry_touch;
    (destruct (Nat.ltb_spec (size (entry request_id buffer)) num_samples); [lia | done]).
Qed.

Lemma collect_resp (num_samples : nat) (request_id r : RID) buffer (idx : nat) (it : Item)
      queue :
  size (entry request_id buffer) < num_samples →
  collect num_samples request_id buffer (Resp r idx it :: queue)
  = collect num_samples r
            (<[r := <[idx := it]> (entry r (touch request_id buffer))]>
               (touch request_id buffer))
            queue.
Proof.
  intros Hsize. cbn -[entry touch size Nat.ltb]. rewrite entry_touch.
  destruct (Nat.ltb_spec (size (entry request_id buffer)) num_samples); [done | lia].
Qed.

Lemma collect_same_request (num_samples : nat) (request_id : RID) queue :
  ∀ results e buffer,
    entry request_id buffer = e →
    NoDup results.*1 →
    (∀ i, i ∈ results.*1 → e !! i = None) →
    size e + length results = num_samples →
    ∃ buffer',
      collect num_samples request_id buffer
              (map (λ r, Resp request_id r.1 r.2) results ++ queue)
      = Collected request_id buffer' queue ∧
      entry request_id buffer' = list_to_map results ∪ e ∧
      delete request_id buffer' = delete request_id buffer.
Proof.
  induction results as [|[idx it] results IH]; intros e buffer He Hnd Hfresh Hsize.
  - exists (touch request_id buffer). simpl in Hsize.
    rewrite app_nil_l, collect_done by (rewrite He; lia).
    split; [done |]. rewrite entry_touch, He.
    split; [by rewrite list_to_map_nil, (left_id_L ∅ (∪)) | apply delete_insert_eq].
  - simpl in Hsize, Hnd, Hfresh.
    change (map (λ r, Resp request_id r.1 r.2) ((idx, it) :: results) ++ queue)
      with (Resp request_id idx it :: (map (λ r, Resp request_id r.1 r.2) results ++ queue)).
    rewrite collect_resp by (rewrite He; lia).
    rewrite entry_touch, He.
    apply NoDup_cons in Hnd as [Hidx Hnd].
    assert (Hnone : e !! idx = None) by (apply Hfresh; by left).
    destruct (IH (<[idx := it]> e)
                 (<[request_id := <[idx := it]> e]> (touch request_id buffer)))
      as (buffer' & Hcollect & Hentry & Hdel).
    + unfold entry. by rewrite lookup_insert_eq.
    + done.
    + intros i Hi. rewrite lookup_insert_ne; [apply Hfresh; by right |].
      intros ->. done.
    + rewrite map_size_insert_None by done. lia.
    + exists buffer'. split; [done |]. split.
      * rewrite Hentry. simpl. rewrite <- insert_union_l. symmetry.
        apply insert_union_r, not_elem_of_list_to_map_1. done.
      * rewrite Hdel. unfold touch. by rewrite !delete_insert_eq.
Qed.

Lemma yield_all_present e (idxs : list nat) :
  (∀ i, i ∈ idxs → is_Some (e !! i)) →
  ∃ items, yield_all e idxs = (items, true) ∧
           Forall2 (λ i it, e !! i = Some it) idxs items.
Proof.
  induction idxs as [|i idxs IH]; intros Hall; simpl.
  - exists []. split; [done | constructor].
  - destruct (Hall i ltac:(by left)) as [it Hit].
    destruct IH as (items & Hy & Hf); [intros; apply Hall; by right |].
    exists (it :: items). rewrite Hit, Hy. split; [done | by constructor].
Qed.

(** When the queue delivers results of the requested id only, one for
    each index below [num_samples] in whatever order, the generator
    yields them by index and deletes the buffer of the request. *)
Lemma retrieve_jobs_same_request_in_order (num_samples : nat) (request_id : RID)
      buffer results queue :
  entry request_id buffer = ∅ →
  results.*1 ≡ₚ seq 0 num_samples →
  ∃ items,
    _retrieve_jobs num_samples request_id buffer
                   (map (λ r, Resp request_id r.1 r.2) results ++ queue)
    = Yielded items (delete request_id buffer) queue ∧
    length items = num_samples ∧
    ∀ idx it, (idx, it) ∈ results → items !! idx = Some it.
Proof.
  intros Hempty Hperm.
  assert (Hnd : NoDup results.*1) by (rewrite Hperm; apply NoDup_seq).
  assert (Hlen : length results = num_samples).
  { rewrite <- (length_fmap fst), Hperm. apply length_seq. }
  destruct (collect_same_request num_samples request_id queue results ∅ buffer)
    as (buffer' & Hcollect & Hentry & Hdel); [done | done | | |].
  { intros. apply lookup_empty. }
  { rewrite map_size_empty. lia. }
  rewrite (right_id_L ∅ (∪)) in Hentry.
  destruct (yield_all_present (list_to_map results) (seq 0 num_samples))
    as (items & Hyield & Hitems).
  { intros i Hi. rewrite <- Hperm in Hi.
    apply list_elem_of_fmap in Hi as ([i' it] & -> & Hin).
    exists it. by apply elem_of_list_to_map_1. }
  exists items. unfold _retrieve_jobs. rewrite Hcollect, Hentry, Hyield, Hdel.
  split; [done |]. split.
  { rewrite <- (Forall2_length _ _ _ Hitems). apply length_seq. }
  intros idx it Hin.
  assert (Hidx : idx < num_samples).
  { assert (Hi : idx ∈ results.*1) by (apply list_elem_of_fmap; by exists (idx, it)).
    rewrite Hperm in Hi. apply elem_of_seq in Hi. lia. }
  destruct (Forall2_lookup_l _ _ _ idx idx Hitems) as (it' & Hit' & Hl).
  { apply lookup_seq. lia. }
  rewrite Hit'. rewrite (elem_of_list_to_map_1 _ _ _ Hnd Hin) in Hl. done.
Qed.
End SameRequest.

(** * Further properties of the code *)

(** ** [gen_sample]: what the beam search returns *)

Lemma keep_Forall2 {A B} (P : A → B → Prop) (flags : list bool) (l : list A) (l' : list B) :
  Forall2 P l l' → Forall2 P (keep flags l) (keep flags l').
Proof.
  intros Hall. revert flags.
  induction Hall as [|x y l l' Hxy Hrest IH]; intros [|f fs]; simpl; try constructor.
  destruct f; [constructor |]; auto.
Qed.

Lemma keep_Forall {A} (P : A → Prop) (flags : list bool) (l : list A) :
  Forall P l → Forall P (keep flags l).
Proof.
  intros Hall. apply Forall_forall. intros x Hin. apply elem_of_keep in Hin.
  rewrite Forall_forall in Hall. by apply Hall.
Qed.

Lemma is_eos_snoc (s : list Z) (w : Z) : is_eos (s ++ [w]) = bool_decide (w = 0%Z).
Proof.
  unfold is_eos. rewrite last_snoc.
  destruct (decide (w = 0%Z)) as [-> | Hw].
  - by rewrite !bool_decide_eq_true_2.
  - rewrite !bool_decide_eq_false_2; [done | done |]. intros [= ->]. done.
Qed.

Section Returned.
Context {X St Ctx : Type}.
Variable argpartition : list R → Z → option (list nat).
Implicit Types (models : list (@model X St Ctx)) (ctx : list Ctx) (b : @beam St).

Lemma beam_shape_weaken (n : nat) b :
  beam_shape n b →
  Forall2 (λ s wp, length wp = length s ∧
                   ∃ s0, s = s0 ++ [0%Z] ∧ (0%Z ∉ s0) ∧ length s ≤ S n)
          (sample b) (sample_word_probs b).
Proof.
  intros [_ Hfin]. eapply Forall2_impl; [exact Hfin |].
  intros s wp (Hl & s0 & -> & H0 & Hle). split; [done |]. exists s0.
  repeat split; try done. lia.
Qed.

Lemma beam_step_shape k models ctx b b' stop (n : nat) :
  beam_shape n b →
  beam_step argpartition k models ctx b = Some (b', stop) →
  beam_shape (S n) b'.
Proof.
  intros Hshape Hstep.
  pose proof (beam_shape_weaken n b Hshape) as Hfin. destruct Hshape as [Hlive _].
  destruct (beam_step_inv _ _ _ _ _ _ _ Hstep)
    as (p0 & ps & ranks & costs & nhs & nwp & nst & _ & _ & _ & Hnhs & Hnwp & _ &
        Hs' & _ & Hswp' & _ & _ & Hhs' & _ & Hwp' & _).
  simpl in *.
  assert (Hnew : Forall2 (λ s' wp', length wp' = length s' ∧ length s' = S n ∧
                            ∃ s w, s' = s ++ [w] ∧ (0%Z ∉ s)) nhs nwp).
  { apply Forall2_same_length_lookup. split.
    - by rewrite <- (Forall2_length _ _ _ Hnhs), <- (Forall2_length _ _ _ Hnwp).
    - intros i s' wp' Hs Hw.
      destruct (Forall2_lookup_r _ _ _ _ _ Hnhs Hs) as (r & Hr & s & Hps & ->).
      destruct (Forall2_lookup_r _ _ _ _ _ Hnwp Hw) as (r' & Hr' & wp & p & Hpw & _ & ->).
      rewrite Hr in Hr'. injection Hr' as <-.
      destruct (Forall2_lookup_lr _ _ _ _ _ _ Hlive Hps Hpw) as (Hl & Hn & H0).
      rewrite !length_app. simpl. split; [lia |]. split; [lia |]. by exists s, (Z.of_nat (r mod shape1 p0)). }
  split.
  - rewrite Hhs', Hwp'.
    assert (Hflags : Forall (λ s', is_eos s' = false)
                            (keep (map negb (map is_eos nhs)) nhs)).
    { clear. induction nhs as [|s l IH]; simpl; [constructor |].
      destruct (is_eos s) eqn:He; simpl; [done | by constructor]. }
    pose proof (keep_Forall2 _ (map negb (map is_eos nhs)) _ _ Hnew) as Hk.
    apply Forall2_same_length_lookup. split; [by eapply Forall2_length |].
    intros i s' wp' Hs Hw.
    destruct (Forall2_lookup_lr _ _ _ _ _ _ Hk Hs Hw) as (Hl & Hn & s & w & -> & H0).
    split; [done |]. split; [done |].
    rewrite Forall_forall in Hflags.
    specialize (Hflags _ ltac:(by eapply list_elem_of_lookup_2)).
    rewrite is_eos_snoc in Hflags. apply bool_decide_eq_false in Hflags.
    rewrite elem_of_app, list_elem_of_singleton. intros [? | ?]; [done | by subst].
  - rewrite Hs', Hswp'. apply Forall2_app; [done |].
    assert (Hflags : Forall (λ s', is_eos s' = true) (keep (map is_eos nhs) nhs))
      by apply keep_map_Forall.
    pose proof (keep_Forall2 _ (map is_eos nhs) _ _ Hnew) as Hk.
    apply Forall2_same_length_lookup. split; [by eapply Forall2_length |].
    intros i s' wp' Hs Hw.
    destruct (Forall2_lookup_lr _ _ _ _ _ _ Hk Hs Hw) as (Hl & Hn & s & w & -> & H0).
    split; [done |].
    rewrite Forall_forall in Hflags.
    specialize (Hflags _ ltac:(by eapply list_elem_of_lookup_2)).
    rewrite is_eos_snoc in Hflags. apply bool_decide_eq_true in Hflags. subst w.
    exists s. repeat split; [done | lia].
Qed.

Lemma beam_loop_shape k models ctx (maxlen : nat) : ∀ b b' brk (n : nat),
  beam_shape n b →
  beam_loop argpartition k models ctx maxlen b = Some (b', brk) →
  ∃ n', n' ≤ n + maxlen ∧ beam_shape n' b' ∧
        (brk = false → n' = n + maxlen).
Proof.
  induction maxlen as [|maxlen IH]; intros b b' brk n Hshape Hloop; simpl in Hloop.
  - injection Hloop as <- <-. exists n. split; [lia |]. split; [done | lia].
  - destruct (beam_step _ _ _ _ b) as [[b1 stop]|] eqn:Hstep; [|done].
    pose proof (beam_step_shape _ _ _ _ _ _ _ Hshape Hstep) as Hshape1.
    destruct stop.
    + injection Hloop as <- <-. exists (S n). split; [lia |]. split; [done | done].
    + destruct (IH _ _ _ _ Hshape1 Hloop) as (n' & Hle & Hs' & Hbrk).
      exists n'. split; [lia |]. split; [done |]. intros Hb. rewrite (Hbrk Hb). lia.
Qed.

(** X1: What [gen_sample] returns, whatever the partition primitive does:
    one score and one list of word probabilities per hypothesis, one
    word probability per word, and every hypothesis either ends with its
    only 0 and has at most [maxlen] words, or has exactly [maxlen] words
    and no 0. *)
Theorem gen_sample_hypotheses_shape models (x : X) (k maxlen : nat)
        (ss : list (list Z)) (sc : list R) (wps : list (list R)) :
  gen_sample argpartition models x k maxlen = Some (ss, sc, wps) →
  length sc = length ss ∧
  Forall2 (λ s wp, length wp = length s ∧ ended_or_cut maxlen s) ss wps.
Proof.
  unfold gen_sample. intros Hgen.
  destruct (beam_loop _ _ _ _ _ _) as [[b brk]|] eqn:Hloop; [|done].
  simpl in Hgen.
  destruct (beam_loop_consistent _ _ _ _ _ _ _ _ (init_beam_consistent models x k) Hloop)
    as (Hcons & Hle & _ & Hbrk & _).
  rewrite (dump_remaining_consistent k b Hcons) in Hgen. injection Hgen as <- <- <-.
  assert (Hinit : beam_shape 0 (init_beam false k models x)).
  { split; simpl; repeat constructor. by intros ?%elem_of_nil. }
  destruct (beam_loop_shape _ _ _ _ _ _ _ _ Hinit Hloop) as (n & Hn & [Hlive Hfin] & Hn').
  destruct Hcons as (_ & Hlk & Hsc & _ & _ & Hssc & _).
  split; [rewrite !length_app; lia |].
  apply Forall2_app.
  - eapply Forall2_impl; [exact Hfin |].
    intros s wp (Hl & s0 & -> & H0 & Hlen). split; [done |]. left. exists s0.
    repeat split; try done. simpl in *. lia.
  - destruct brk.
    + assert (Hpos : 1 ≤ maxlen).
      { destruct maxlen; [|lia]. simpl in Hloop. by injection Hloop. }
      assert (Hnil : hyp_samples b = []).
      { apply nil_length_inv. specialize (Hle Hpos). destruct (Hbrk eq_refl); lia. }
      rewrite Hnil in Hlive. apply Forall2_nil_inv_l in Hlive. rewrite Hnil, Hlive.
      constructor.
    + rewrite (Hn' eq_refl) in Hlive. simpl in Hlive.
      eapply Forall2_impl; [exact Hlive |].
      intros s wp (Hl & Hlen & H0). split; [done |]. by right.
Qed.
End Returned.

Lemma gen_sample_hypotheses_shape_witness :
  length [(0 - ln (1 / 4))%R; (0 - ln (3 / 4) - ln (3 / 4))%R]
    = length [[0%Z]; [1%Z; 1%Z]] ∧
  Forall2 (λ s wp, length wp = length s ∧ ended_or_cut 2 s)
          [[0%Z]; [1%Z; 1%Z]]
          [[(1 / 4 / 1)%R]; [(3 / 4 / 1)%R; (3 / 4 / 1)%R]].
Proof.
  apply (gen_sample_hypotheses_shape select_argpartition [model_go] tt 2 2).
  apply gen_sample_go_2.
Defined.

(** ** [gen_sample]: a beam wider than the candidates *)

Lemma shaped_flatten_length (rows voc_size : nat) (m : mat) :
  shaped rows voc_size m → length (flatten m) = rows * voc_size.
Proof.
  intros [<- Hall]. unfold flatten.
  induction Hall as [|row m Hrow Hrest IH]; simpl; [done |].
  rewrite length_app, IH, Hrow. done.
Qed.

Section TooWide.
Context {X St Ctx : Type}.
Variable argpartition : list R → Z → option (list nat).
Hypothesis contract : argpartition_contract argpartition.
Implicit Types (models : list (@model X St Ctx)) (ctx : list Ctx) (b : @beam St).

(** An iteration that has to select more candidates than there are
    (live hypotheses times vocabulary) raises. *)
Lemma beam_step_too_few_candidates k models ctx b (voc_size : nat) :
  Forall (shaped (length (hyp_scores b)) voc_size) (run_models models ctx b).*1 →
  length (hyp_scores b) * voc_size < k - dead_k b →
  beam_step argpartition k models ctx b = None.
Proof.
  intros Hshape Hfew. unfold beam_step.
  destruct ((run_models models ctx b).*1) as [|p0 ps] eqn:Hp; [done |].
  inversion Hshape as [|? ? Hp0 Hps]; subst.
  assert (Hlen : length (flatten (cand_scores_of (hyp_scores b) p0 ps))
                 = length (hyp_scores b) * voc_size).
  { apply shaped_flatten_length. unfold cand_scores_of.
    apply shaped_col_minus, shaped_sum; [by apply shaped_log |].
    apply Forall_map. eapply Forall_impl; [exact Hps |]. intros m. apply shaped_log. }
  unfold ranks_of.
  rewrite (argpartition_raises _ contract); [done |].
  rewrite Hlen. unfold norm_kth.
  destruct (Z.ltb_spec (Z.of_nat k - Z.of_nat (dead_k b) - 1) 0); [lia |].
  destruct (Z.leb_spec 0 (Z.of_nat k - Z.of_nat (dead_k b) - 1)); [|lia].
  destruct (Z.ltb_spec (Z.of_nat k - Z.of_nat (dead_k b) - 1)
                       (Z.of_nat (length (hyp_scores b) * voc_size))); [lia | done].
Qed.

(** X2: The search starts from one hypothesis, so its first iteration has
    only as many candidates as the vocabulary has words: with a beam
    wider than the vocabulary and [maxlen >= 1], [gen_sample] raises
    ([argpartition] refuses [kth = k - 1]). *)
Theorem gen_sample_beam_wider_than_vocabulary models (x : X) (k maxlen voc_size : nat) :
  1 ≤ maxlen →
  Forall (shaped 1 voc_size)
         (run_models models (init_ctx models x) (init_beam false k models x)).*1 →
  voc_size < k →
  gen_sample argpartition models x k maxlen = None.
Proof.
  intros Hmax Hshape Hwide. unfold gen_sample.
  destruct maxlen as [|maxlen]; [lia |]. simpl.
  rewrite (beam_step_too_few_candidates _ _ _ _ voc_size); [done | done |].
  simpl. lia.
Qed.
End TooWide.

Lemma gen_sample_beam_wider_than_vocabulary_witness :
  gen_sample select_argpartition [model_go] tt 3 1 = None.
Proof.
  apply (gen_sample_beam_wider_than_vocabulary select_argpartition
           select_argpartition_contract [model_go] tt 3 1 2).
  - lia.
  - repeat constructor.
  - lia.
Defined.

(** ** [gen_sample]: scores are never negative *)

Lemma omap_last_length (l : list (list Z)) :
  Forall (λ s, s ≠ []) l → length (omap last l) = length l.
Proof.
  induction 1 as [|s l Hs Hrest IH]; [done |].
  change (omap last (s :: l))
    with (match last s with Some y => y :: omap last l | None => omap last l end).
  destruct (last s) eqn:Hlast; simpl; [by rewrite IH |].
  by apply last_None in Hlast.
Qed.

(** A candidate costs at least as much as the hypothesis it extends. *)
Lemma candidate_cost_ge_parent (hyp_scores : list R) (p0 : mat) (ps : list mat)
      (voc_size r : nat) (c' : R) :
  0 < voc_size →
  Forall (probabilities (length hyp_scores) voc_size) (p0 :: ps) →
  flatten (cand_scores_of hyp_scores p0 ps) !! r = Some c' →
  ∃ c, hyp_scores !! (r / voc_size) = Some c ∧ (c <= c')%R.
Proof.
  intros Hpos Hprob Hc.
  inversion Hprob as [|? ? Hp0 Hps]; subst.
  assert (Hshape : shaped (length hyp_scores) voc_size (cand_scores_of hyp_scores p0 ps)).
  { unfold cand_scores_of. apply shaped_col_minus, shaped_sum.
    - apply shaped_log, Hp0.
    - apply Forall_map. eapply Forall_impl; [exact Hps |].
      intros m [Hm _]. by apply shaped_log. }
  rewrite (flatten_lookup voc_size) in Hc by (done || apply Hshape).
  unfold cand_scores_of in Hc. rewrite mat_at_col_minus in Hc.
  destruct (hyp_scores !! (r / voc_size)) as [c|] eqn:Hparent; [|done].
  simpl in Hc. exists c. split; [done |].
  assert (Hh : r / voc_size < length hyp_scores) by by eapply lookup_lt_Some.
  assert (Hw : r mod voc_size < voc_size) by (apply Nat.mod_upper_bound; lia).
  destruct (probabilities_at _ _ _ _ _ Hp0 Hh Hw) as (q0 & Hq0 & Hq0v).
  assert (Hqs : ∃ qs, Forall2 (λ m q, mat_at m (r / voc_size) (r mod voc_size) = Some q) ps qs
                      ∧ Forall (λ q, (0 < q <= 1)%R) qs).
  { clear -Hps Hh Hw. induction Hps as [|m ps Hm Hrest IH].
    - exists []. split; constructor.
    - destruct IH as (qs & Hall & Hval).
      destruct (probabilities_at _ _ _ _ _ Hm Hh Hw) as (q & Hq & Hqv).
      exists (q :: qs). split; by constructor. }
  destruct Hqs as (qs & Hall & Hval).
  rewrite (mat_at_sum _ _ _ (map ln qs) _ (ln q0)) in Hc.
  2: { by apply mat_at_log. }
  2: { clear -Hall. induction Hall; simpl; constructor; [by apply mat_at_log | done]. }
  simpl in Hc. injection Hc as <-.
  assert (foldl Rplus (ln q0) (map ln qs) <= 0)%R; [|lra].
  apply sum_logs_nonpos; [|done].
  rewrite <- ln_1. destruct Hq0v as [? [Hlt | ->]]; [|lra].
  left. by apply ln_increasing.
Qed.

Section NonNegative.
Context {X St Ctx : Type}.
Variable argpartition : list R → Z → option (list nat).
Implicit Types (models : list (@model X St Ctx)) (ctx : list Ctx) (b : @beam St).

Lemma run_models_probabilities models ctx b (voc_size : nat) :
  Forall (returns_probabilities voc_size) models →
  Forall (probabilities (length (next_w b)) voc_size) (run_models models ctx b).*1.
Proof.
  intros Hm. unfold run_models. apply Forall_forall. intros p Hin.
  apply list_elem_of_fmap in Hin as ([p' st] & -> & Hin).
  apply list_elem_of_lookup_1 in Hin as [i Hi].
  apply lookup_zip_with_Some in Hi as (m & cs & Heq & Hmi & _).
  rewrite Forall_forall in Hm.
  specialize (Hm m ltac:(by eapply list_elem_of_lookup_2)).
  simpl. replace p' with (f_next m (next_w b) (replicate (live_k b) cs.1) cs.2).1
    by by rewrite <- Heq.
  apply Hm.
Qed.

Lemma beam_step_next_w k models ctx b b' :
  beam_step argpartition k models ctx b = Some (b', false) →
  next_w b' = omap last (hyp_samples b').
Proof.
  unfold beam_step. intros Hstep.
  destruct ((run_models models ctx b).*1) as [|p0 ps]; [done |].
  destruct (ranks_of _ _ _ _) as [ranks_flat|]; [|done].
  simpl in Hstep.
  destruct (mapM _ ranks_flat) as [costs|]; [|done].
  simpl in Hstep.
  destruct (mapM _ (zip (map (λ r, r / shape1 p0) ranks_flat)
                        (map (λ r, r mod shape1 p0) ranks_flat)))
    as [nhs|]; [|done].
  simpl in Hstep.
  destruct (mapM _ (zip (map (λ r, r / shape1 p0) ranks_flat) ranks_flat))
    as [nwp|]; [|done].
  simpl in Hstep.
  destruct (mapM _ (map (λ r, r / shape1 p0) ranks_flat)) as [nst|]; [|done].
  simpl in Hstep. injection Hstep as <- Hs. simpl. by rewrite Hs.
Qed.

Lemma beam_step_nonneg k models ctx b b' stop (voc_size : nat) :
  0 < voc_size →
  Forall (returns_probabilities voc_size) models →
  length (next_w b) = length (hyp_scores b) →
  Forall (λ c, (0 <= c)%R) (hyp_scores b) →
  Forall (λ c, (0 <= c)%R) (sample_score b) →
  beam_step argpartition k models ctx b = Some (b', stop) →
  Forall (λ c, (0 <= c)%R) (hyp_scores b') ∧
  Forall (λ c, (0 <= c)%R) (sample_score b') ∧
  (stop = false → length (next_w b') = length (hyp_scores b')).
Proof.
  intros Hpos Hm Hnw Hlive Hfin Hstep.
  pose proof (run_models_probabilities models ctx b voc_size Hm) as Hprob.
  rewrite Hnw in Hprob.
  destruct (beam_step_inv _ _ _ _ _ _ _ Hstep)
    as (p0 & ps & ranks & costs & nhs & nwp & nst & Hp & _ & Hcosts & Hnhs & _ & _ &
        _ & Hss' & _ & _ & _ & Hhs' & Hhsc' & _ & Hstop).
  simpl in Hcosts, Hnhs, Hss', Hhs', Hhsc', Hstop. rewrite Hp in Hprob.
  assert (Hnew : Forall (λ c, (0 <= c)%R) costs).
  { apply Forall_forall. intros c' Hin. apply list_elem_of_lookup_1 in Hin as [i Hi].
    destruct (Forall2_lookup_r _ _ _ _ _ Hcosts Hi) as (r & _ & Hc).
    destruct (candidate_cost_ge_parent _ _ _ _ _ _ Hpos Hprob Hc) as (c & Hpar & Hle).
    rewrite Forall_forall in Hlive.
    specialize (Hlive c ltac:(by eapply list_elem_of_lookup_2)). lra. }
  split; [rewrite Hhsc'; by apply keep_Forall |].
  split; [rewrite Hss'; apply Forall_app; split; [done | by apply keep_Forall] |].
  intros ->.
  pose proof (beam_step_next_w _ _ _ _ _ Hstep) as Hnext.
  rewrite Hnext, Hhs', Hhsc', omap_last_length.
  - apply keep_same_length.
    by rewrite <- (Forall2_length _ _ _ Hnhs), <- (Forall2_length _ _ _ Hcosts).
  - apply keep_Forall. apply Forall_forall. intros s' Hin.
    apply list_elem_of_lookup_1 in Hin as [i Hi].
    destruct (Forall2_lookup_r _ _ _ _ _ Hnhs Hi) as (r & _ & s & _ & ->).
    by destruct s.
Qed.

Lemma beam_loop_nonneg k models ctx (voc_size maxlen : nat) : ∀ b b' brk,
  0 < voc_size →
  Forall (returns_probabilities voc_size) models →
  length (next_w b) = length (hyp_scores b) →
  Forall (λ c, (0 <= c)%R) (hyp_scores b) →
  Forall (λ c, (0 <= c)%R) (sample_score b) →
  beam_loop argpartition k models ctx maxlen b = Some (b', brk) →
  Forall (λ c, (0 <= c)%R) (hyp_scores b') ∧
  Forall (λ c, (0 <= c)%R) (sample_score b').
Proof.
  induction maxlen as [|maxlen IH]; intros b b' brk Hpos Hm Hnw Hlive Hfin Hloop;
    simpl in Hloop.
  - by injection Hloop as <- <-.
  - destruct (beam_step _ _ _ _ b) as [[b1 stop]|] eqn:Hstep; [|done].
    destruct (beam_step_nonneg _ _ _ _ _ _ _ Hpos Hm Hnw Hlive Hfin Hstep)
      as (Hlive1 & Hfin1 & Hnw1).
    destruct stop.
    + by injection Hloop as <- <-.
    + apply (IH b1 b' brk); auto.
Qed.

(** X3: When every model always returns probabilities in (0, 1] (one row per
    previous word, [voc_size >= 1] columns), no score that [gen_sample]
    returns is negative. *)
Theorem gen_sample_scores_nonnegative models (x : X) (k maxlen voc_size : nat)
        (ss : list (list Z)) (sc : list R) (wps : list (list R)) :
  0 < voc_size →
  Forall (returns_probabilities voc_size) models →
  gen_sample argpartition models x k maxlen = Some (ss, sc, wps) →
  Forall (λ c, (0 <= c)%R) sc.
Proof.
  unfold gen_sample. intros Hpos Hm Hgen.
  destruct (beam_loop _ _ _ _ _ _) as [[b brk]|] eqn:Hloop; [|done].
  simpl in Hgen.
  destruct (beam_loop_consistent _ _ _ _ _ _ _ _ (init_beam_consistent models x k) Hloop)
    as (Hcons & _).
  rewrite (dump_remaining_consistent k b Hcons) in Hgen. injection Hgen as <- <- <-.
  destruct (beam_loop_nonneg k models (init_ctx models x) voc_size maxlen
              (init_beam false k models x) b brk Hpos Hm)
    as [Hlive Hfin]; [done | simpl; repeat constructor; lra | constructor | done |].
  apply Forall_app. done.
Qed.
End NonNegative.

Lemma model_go_returns_probabilities : returns_probabilities 2 model_go.
Proof.
  intros next_w ctx states. simpl. split; [split |].
  - by rewrite length_map.
  - apply Forall_map, Forall_true. intros _. done.
  - apply Forall_map, Forall_true. intros _. repeat constructor; lra.
Qed.

Lemma gen_sample_scores_nonnegative_witness :
  Forall (λ c, (0 <= c)%R) [(0 - ln (1 / 4))%R; (0 - ln (3 / 4) - ln (3 / 4))%R].
Proof.
  apply (gen_sample_scores_nonnegative select_argpartition [model_go] tt 2 2 2
           [[0%Z]; [1%Z; 1%Z]] _ [[(1 / 4 / 1)%R]; [(3 / 4 / 1)%R; (3 / 4 / 1)%R]]).
  - lia.
  - constructor; [apply model_go_returns_probabilities | constructor].
  - apply gen_sample_go_2.
Defined.

(** ** [gen_sample]: greedy decoding *)

Section GreedyProps.
Context {X St Ctx : Type}.
Implicit Types (models : list (@model X St Ctx)) (ctx : list Ctx).

Lemma greedy_loop_words models ctx (k maxlen : nat) : ∀ next_state sample sample_score s sc,
  greedy_loop models ctx k maxlen next_state sample sample_score = Some (s, sc) →
  ∃ t, s = sample ++ t ∧
       ((∃ t0, t = t0 ++ [0%Z] ∧ (0%Z ∉ t0) ∧ length t ≤ maxlen) ∨
        (length t = maxlen ∧ (0%Z ∉ t))).
Proof.
  induction maxlen as [|maxlen IH]; intros st sample score s sc Hloop; simpl in Hloop.
  - injection Hloop as <- <-. exists []. split; [by rewrite app_nil_r |].
    right. split; [done | by intros ?%elem_of_nil].
  - destruct (greedy_step models ctx k st) as [[[nw lp] st']|]; [|done].
    simpl in Hloop. destruct (Nat.eqb_spec nw 0) as [-> | Hnw].
    + injection Hloop as <- <-. exists [0%Z]. split; [done |]. left.
      exists []. split; [done |]. split; [by intros ?%elem_of_nil | simpl; lia].
    + destruct (IH _ _ _ _ _ Hloop) as (t & -> & Ht).
      exists (Z.of_nat nw :: t). split; [by rewrite <- app_assoc |].
      destruct Ht as [(t0 & -> & H0 & Hlen) | [Hlen H0]].
      * left. exists (Z.of_nat nw :: t0). split; [done |]. split.
        -- rewrite elem_of_cons. intros [? | ?]; [lia | done].
        -- simpl in *. lia.
      * right. split; [simpl; lia |].
        rewrite elem_of_cons. intros [? | ?]; [lia | done].
Qed.

(** X4: Greedy decoding returns at most [maxlen] words and stops at the first
    end-of-sentence word: the result ends with its only 0, or it has
    exactly [maxlen] words and no 0. *)
Theorem gen_sample_argmax_stops_at_eos models (x : X) (k maxlen : nat)
        (s : list Z) (sc : R) :
  gen_sample_argmax models x k maxlen = Some (s, sc) →
  ended_or_cut maxlen s.
Proof.
  unfold gen_sample_argmax. destruct (1 <? k); [done |]. intros Hloop.
  destruct (greedy_loop_words _ _ _ _ _ _ _ _ _ Hloop) as (t & -> & Ht).
  simpl. exact Ht.
Qed.

Lemma greedy_step_same_on_start models models' ctx (k : nat) :
  Forall2 (λ m m', ∀ c st, f_next m (replicate k (-1)%Z) c st
                           = f_next m' (replicate k (-1)%Z) c st) models models' →
  ∀ next_state, greedy_step models ctx k next_state = greedy_step models' ctx k next_state.
Proof.
  intros Hsame next_state. unfold greedy_step.
  assert (Houts : zip_with (λ m cs, f_next m (replicate k (-1)%Z) (replicate k cs.1) cs.2)
                           models (zip ctx next_state)
                  = zip_with (λ m cs, f_next m (replicate k (-1)%Z) (replicate k cs.1) cs.2)
                             models' (zip ctx next_state)).
  { generalize (zip ctx next_state). intros l. revert l.
    induction Hsame as [|m m' ms ms' Hm Hrest IH]; intros [|cs l]; simpl; try done.
    by rewrite Hm, IH. }
  by rewrite Houts.
Qed.

(** X5: Greedy decoding never tells a model which word was chosen: every
    step is asked with the start sign [-1] as previous word.  So two
    ensembles whose models start alike and answer alike after [-1]
    decode alike, whatever they would answer after a real word. *)
Theorem gen_sample_argmax_ignores_previous_word models models' (x : X) (k maxlen : nat) :
  Forall2 (λ m m', f_init m x = f_init m' x ∧
                   ∀ c st, f_next m (replicate k (-1)%Z) c st
                           = f_next m' (replicate k (-1)%Z) c st) models models' →
  gen_sample_argmax models x k maxlen = gen_sample_argmax models' x k maxlen.
Proof.
  intros Hsame. unfold gen_sample_argmax. destruct (1 <? k); [done |].
  assert (Hctx : init_ctx models x = init_ctx models' x).
  { unfold init_ctx. induction Hsame as [|m m' ms ms' [Hi _] _ IH]; simpl; [done |].
    by rewrite Hi, IH. }
  assert (Hst : next_state (init_beam true k models x)
                = next_state (init_beam true k models' x)).
  { simpl. induction Hsame as [|m m' ms ms' [Hi _] _ IH]; simpl; [done |].
    rewrite Hi. f_equal. apply IH. simpl in Hctx. by injection Hctx. }
  rewrite Hctx, Hst.
  assert (Hstep : ∀ st, greedy_step models (init_ctx models' x) k st
                        = greedy_step models' (init_ctx models' x) k st).
  { apply greedy_step_same_on_start. eapply Forall2_impl; [exact Hsame |].
    by intros m m' [_ Hn]. }
  generalize (next_state (init_beam true k models' x)) ([] : list Z) 0%R.
  induction maxlen as [|maxlen IH]; intros st s sc; simpl; [done |].
  rewrite Hstep. destruct (greedy_step models' _ k st) as [[[nw lp] st']|]; [|done].
  simpl. destruct (nw =? 0); [done | apply IH].
Qed.
End GreedyProps.

Lemma gen_sample_argmax_ignores_previous_word_witness :
  gen_sample_argmax [model_echo] tt 1 3 = gen_sample_argmax [model_go] tt 1 3.
Proof.
  apply (gen_sample_argmax_ignores_previous_word [model_echo] [model_go] tt 1 3).
  repeat constructor.
Defined.

Lemma gen_sample_argmax_go :
  gen_sample_argmax [model_go] tt 1 2
  = Some ([1%Z; 1%Z], (0 + ln (3 / 4) + ln (3 / 4))%R).
Proof.
  unfold gen_sample_argmax. cbn. decide_Rlt. reflexivity.
Qed.

Lemma gen_sample_argmax_stops_at_eos_witness : ended_or_cut 2 [1%Z; 1%Z].
Proof.
  apply (gen_sample_argmax_stops_at_eos [model_go] tt 1 2 [1%Z; 1%Z]
           (0 + ln (3 / 4) + ln (3 / 4))%R).
  apply gen_sample_argmax_go.
Defined.

Section GreedyScore.
Context {X St Ctx : Type}.
Implicit Types (models : list (@model X St Ctx)) (ctx : list Ctx).

Lemma greedy_step_log_nonpos models ctx (k voc_size nw : nat) next_state (lp : R) st' :
  Forall (returns_probabilities voc_size) models →
  greedy_step models ctx k next_state = Some (nw, lp, st') →
  (lp <= 0)%R.
Proof.
  intros Hm Hstep. unfold greedy_step in Hstep.
  destruct (zip_with _ models (zip ctx next_state)) as [|[p0 s0] outs] eqn:Houts;
    [done |].
  change (((p0, s0) :: outs).*1) with (p0 :: outs.*1) in Hstep. cbv beta iota in Hstep.
  destruct (mat_sum p0 outs.*1 !! 0) as [row|]; cbn [mbind option_bind] in Hstep; [|done].
  destruct (argmax row) as [nw'|]; cbn [mbind option_bind] in Hstep; [|done].
  destruct (p0 !! 0) as [row0|] eqn:Hrow0; cbn [mbind option_bind] in Hstep; [|done].
  destruct (row0 !! nw') as [p|] eqn:Hp; cbn [mbind option_bind] in Hstep; [|done].
  injection Hstep as <- <- <-.
  assert (Hin : (p0, s0) ∈ zip_with
                  (λ m cs, f_next m (replicate k (-1)%Z) (replicate k cs.1) cs.2)
                  models (zip ctx next_state)) by (rewrite Houts; by left).
  apply list_elem_of_lookup_1 in Hin as [i Hi].
  apply lookup_zip_with_Some in Hi as (m & cs & Heq & Hmi & _).
  rewrite Forall_forall in Hm.
  specialize (Hm m ltac:(by eapply list_elem_of_lookup_2)
                 (replicate k (-1)%Z) (replicate k cs.1) cs.2).
  rewrite <- Heq in Hm. simpl in Hm. destruct Hm as [_ Hval].
  rewrite Forall_forall in Hval.
  specialize (Hval row0 ltac:(by eapply list_elem_of_lookup_2)).
  rewrite Forall_forall in Hval.
  specialize (Hval p ltac:(by eapply list_elem_of_lookup_2)).
  rewrite <- ln_1. destruct Hval as [? [Hlt | ->]]; [|lra].
  left. by apply ln_increasing.
Qed.

(** X6: The score of greedy decoding is a log-probability, not a cost: when
    the models return probabilities in (0, 1] it is never positive (the
    scores of the beam search are never negative). *)
Theorem gen_sample_argmax_score_nonpositive models (x : X) (k maxlen voc_size : nat)
        (s : list Z) (sc : R) :
  Forall (returns_probabilities voc_size) models →
  gen_sample_argmax models x k maxlen = Some (s, sc) →
  (sc <= 0)%R.
Proof.
  intros Hm. unfold gen_sample_argmax. destruct (1 <? k); [done |].
  assert (Hgen : ∀ st s0 sc0, (sc0 <= 0)%R →
            greedy_loop models (init_ctx models x) k maxlen st s0 sc0 = Some (s, sc) →
            (sc <= 0)%R).
  { induction maxlen as [|maxlen IH]; intros st s0 sc0 Hsc0 Hloop; simpl in Hloop.
    - injection Hloop as <- <-. done.
    - destruct (greedy_step _ _ k st) as [[[nw lp] st']|] eqn:Hstep; [|done].
      pose proof (greedy_step_log_nonpos _ _ _ _ _ _ _ _ Hm Hstep) as Hlp.
      simpl in Hloop. destruct (nw =? 0).
      + injection Hloop as _ Hsc. rewrite <- Hsc. lra.
      + apply (IH st' (s0 ++ [Z.of_nat nw]) (sc0 + lp)%R); [lra | done]. }
  apply Hgen. lra.
Qed.
End GreedyScore.

Lemma gen_sample_argmax_score_nonpositive_witness :
  (0 + ln (3 / 4) + ln (3 / 4) <= 0)%R.
Proof.
  apply (gen_sample_argmax_score_nonpositive [model_go] tt 1 2 2 [1%Z; 1%Z]).
  - constructor; [apply model_go_returns_probabilities | constructor].
  - apply gen_sample_argmax_go.
Defined.

(** ** [gen_sample]: sampling *)

Lemma keep_map_negb_Forall {A} (f : A → bool) (l : list A) :
  Forall (λ x, f x = false) (keep (map negb (map f l)) l).
Proof.
  induction l as [|x l IH]; simpl; [constructor |].
  destruct (f x) eqn:Hf; simpl; [|constructor]; done.
Qed.

Lemma imap_zip_with_lookup {A B} (f : A → B → A) (l : list A) (k : list B) :
  length k = length l →
  imap (λ i x, match k !! i with Some y => f x y | None => x end) l = zip_with f l k.
Proof.
  intros Hlen. apply list_eq. intros i.
  rewrite list_lookup_imap, lookup_zip_with.
  destruct (l !! i) as [x|] eqn:Hl; simpl; [|done].
  destruct (lookup_lt_is_Some_2 k i) as [y Hy].
  { rewrite Hlen. by eapply lookup_lt_Some. }
  by rewrite Hy.
Qed.

Section SamplingProps.
Context {X St Ctx : Type}.
Implicit Types (models : list (@model X St Ctx)) (ctx : list Ctx) (b : @beam St).

(** What an iteration of the sampling loop that raises nothing has
    done to a consistent beam: every trajectory got the word drawn for
    it, a new score and one more word probability, and was then sorted
    by its last word. *)
Lemma sample_step_inv models ctx (nws : list nat) b b' stop (k : nat) :
  sampling_consistent k b →
  sample_step models ctx nws b = Some (b', stop) →
  length nws = length (hyp_samples b) ∧
  ∃ (new_scores : list R) (new_probs : list R),
    length new_scores = length nws ∧ length new_probs = length nws ∧
    let hyp_samples1 := zip_with (λ s nw, s ++ [Z.of_nat nw]) (hyp_samples b) nws in
    let word_probs1 := zip_with (λ wp p, wp ++ [p]) (word_probs b) new_probs in
    let live := map goes_on hyp_samples1 in
    let dead := map negb live in
    sample b' = sample b ++ keep dead hyp_samples1 ∧
    sample_score b' = sample_score b ++ keep dead new_scores ∧
    sample_word_probs b' = sample_word_probs b ++ keep dead word_probs1 ∧
    live_k b' = length (keep live hyp_samples1) ∧
    hyp_samples b' = keep live hyp_samples1 ∧
    hyp_scores b' = keep live new_scores ∧
    word_probs b' = keep live word_probs1 ∧
    stop = (live_k b' <? 1).
Proof.
  intros (Hlive & Hsc & Hwp & _) Hstep. unfold sample_step in Hstep.
  destruct (last (run_models models ctx b).*1) as [p_last|]; [|done].
  cbn [mbind option_bind] in Hstep.
  destruct (Nat.ltb_spec (length (hyp_samples b)) (length nws)) as [|Hle]; [done |].
  destruct (mapM (λ ti : nat, mapM (λ ns : list St, ns !! ti) _) (seq 0 (live_k b)))
    as [hyp_states|] eqn:Hstates; cbn [mbind option_bind] in Hstep; [|done].
  destruct (mapM (λ ti : nat, nws !! ti ≫= _) (seq 0 (live_k b)))
    as [updates|] eqn:Hupd; cbn [mbind option_bind] in Hstep; [|done].
  pose proof (length_mapM _ _ _ Hstates) as Hls. rewrite length_seq in Hls.
  pose proof (length_mapM _ _ _ Hupd) as Hlu. rewrite length_seq in Hlu.
  apply mapM_Some_1 in Hupd.
  assert (Hnws : length nws = length (hyp_samples b)).
  { destruct (decide (length nws < length (hyp_samples b))) as [Hlt|]; [|lia].
    exfalso.
    destruct (lookup_lt_is_Some_2 updates (length nws) ltac:(lia)) as [u Hu].
    destruct (Forall2_lookup_r _ _ _ _ _ Hupd Hu) as (ti & Hti & Hf).
    apply lookup_seq in Hti as [-> _]. simpl in Hf.
    rewrite (lookup_ge_None_2 nws (length nws)) in Hf by lia. done. }
  split; [done |].
  assert (Hs1 : imap (λ idx s, match nws !! idx with
                               | Some nw => s ++ [Z.of_nat nw]
                               | None => s
                               end) (hyp_samples b)
                = zip_with (λ s nw, s ++ [Z.of_nat nw]) (hyp_samples b) nws).
  { by apply (imap_zip_with_lookup (λ s nw, s ++ [Z.of_nat nw])). }
  assert (Hsc1 : imap (λ ti c0, match updates !! ti with Some u => u.1 | None => c0 end)
                      (hyp_scores b) = updates.*1).
  { apply list_eq. intros i. rewrite list_lookup_imap, list_lookup_fmap.
    destruct (hyp_scores b !! i) as [c0|] eqn:Hc0; simpl.
    - destruct (lookup_lt_is_Some_2 updates i) as [u Hu].
      { apply lookup_lt_Some in Hc0. lia. }
      by rewrite Hu.
    - rewrite (lookup_ge_None_2 updates i); [done |].
      apply lookup_ge_None_1 in Hc0. lia. }
  assert (Hwp1 : imap (λ ti wp, match updates !! ti with
                                | Some u => wp ++ [u.2]
                                | None => wp
                                end) (word_probs b)
                 = zip_with (λ wp p, wp ++ [p]) (word_probs b) updates.*2).
  { rewrite <- (imap_zip_with_lookup (λ wp p, wp ++ [p])) by (rewrite length_fmap; lia).
    apply imap_ext. intros i wp _. rewrite list_lookup_fmap.
    by destruct (updates !! i). }
  rewrite Hs1, Hsc1, Hwp1 in Hstep.
  set (hs1 := zip_with (λ s nw, s ++ [Z.of_nat nw]) (hyp_samples b) nws) in *.
  set (wp1 := zip_with (λ wp p, wp ++ [p]) (word_probs b) updates.*2) in *.
  assert (Hlhs1 : length hs1 = live_k b).
  { unfold hs1. rewrite length_zip_with. lia. }
  assert (Hlwp1 : length wp1 = live_k b).
  { unfold wp1. rewrite length_zip_with, length_fmap. lia. }
  set (rows := zip hs1 (zip hyp_states (zip updates.*1 wp1))) in *.
  assert (Hr1 : rows.*1 = hs1).
  { unfold rows. apply fst_zip. rewrite !length_zip, length_fmap. lia. }
  assert (Hr21 : rows.*2.*1 = hyp_states).
  { unfold rows. rewrite snd_zip by (rewrite !length_zip, length_fmap; lia).
    apply fst_zip. rewrite length_zip, length_fmap. lia. }
  assert (Hr221 : rows.*2.*2.*1 = updates.*1).
  { unfold rows. rewrite snd_zip by (rewrite !length_zip, length_fmap; lia).
    rewrite snd_zip by (rewrite length_zip, length_fmap; lia).
    apply fst_zip. rewrite length_fmap. lia. }
  assert (Hr222 : rows.*2.*2.*2 = wp1).
  { unfold rows. rewrite snd_zip by (rewrite !length_zip, length_fmap; lia).
    rewrite snd_zip by (rewrite length_zip, length_fmap; lia).
    apply snd_zip. rewrite length_fmap. lia. }
  destruct (mapM _ rows) as [lasts|] eqn:Hlasts;
    cbn [mbind option_bind] in Hstep; [|done].
  assert (Hflags : map (λ w, bool_decide (0 < w)%Z) lasts = map goes_on hs1).
  { rewrite <- Hr1. apply mapM_Some_1 in Hlasts. clear -Hlasts.
    induction Hlasts as [|row w rows' lasts' Hw Hrest IH]; simpl; [done |].
    unfold goes_on at 1. rewrite Hw. f_equal. apply IH. }
  rewrite Hflags, Hr1, Hr221, Hr222 in Hstep.
  injection Hstep as <- <-.
  exists updates.*1, updates.*2. rewrite !length_fmap. simpl.
  repeat split; lia.
Qed.
End SamplingProps.

Lemma goes_on_snoc (s : list Z) (nw : nat) :
  goes_on (s ++ [Z.of_nat nw]) = negb (nw =? 0).
Proof.
  unfold goes_on. rewrite last_snoc.
  destruct (Nat.eqb_spec nw 0) as [Hnw | Hnw]; case_bool_decide; simpl; try done; lia.
Qed.

Section SamplingLoop.
Context {X St Ctx : Type}.
Implicit Types (models : list (@model X St Ctx)) (ctx : list Ctx) (b : @beam St).

Lemma dump_remaining_lists b :
  live_k b = length (hyp_samples b) →
  length (hyp_scores b) = length (hyp_samples b) →
  length (word_probs b) = length (hyp_samples b) →
  dump_remaining b =
  Some (sample b ++ hyp_samples b, sample_score b ++ hyp_scores b,
        sample_word_probs b ++ word_probs b).
Proof.
  intros Hlive Hsc Hwp. unfold dump_remaining.
  destruct (Nat.ltb_spec 0 (live_k b)) as [Hpos | Hzero].
  - rewrite Hlive, (mapM_lookup_all (hyp_samples b)). simpl.
    rewrite <- Hsc, (mapM_lookup_all (hyp_scores b)). simpl.
    rewrite Hsc, <- Hwp, (mapM_lookup_all (word_probs b)). done.
  - assert (Hn : length (hyp_samples b) = 0) by lia.
    rewrite Hn in Hsc, Hwp.
    apply nil_length_inv in Hn, Hsc, Hwp. rewrite Hn, Hsc, Hwp.
    by rewrite !app_nil_r.
Qed.

Lemma sample_step_keeps models ctx (nws : list nat) b b' stop (k n : nat) :
  sampling_consistent k b →
  beam_shape n b →
  sample_step models ctx nws b = Some (b', stop) →
  sampling_consistent k b' ∧ beam_shape (S n) b' ∧ (stop = true → live_k b' = 0).
Proof.
  intros Hcons Hshape Hstep.
  pose proof (beam_shape_weaken n b Hshape) as Hfin. destruct Hshape as [Hlive _].
  destruct (sample_step_inv _ _ _ _ _ _ _ Hcons Hstep)
    as (Hnws & nsc & npr & Hlsc & Hlpr & Hs' & Hss' & Hswp' & Hlk' & Hhs' & Hhsc' & Hwp' & Hstop).
  destruct Hcons as (Hlk & Hsc & Hwp & Hssc & Hsswp & Hk).
  set (hs1 := zip_with (λ s nw, s ++ [Z.of_nat nw]) (hyp_samples b) nws) in *.
  set (wp1 := zip_with (λ wp p, wp ++ [p]) (word_probs b) npr) in *.
  assert (Hlhs1 : length hs1 = length (hyp_samples b)).
  { unfold hs1. rewrite length_zip_with. lia. }
  assert (Hlwp1 : length wp1 = length (hyp_samples b)).
  { unfold wp1. rewrite length_zip_with. lia. }
  assert (Hnew : Forall2 (λ s' wp', length wp' = length s' ∧ length s' = S n ∧
                            ∃ s nw, s' = s ++ [Z.of_nat nw] ∧ (0%Z ∉ s)) hs1 wp1).
  { apply Forall2_same_length_lookup. split; [lia |].
    intros i s' wp' Hs Hw.
    apply lookup_zip_with_Some in Hs as (s & nw & -> & Hs & _).
    apply lookup_zip_with_Some in Hw as (wp & p & -> & Hw & _).
    destruct (Forall2_lookup_lr _ _ _ _ _ _ Hlive Hs Hw) as (Hl & Hn & H0).
    rewrite !length_app. simpl. split; [lia |]. split; [lia |]. by exists s, nw. }
  pose proof (keep_split_length (map goes_on hs1) hs1 ltac:(by rewrite length_map)) as Hsplit.
  split.
  { unfold sampling_consistent. rewrite Hs', Hss', Hswp', Hlk', Hhs', Hhsc', Hwp'.
    rewrite !length_app.
    rewrite (keep_same_length (map goes_on hs1) nsc hs1) by lia.
    rewrite (keep_same_length (map goes_on hs1) wp1 hs1) by lia.
    rewrite (keep_same_length (map negb (map goes_on hs1)) nsc hs1) by lia.
    rewrite (keep_same_length (map negb (map goes_on hs1)) wp1 hs1) by lia.
    repeat split; lia. }
  split.
  - split.
    + rewrite Hhs', Hwp'.
      pose proof (keep_map_Forall goes_on hs1) as Hflags.
      pose proof (keep_Forall2 _ (map goes_on hs1) _ _ Hnew) as Hkeep.
      apply Forall2_same_length_lookup. split; [by eapply Forall2_length |].
      intros i s' wp' Hs Hw.
      destruct (Forall2_lookup_lr _ _ _ _ _ _ Hkeep Hs Hw) as (Hl & Hn & s & nw & -> & H0).
      split; [done |]. split; [done |].
      rewrite Forall_forall in Hflags.
      specialize (Hflags _ ltac:(by eapply list_elem_of_lookup_2)).
      rewrite goes_on_snoc in Hflags. apply negb_true_iff, Nat.eqb_neq in Hflags.
      rewrite elem_of_app, list_elem_of_singleton. intros [? | ?]; [done | lia].
    + rewrite Hs', Hswp'. apply Forall2_app; [done |].
      pose proof (keep_map_negb_Forall goes_on hs1) as Hflags.
      pose proof (keep_Forall2 _ (map negb (map goes_on hs1)) _ _ Hnew) as Hkeep.
      apply Forall2_same_length_lookup. split; [by eapply Forall2_length |].
      intros i s' wp' Hs Hw.
      destruct (Forall2_lookup_lr _ _ _ _ _ _ Hkeep Hs Hw) as (Hl & Hn & s & nw & -> & H0).
      split; [done |].
      rewrite Forall_forall in Hflags.
      specialize (Hflags _ ltac:(by eapply list_elem_of_lookup_2)).
      rewrite goes_on_snoc in Hflags. apply negb_false_iff, Nat.eqb_eq in Hflags.
      subst nw. exists s. repeat split; [done | lia].
  - rewrite Hstop. intros Hlt. apply Nat.ltb_lt in Hlt. lia.
Qed.

Lemma sample_loop_keeps models ctx draws (k maxlen : nat) : ∀ (ii n : nat) b b' brk,
  sampling_consistent k b →
  beam_shape n b →
  sample_loop models ctx draws ii maxlen b = Some (b', brk) →
  sampling_consistent k b' ∧
  ∃ n', n' ≤ n + maxlen ∧ beam_shape n' b' ∧
        (brk = false → n' = n + maxlen) ∧ (brk = true → live_k b' = 0).
Proof.
  induction maxlen as [|maxlen IH]; intros ii n b b' brk Hcons Hshape Hloop;
    simpl in Hloop.
  - injection Hloop as <- <-. split; [done |]. exists n.
    split; [lia |]. split; [done |]. split; [lia | done].
  - destruct (sample_step models ctx (draws ii) b) as [[b1 stop]|] eqn:Hstep; [|done].
    destruct (sample_step_keeps _ _ _ _ _ _ _ _ Hcons Hshape Hstep)
      as (Hcons1 & Hshape1 & Hstop).
    destruct stop.
    + injection Hloop as <- <-. split; [done |]. exists (S n).
      split; [lia |]. split; [done |]. split; [done | by intros _; apply Hstop].
    + destruct (IH _ _ _ _ _ Hcons1 Hshape1 Hloop) as (Hc' & n' & Hle & Hs' & Hf & Ht).
      split; [done |]. exists n'. split; [lia |]. split; [done |].
      split; [|done]. intros Hb. rewrite (Hf Hb). lia.
Qed.

(** X7: Sampling returns exactly [k] trajectories, whatever [maxlen] and the
    drawn words: each with one score and one word probability per word,
    and each either ending with its only 0 after at most [maxlen] words,
    or cut after [maxlen] words without a 0. *)
Theorem gen_sample_stochastic_returns_k models (x : X) (k maxlen : nat)
        (draws : nat → list nat)
        (ss : list (list Z)) (sc : list R) (wps : list (list R)) :
  gen_sample_stochastic models x k maxlen draws = Some (ss, sc, wps) →
  length ss = k ∧ length sc = k ∧ length wps = k ∧
  Forall2 (λ s wp, length wp = length s ∧ ended_or_cut maxlen s) ss wps.
Proof.
  unfold gen_sample_stochastic. intros Hgen.
  destruct (sample_loop _ _ _ _ _ _) as [[b brk]|] eqn:Hloop; [|done].
  simpl in Hgen.
  assert (Hinit : sampling_consistent k (init_beam true k models x)).
  { unfold sampling_consistent. simpl. rewrite !length_replicate. repeat split. }
  assert (Hshape : beam_shape 0 (init_beam true k models x)).
  { split; simpl; [|constructor].
    apply Forall2_same_length_lookup. split; [by rewrite !length_replicate |].
    intros i s wp [-> _]%lookup_replicate [-> _]%lookup_replicate.
    repeat split. by intros ?%elem_of_nil. }
  destruct (sample_loop_keeps _ _ _ _ _ _ _ _ _ _ Hinit Hshape Hloop)
    as (Hcons & n & Hn & [Hlive Hfin] & Hf & Ht).
  destruct Hcons as (Hlk & Hsc & Hwp & Hssc & Hsswp & Hk).
  rewrite (dump_remaining_lists b Hlk Hsc Hwp) in Hgen. injection Hgen as <- <- <-.
  rewrite !length_app.
  split; [lia |]. split; [lia |]. split; [lia |].
  apply Forall2_app.
  - eapply Forall2_impl; [exact Hfin |].
    intros s wp (Hl & s0 & -> & H0 & Hlen). split; [done |]. left. exists s0.
    repeat split; try done. simpl in *. lia.
  - destruct brk.
    + assert (Hnil : hyp_samples b = []).
      { apply nil_length_inv. specialize (Ht eq_refl). lia. }
      rewrite Hnil in Hlive. apply Forall2_nil_inv_l in Hlive. rewrite Hnil, Hlive.
      constructor.
    + rewrite (Hf eq_refl) in Hlive. simpl in Hlive.
      eapply Forall2_impl; [exact Hlive |].
      intros s wp (Hl & Hlen & H0). split; [done |]. by right.
Qed.
End SamplingLoop.

Lemma gen_sample_stochastic_go :
  gen_sample_stochastic [model_go] tt 2 2 draws_two
  = Some ([[0%Z]; [1%Z; 0%Z]],
          [(0 - ln (1 / 4))%R; (0 - ln (3 / 4) - ln (1 / 4))%R],
          [[(1 / 4)%R]; [(3 / 4)%R; (1 / 4)%R]]).
Proof. reflexivity. Qed.

Lemma gen_sample_stochastic_returns_k_witness :
  length [[0%Z]; [1%Z; 0%Z]] = 2 ∧
  length [(0 - ln (1 / 4))%R; (0 - ln (3 / 4) - ln (1 / 4))%R] = 2 ∧
  length [[(1 / 4)%R]; [(3 / 4)%R; (1 / 4)%R]] = 2 ∧
  Forall2 (λ s wp, length wp = length s ∧ ended_or_cut 2 s)
          [[0%Z]; [1%Z; 0%Z]] [[(1 / 4)%R]; [(3 / 4)%R; (1 / 4)%R]].
Proof.
  apply (gen_sample_stochastic_returns_k [model_go] tt 2 2 draws_two
           [[0%Z]; [1%Z; 0%Z]] [(0 - ln (1 / 4))%R; (0 - ln (3 / 4) - ln (1 / 4))%R]).
  apply gen_sample_stochastic_go.
Defined.

(** *** Sampling follows the last model of the ensemble *)

Lemma keep_fmap {A B} (g : A → B) (flags : list bool) (l : list A) :
  keep flags (g <$> l) = g <$> keep flags l.
Proof.
  revert l. induction flags as [|f fs IH]; intros [|x l]; simpl; try done.
  destruct f; simpl; by rewrite IH.
Qed.

Lemma zip_fmap_middle {A B C D} (g : B → D) (a : list A) (h : list B) (z : list C) :
  zip a (zip (g <$> h) z) = (λ row, (row.1, (g row.2.1, row.2.2))) <$> zip a (zip h z).
Proof.
  revert h z. induction a as [|x a IH]; intros [|y h] [|w z]; simpl; try done.
  by rewrite IH.
Qed.

Lemma transpose_snoc {A} (n : nat) (rows : list (list A)) :
  transpose (S n) rows = transpose n rows ++ [omap (λ r, r !! n) rows].
Proof. unfold transpose. by rewrite seq_S, map_app. Qed.

Lemma transpose_length {A} (n : nat) (rows : list (list A)) :
  length (transpose n rows) = n.
Proof. unfold transpose. by rewrite length_map, length_seq. Qed.

Lemma omap_fmap {A B C} (f : B → option C) (g : A → B) (l : list A) :
  omap f (g <$> l) = omap (λ x, f (g x)) l.
Proof.
  induction l as [|x l IH]; [done |].
  change (omap f (g <$> x :: l))
    with (match f (g x) with Some y => y :: omap f (g <$> l) | None => omap f (g <$> l) end).
  by rewrite IH.
Qed.

Lemma mapM_fmap_arg {A B C} (f : B → option C) (g : A → B) (l : list A) :
  mapM f (g <$> l) = mapM (λ x, f (g x)) l.
Proof.
  induction l as [|x l IH]; [done |].
  change (mapM f (g <$> x :: l)) with (y ← f (g x); k ← mapM f (g <$> l); mret (y :: k)).
  by rewrite IH.
Qed.

Section LastModel.
Context {X St Ctx : Type}.
Implicit Types (b : @beam St) (m : @model X St Ctx).

Lemma run_models_snoc (ms : list (@model X St Ctx)) m (cs : list Ctx) (c : Ctx) b
      (sts : list (list St)) (st : list St) :
  length cs = length ms → length sts = length ms →
  next_state b = sts ++ [st] →
  ∃ pre, length pre = length ms ∧
    run_models (ms ++ [m]) (cs ++ [c]) b
    = pre ++ [f_next m (next_w b) (replicate (live_k b) c) st] ∧
    run_models [m] [c] (only_last (length ms) b)
    = [f_next m (next_w b) (replicate (live_k b) c) st].
Proof.
  intros Hcs Hsts Hns. unfold run_models. rewrite Hns. simpl.
  rewrite Hns, drop_app_length' by done. simpl.
  rewrite (zip_with_app pair cs [c] sts [st]) by lia.
  rewrite zip_with_app by (rewrite length_zip; lia). simpl.
  eexists. split; [|split; [reflexivity | done]].
  rewrite length_zip_with, length_zip. lia.
Qed.
End LastModel.

Lemma mapM_snoc_last {A B} (f : A → option B) (l : list A) (y : A) (row : list B) :
  mapM f (l ++ [y]) = Some row → mapM f [y] = Some (drop (length l) row).
Proof.
  intros Hrow. apply mapM_Some_1 in Hrow.
  apply Forall2_app_inv_l in Hrow as (r1 & r2 & H1 & H2 & ->).
  rewrite (Forall2_length _ _ _ H1), drop_app_length. by apply mapM_Some_2.
Qed.

Section LastModelStep.
Context {X St Ctx : Type}.
Implicit Types (b : @beam St) (m : @model X St Ctx).

Lemma sample_step_only_last (ms : list (@model X St Ctx)) m (cs : list Ctx) (c : Ctx)
      (nws : list nat) b b' stop (sts : list (list St)) (st : list St) :
  length cs = length ms → length sts = length ms →
  next_state b = sts ++ [st] →
  sample_step (ms ++ [m]) (cs ++ [c]) nws b = Some (b', stop) →
  sample_step [m] [c] nws (only_last (length ms) b)
    = Some (only_last (length ms) b', stop) ∧
  ∃ sts' st', length sts' = length ms ∧ next_state b' = sts' ++ [st'].
Proof.
  intros Hcs Hsts Hns Hstep.
  destruct (run_models_snoc ms m cs c b sts st Hcs Hsts Hns) as (pre & Hpre & Hrun1 & Hrun2).
  unfold sample_step in *. rewrite Hrun2. rewrite Hrun1 in Hstep.
  set (o := f_next m (next_w b) (replicate (live_k b) c) st) in *.
  rewrite !fmap_app in Hstep.
  change ([o].*1) with [o.1] in *. change ([o].*2) with [o.2] in *.
  rewrite last_snoc in Hstep. change (last [o.1]) with (Some o.1).
  cbn [mbind option_bind] in Hstep |- *.
  cbn [only_last hyp_samples hyp_scores word_probs live_k sample sample_score
       sample_word_probs dead_k next_w].
  destruct (length (hyp_samples b) <? length nws); [done |].
  destruct (mapM (λ ti : nat, mapM (λ ns : list St, ns !! ti) _) (seq 0 (live_k b)))
    as [hs|] eqn:Hstates; cbn [mbind option_bind] in Hstep; [|done].
  assert (Hstates2 : mapM (λ ti : nat, mapM (λ ns : list St, ns !! ti) [o.2])
                          (seq 0 (live_k b)) = Some (drop (length ms) <$> hs)).
  { apply mapM_Some_2. apply mapM_Some_1 in Hstates.
    apply Forall2_fmap_r. eapply Forall2_impl; [exact Hstates |].
    intros ti row Hrow. simpl in Hrow. apply mapM_snoc_last in Hrow.
    by rewrite length_fmap, Hpre in Hrow. }
  rewrite Hstates2. cbn [mbind option_bind].
  destruct (mapM (λ ti : nat, nws !! ti ≫= _) (seq 0 (live_k b)))
    as [updates|] eqn:Hupd; cbn [mbind option_bind] in Hstep |- *; [|done].
  rewrite zip_fmap_middle.
  set (hs1 := imap _ (hyp_samples b)) in *.
  set (sc1 := imap _ (hyp_scores b)) in *.
  set (wp1 := imap _ (word_probs b)) in *.
  set (rows := zip hs1 (zip hs (zip sc1 wp1))) in *.
  set (G := λ row : list Z * (list St * (R * list R)),
              (row.1, (drop (length ms) row.2.1, row.2.2))).
  rewrite mapM_fmap_arg.
  destruct (mapM (λ row : list Z * (list St * (R * list R)), last row.1) rows)
    as [lasts|] eqn:Hlasts; cbn [mbind option_bind] in Hstep; [|done].
  change (mapM (λ x, last (G x).1) rows) with (mapM (λ row, last row.1) rows).
  rewrite Hlasts. cbn [mbind option_bind].
  assert (H1 : (G <$> rows).*1 = rows.*1).
  { rewrite <- list_fmap_compose. by apply list_fmap_ext. }
  assert (H21 : (G <$> rows).*2.*1 = drop (length ms) <$> rows.*2.*1).
  { rewrite <- !list_fmap_compose. by apply list_fmap_ext. }
  assert (H221 : (G <$> rows).*2.*2.*1 = rows.*2.*2.*1).
  { rewrite <- !list_fmap_compose. by apply list_fmap_ext. }
  assert (H222 : (G <$> rows).*2.*2.*2 = rows.*2.*2.*2).
  { rewrite <- !list_fmap_compose. by apply list_fmap_ext. }
  rewrite H1, H21, H221, H222.
  injection Hstep as <- <-.
  set (live := map (λ w, bool_decide (0 < w)%Z) lasts).
  set (stop := length (keep live rows.*1) <? 1).
  split.
  - f_equal. f_equal. unfold only_last. cbn [sample sample_score sample_word_probs
      live_k dead_k hyp_samples hyp_scores word_probs next_w next_state].
    f_equal. destruct stop; cbv iota.
    + rewrite drop_app_length'; [done |]. by rewrite length_fmap, Hpre.
    + replace (length (ms ++ [m])) with (S (length ms))
        by (rewrite length_app; simpl; lia).
      rewrite (transpose_snoc (length ms)).
      rewrite drop_app_length' by (by rewrite transpose_length).
      rewrite (keep_fmap (drop (length ms))).
      unfold transpose. simpl. f_equal. rewrite omap_fmap.
      apply list_omap_ext. apply Forall2_same_length_lookup.
      split; [done |]. intros i r r' Hr Hr'. rewrite Hr in Hr'. injection Hr' as <-.
      rewrite lookup_drop. f_equal. lia.
  - cbn [next_state]. destruct stop.
    + exists pre.*2, o.2. split; [by rewrite length_fmap | done].
    + replace (length (ms ++ [m])) with (S (length ms))
        by (rewrite length_app; simpl; lia).
      rewrite (transpose_snoc (length ms)).
      eexists _, _. split; [apply transpose_length | done].
Qed.
End LastModelStep.

Section LastModelLoop.
Context {X St Ctx : Type}.
Implicit Types (b : @beam St) (m : @model X St Ctx).

Lemma sample_loop_only_last (ms : list (@model X St Ctx)) m (cs : list Ctx) (c : Ctx)
      (draws : nat → list nat) (maxlen : nat) :
  length cs = length ms →
  ∀ (ii : nat) b b' brk (sts : list (list St)) (st : list St),
    length sts = length ms →
    next_state b = sts ++ [st] →
    sample_loop (ms ++ [m]) (cs ++ [c]) draws ii maxlen b = Some (b', brk) →
    sample_loop [m] [c] draws ii maxlen (only_last (length ms) b)
    = Some (only_last (length ms) b', brk).
Proof.
  intros Hcs. induction maxlen as [|maxlen IH]; intros ii b b' brk sts st Hsts Hns Hloop;
    simpl in Hloop |- *.
  - by injection Hloop as <- <-.
  - destruct (sample_step (ms ++ [m]) (cs ++ [c]) (draws ii) b) as [[b1 stop]|] eqn:Hstep;
      [|done].
    destruct (sample_step_only_last _ _ _ _ _ _ _ _ _ _ Hcs Hsts Hns Hstep)
      as (Hstep2 & sts' & st' & Hsts' & Hns').
    rewrite Hstep2. destruct stop.
    + by injection Hloop as <- <-.
    + by apply (IH _ _ _ _ sts' st').
Qed.

(** X8: "Sampling is currently performed according to the last model only"
    (line 1193): whenever sampling with an ensemble returns, sampling
    with its last model alone returns the same trajectories, scores and
    word probabilities for the same drawn words. *)
Theorem gen_sample_stochastic_follows_last_model (ms : list (@model X St Ctx)) m
        (x : X) (k maxlen : nat) (draws : nat → list nat)
        (r : list (list Z) * list R * list (list R)) :
  gen_sample_stochastic (ms ++ [m]) x k maxlen draws = Some r →
  gen_sample_stochastic [m] x k maxlen draws = Some r.
Proof.
  unfold gen_sample_stochastic. intros Hgen.
  destruct (sample_loop (ms ++ [m]) _ _ _ _ _) as [[b brk]|] eqn:Hloop; [|done].
  simpl in Hgen.
  assert (Hctx : init_ctx (ms ++ [m]) x = init_ctx ms x ++ init_ctx [m] x).
  { unfold init_ctx. by rewrite map_app. }
  rewrite Hctx in Hloop.
  assert (Hinit : only_last (length ms) (init_beam true k (ms ++ [m]) x)
                  = init_beam true k [m] x).
  { unfold only_last, init_beam. simpl. f_equal.
    rewrite map_app. rewrite drop_app_length'; [done |]. by rewrite length_map. }
  apply (sample_loop_only_last ms m (init_ctx ms x) (f_init m x).2 draws maxlen
           ltac:(unfold init_ctx; by rewrite length_map) 0 _ _ _
           (map (λ m0, replicate k (f_init m0 x).1) ms) (replicate k (f_init m x).1))
    in Hloop.
  - rewrite Hinit in Hloop. unfold init_ctx at 1. simpl. rewrite Hloop. simpl.
    exact Hgen.
  - by rewrite length_map.
  - simpl. by rewrite map_app.
Qed.
End LastModelLoop.

Lemma gen_sample_stochastic_half_go :
  gen_sample_stochastic ([model_half] ++ [model_go]) tt 2 2 draws_two
  = Some ([[0%Z]; [1%Z; 0%Z]],
          [(0 - ln (1 / 4))%R; (0 - ln (3 / 4) - ln (1 / 4))%R],
          [[(1 / 4)%R]; [(3 / 4)%R; (1 / 4)%R]]).
Proof. reflexivity. Qed.

Lemma gen_sample_stochastic_follows_last_model_witness :
  gen_sample_stochastic [model_go] tt 2 2 draws_two
  = Some ([[0%Z]; [1%Z; 0%Z]],
          [(0 - ln (1 / 4))%R; (0 - ln (3 / 4) - ln (1 / 4))%R],
          [[(1 / 4)%R]; [(3 / 4)%R; (1 / 4)%R]]).
Proof.
  apply (gen_sample_stochastic_follows_last_model [model_half] model_go tt 2 2 draws_two).
  apply gen_sample_stochastic_half_go.
Defined.

(** ** [Translator._send_jobs_multisource] *)

Lemma zip_lines_nonempty (input_ : list string) : ∀ aux_input_,
  Forall (λ line, line ≠ []) (zip_lines input_ aux_input_).
Proof.
  induction input_ as [|l rest IH]; intros aux; simpl; [constructor |].
  destruct (mapM head aux); [|constructor].
  constructor; [done | apply IH].
Qed.

(** There is no line to send exactly when the main input or one of the
    auxiliary inputs is empty. *)
Lemma zip_lines_nil (input_ : list string) (aux_input_ : list (list string)) :
  zip_lines input_ aux_input_ = [] ↔ input_ = [] ∨ [] ∈ aux_input_.
Proof.
  destruct input_ as [|l rest]; simpl.
  - split; [by left | done].
  - destruct (mapM head aux_input_) as [hs|] eqn:Hh.
    + split; [done |]. intros [? | Hin]; [done |]. exfalso.
      apply mapM_Some_1 in Hh.
      apply list_elem_of_lookup_1 in Hin as [i Hi].
      destruct (Forall2_lookup_l _ _ _ _ _ Hh Hi) as (h & _ & Hhead). done.
    + split; [|done]. intros _. right.
      apply mapM_None_1 in Hh. apply Exists_exists in Hh as (a & Hin & Ha).
      destruct a; [done | done].
Qed.

Section SendJobsProps.
Context {RID Settings : Type}.
Implicit Types (word_dicts : list (list (gmap string Z))) (queued : list (@job RID Settings)).

Lemma encode_words_closed (dicts : list (gmap string Z)) (factors : nat)
      (words : list string) (x : list (list Z)) :
  encode_words dicts factors words = Encoded x →
  length x = length words ∧ Forall (λ row, length row = factors) x.
Proof.
  revert x. induction words as [|w words IH]; intros x Henc; simpl in Henc.
  - injection Henc as <-. split; [done | constructor].
  - destruct (factor_ids dicts w) as [ids|]; [|done].
    destruct (Nat.eqb_spec (length ids) factors) as [Hlen|]; [|done].
    destruct (encode_words dicts factors words) as [x'| |]; [|done|done].
    injection Henc as <-. destruct (IH x' eq_refl) as [Hl Hall].
    split; [simpl; lia | by constructor].
Qed.

Lemma encode_line_closed word_dicts (factors : nat) (line : list string) :
  ∀ (iidx : nat) (xs : list (list (list Z))),
    encode_line word_dicts factors iidx line = Encoded xs →
    length xs = length line ∧ Forall (closed_by_eos factors) xs.
Proof.
  induction line as [|input line IH]; intros iidx xs Henc; simpl in Henc.
  - injection Henc as <-. split; [done | constructor].
  - destruct (word_dicts !! iidx) as [dicts|].
    + destruct (encode_words dicts factors (py_words input)) as [x| |] eqn:Hw;
        [|done|done].
      destruct (encode_line word_dicts factors (S iidx) line) as [xs'| |] eqn:Hl;
        [|done|done].
      injection Henc as <-. destruct (IH _ _ Hl) as [Hlen Hall].
      destruct (encode_words_closed _ _ _ _ Hw) as [_ Hrows].
      split; [simpl; lia |]. constructor; [|done]. split; [by exists x |].
      apply Forall_app. split; [done |]. repeat constructor. apply length_replicate.
    + destruct (py_words input); [|done].
      destruct (encode_line word_dicts factors (S iidx) line) as [xs'| |] eqn:Hl;
        [|done|done].
      injection Henc as <-. destruct (IH _ _ Hl) as [Hlen Hall].
      split; [simpl; lia |]. constructor; [|done]. split; [by exists [] |].
      repeat constructor. apply length_replicate.
Qed.

Lemma send_lines_queued word_dicts (factors num_processes : nat) (settings : Settings)
      (request_id : RID) (lines : list (list string)) :
  ∀ (sidx : nat) queued queued',
    Forall (λ line, line ≠ []) lines →
    send_lines word_dicts factors num_processes settings request_id sidx lines queued
      = inl queued' →
    ∃ new, queued' = queued ++ new ∧
           map j_idx new = seq sidx (length lines) ∧
           Forall (λ j, j_request_id j = request_id ∧ j_settings j = settings ∧
                        Forall (closed_by_eos factors) (j_seq j :: j_aux_seq j)) new.
Proof.
  induction lines as [|line lines IH]; intros sidx queued queued' Hne Hsend;
    simpl in Hsend.
  - injection Hsend as <-. exists []. split; [by rewrite app_nil_r |].
    split; [done | constructor].
  - inversion Hne as [|? ? Hline Hrest]; subst.
    destruct (encode_line word_dicts factors 0 line) as [xs| |] eqn:Henc; [|done|done].
    destruct (IH _ _ _ Hrest Hsend) as (new & -> & Hidx & Hall).
    eexists (_ :: new). split; [by rewrite <- app_assoc |].
    split; [simpl; by rewrite Hidx |].
    constructor; [|done]. simpl. split; [done |]. split; [done |].
    destruct (encode_line_closed _ _ _ _ _ Henc) as [Hlen Hclosed].
    destruct xs as [|x xs]; [by destruct line |]. done.
Qed.

Lemma send_lines_not_sent word_dicts (factors num_processes : nat) (settings : Settings)
      (request_id : RID) (lines : list (list string)) :
  ∀ (sidx : nat) queued queued' (n : nat) (srcs : list (list (list string))),
    send_lines word_dicts factors num_processes settings request_id sidx lines queued
      ≠ inr (Sent queued' n srcs).
Proof.
  induction lines as [|line lines IH]; intros sidx queued queued' n srcs; simpl; [done |].
  destruct (encode_line word_dicts factors 0 line); [apply IH | done | done].
Qed.

(** X9: When the jobs of a request are sent, there is one item per line, at
    least one, numbered 0, 1, ... in the order of the lines and tagged
    with the request id; every sequence in an item, main or auxiliary,
    is made of rows of [factors] ids and is closed by the row of zeros. *)
Theorem send_jobs_numbered_and_closed word_dicts (factors num_processes : nat)
        (settings : Settings) (request_id : RID)
        (input_ : list string) (aux_input_ : list (list string))
        queued (n_samples : nat) (source_sentences : list (list (list string))) :
  _send_jobs_multisource word_dicts factors num_processes settings request_id
                         input_ aux_input_
    = Sent queued n_samples source_sentences →
  1 ≤ n_samples ∧
  n_samples = length (zip_lines input_ aux_input_) ∧
  map j_idx queued = seq 0 n_samples ∧
  Forall (λ j, j_request_id j = request_id ∧ j_settings j = settings ∧
               Forall (closed_by_eos factors) (j_seq j :: j_aux_seq j)) queued.
Proof.
  unfold _send_jobs_multisource. intros Hsent.
  destruct (send_lines _ _ _ _ _ 0 _ []) as [queued'|r] eqn:Hsend.
  - destruct (send_lines_queued _ _ _ _ _ _ _ _ _ (zip_lines_nonempty _ _) Hsend)
      as (new & -> & Hidx & Hall).
    destruct (zip_lines input_ aux_input_) as [|line lines]; [done |].
    injection Hsent as <- <- _. simpl in *. split; [lia |]. done.
  - subst r. by apply send_lines_not_sent in Hsend.
Qed.

(** X10: Without a complete line (an empty input, or an empty auxiliary
    input) nothing is queued and the call raises. *)
Theorem send_jobs_no_line_raises word_dicts (factors num_processes : nat)
        (settings : Settings) (request_id : RID)
        (input_ : list string) (aux_input_ : list (list string)) :
  input_ = [] ∨ [] ∈ aux_input_ →
  _send_jobs_multisource word_dicts factors num_processes settings request_id
                         input_ aux_input_
    = SentRaised [].
Proof.
  intros Hno. apply zip_lines_nil in Hno. unfold _send_jobs_multisource.
  by rewrite Hno.
Qed.

Lemma send_lines_exit word_dicts (factors num_processes : nat) (settings : Settings)
      (request_id : RID) (lines : list (list string)) :
  ∀ (sidx : nat) queued (code : Z) queued' (terminated : list nat),
    send_lines word_dicts factors num_processes settings request_id sidx lines queued
      = inr (SentExit code queued' terminated) →
    code = 1%Z ∧ terminated = seq 0 num_processes ∧
    ∃ new, queued' = queued ++ new ∧ length new < length lines ∧
           map j_idx new = seq sidx (length new).
Proof.
  induction lines as [|line lines IH]; intros sidx queued code queued' terminated Hsend;
    simpl in Hsend; [done |].
  destruct (encode_line word_dicts factors 0 line) as [xs| |] eqn:Henc.
  - destruct (IH _ _ _ _ _ Hsend) as (-> & -> & new & -> & Hlen & Hidx).
    split; [done |]. split; [done |].
    eexists (_ :: new). split; [by rewrite <- app_assoc |].
    split; [simpl; lia |]. simpl. by rewrite Hidx.
  - injection Hsend as <- <- <-. split; [done |]. split; [done |].
    exists []. split; [by rewrite app_nil_r |]. split; [simpl; lia | done].
  - done.
Qed.

(** X11: A word with a wrong number of factors is fatal: [terminate] is
    called on every worker and the exit status is 1.  The items of the
    lines before it have been queued and stay queued. *)
Theorem send_jobs_wrong_factors_fatal word_dicts (factors num_processes : nat)
        (settings : Settings) (request_id : RID)
        (input_ : list string) (aux_input_ : list (list string))
        (code : Z) queued (terminated : list nat) :
  _send_jobs_multisource word_dicts factors num_processes settings request_id
                         input_ aux_input_
    = SentExit code queued terminated →
  code = 1%Z ∧ terminated = seq 0 num_processes ∧
  length queued < length (zip_lines input_ aux_input_) ∧
  map j_idx queued = seq 0 (length queued).
Proof.
  unfold _send_jobs_multisource. intros Hsent.
  destruct (send_lines _ _ _ _ _ 0 _ []) as [queued'|r] eqn:Hsend.
  - by destruct (zip_lines input_ aux_input_).
  - subst r. destruct (send_lines_exit _ _ _ _ _ _ _ _ _ _ _ Hsend)
      as (-> & -> & new & -> & Hlen & Hidx). done.
Qed.
End SendJobsProps.

Lemma send_jobs_two_lines :
  _send_jobs_multisource word_dicts_two 1 2 tt 7
                         ["a b"%string; " b  c "%string] [["b"%string; "a a"%string]]
  = Sent [job_0; job_1] 2
         [[["a"%string; "b"%string]; ["b"%string; "c"%string]];
          [["b"%string]; ["a"%string; "a"%string]]].
Proof. vm_compute. reflexivity. Qed.

Lemma send_jobs_numbered_and_closed_witness :
  1 ≤ 2 ∧
  2 = length (zip_lines ["a b"%string; " b  c "%string] [["b"%string; "a a"%string]]) ∧
  map j_idx [job_0; job_1] = seq 0 2 ∧
  Forall (λ j, j_request_id j = 7 ∧ j_settings j = tt ∧
               Forall (closed_by_eos 1) (j_seq j :: j_aux_seq j)) [job_0; job_1].
Proof.
  apply (send_jobs_numbered_and_closed word_dicts_two 1 2 tt 7
           ["a b"%string; " b  c "%string] [["b"%string; "a a"%string]] [job_0; job_1] 2
           [[["a"%string; "b"%string]; ["b"%string; "c"%string]];
            [["b"%string]; ["a"%string; "a"%string]]]).
  apply send_jobs_two_lines.
Defined.

Lemma send_jobs_no_line_raises_witness :
  _send_jobs_multisource word_dicts_two 1 2 tt 7 ["a b"%string] [[]] = SentRaised [].
Proof.
  apply (send_jobs_no_line_raises word_dicts_two 1 2 tt 7 ["a b"%string] [[]]).
  right. constructor.
Defined.

Lemma send_jobs_second_line_wrong :
  _send_jobs_multisource word_dicts_factored 1 2 tt 7
                         ["a"%string; "a b|x"%string; "b"%string] []
  = SentExit 1 [job_a] [0; 1].
Proof. vm_compute. reflexivity. Qed.

Lemma send_jobs_wrong_factors_fatal_witness :
  1%Z = 1%Z ∧ [0; 1] = seq 0 2 ∧
  length [job_a] < length (zip_lines ["a"%string; "a b|x"%string; "b"%string] []) ∧
  map j_idx [job_a] = seq 0 (length [job_a]).
Proof.
  apply (send_jobs_wrong_factors_fatal word_dicts_factored 1 2 tt 7
           ["a"%string; "a b|x"%string; "b"%string] [] 1 [job_a] [0; 1]).
  apply send_jobs_second_line_wrong.
Defined.

(** ** Sending the lines of a request and collecting their results *)

Section SendAndRetrieve.
Context `{Countable RID} {Settings Item : Type}.

(** The results of items numbered 0, 1, ... for one request, arriving in
    whatever order, are yielded by number. *)
Lemma retrieve_numbered_jobs (queued done_ : list (@job RID Settings)) (n_samples : nat)
      (request_id : RID) (work : @job RID Settings → Item)
      (buffer : gmap RID (gmap nat Item)) (queue : list (@queue_event RID Item)) :
  map j_idx queued = seq 0 n_samples →
  Forall (λ j, j_request_id j = request_id) queued →
  done_ ≡ₚ queued →
  entry request_id buffer = ∅ →
  _retrieve_jobs n_samples request_id buffer
                 ((worker_response work <$> done_) ++ queue)
  = Yielded (work <$> queued) (delete request_id buffer) queue.
Proof.
  intros Hidx Hall Hperm Hempty.
  set (results := (λ j, (j_idx j, work j)) <$> done_).
  assert (Hresp : worker_response work <$> done_
                  = map (λ r, Resp request_id r.1 r.2) results).
  { unfold results. rewrite <- list_fmap_compose. apply Forall_fmap_ext.
    rewrite Hperm. eapply Forall_impl; [exact Hall |].
    intros j Hrid. unfold worker_response. simpl. by rewrite Hrid. }
  destruct (retrieve_jobs_same_request_in_order n_samples request_id buffer results queue)
    as (items & Hret & Hlen & Hitems); [done | |].
  { unfold results. rewrite <- list_fmap_compose.
    change (fst ∘ _) with (@j_idx RID Settings). rewrite Hperm. by rewrite <- Hidx. }
  rewrite Hresp, Hret. f_equal.
  assert (Hn : length queued = n_samples).
  { rewrite <- (length_map j_idx), Hidx. apply length_seq. }
  apply list_eq. intros i. rewrite list_lookup_fmap.
  destruct (queued !! i) as [j|] eqn:Hj; simpl.
  - apply Hitems. unfold results. apply list_elem_of_fmap. exists j.
    split; [|rewrite Hperm; by eapply list_elem_of_lookup_2].
    f_equal. assert (Hi : map j_idx queued !! i = Some (j_idx j)).
    { change (map j_idx queued) with (j_idx <$> queued). by rewrite list_lookup_fmap, Hj. }
    rewrite Hidx in Hi. apply lookup_seq in Hi. lia.
  - apply lookup_ge_None. apply lookup_ge_None in Hj. lia.
Qed.

(** What [Sent] says about the items, for the proofs that follow. *)
Lemma sent_jobs_inv (word_dicts : list (list (gmap string Z))) (factors num_processes : nat)
      (settings : Settings) (request_id : RID)
      (input_ : list string) (aux_input_ : list (list string))
      (queued : list (@job RID Settings)) (n_samples : nat)
      (source_sentences : list (list (list string))) :
  _send_jobs_multisource word_dicts factors num_processes settings request_id
                         input_ aux_input_
    = Sent queued n_samples source_sentences →
  n_samples = length (zip_lines input_ aux_input_) ∧
  1 ≤ n_samples ∧
  map j_idx queued = seq 0 n_samples ∧
  Forall (λ j, j_request_id j = request_id) queued ∧
  source_sentences
  = map (λ iidx, map (λ line, py_words (default EmptyString (line !! iidx)))
                     (zip_lines input_ aux_input_))
        (seq 0 (S (length aux_input_))).
Proof.
  intros Hsent. unfold _send_jobs_multisource in Hsent.
  destruct (send_lines _ _ _ _ _ 0 _ []) as [queued'|r] eqn:Hsend;
    [|subst r; by apply send_lines_not_sent in Hsend].
  destruct (send_lines_queued _ _ _ _ _ _ _ _ _ (zip_lines_nonempty _ _) Hsend)
    as (new & -> & Hidx & Hall).
  destruct (zip_lines input_ aux_input_) as [|line lines] eqn:Hlines; [done |].
  injection Hsent as <- <- <-. cbn [app length] in *.
  split; [done |]. split; [lia |]. split; [done |]. split; [|done].
  eapply Forall_impl; [exact Hall |]. by intros j (? & _).
Qed.

(** X12: The lines of a request are sent, the workers answer every item, in
    whatever order, and nothing of the request was buffered before: the
    generator yields the results in the order of the lines, and leaves
    the rest of the output queue and the buffers of other requests
    alone. *)
Theorem sent_jobs_retrieved_in_line_order
        (word_dicts : list (list (gmap string Z))) (factors num_processes : nat)
        (settings : Settings) (request_id : RID)
        (input_ : list string) (aux_input_ : list (list string))
        (queued done_ : list (@job RID Settings)) (n_samples : nat)
        (source_sentences : list (list (list string)))
        (work : @job RID Settings → Item)
        (buffer : gmap RID (gmap nat Item)) (queue : list (@queue_event RID Item)) :
  _send_jobs_multisource word_dicts factors num_processes settings request_id
                         input_ aux_input_
    = Sent queued n_samples source_sentences →
  done_ ≡ₚ queued →
  entry request_id buffer = ∅ →
  _retrieve_jobs n_samples request_id buffer
                 ((worker_response work <$> done_) ++ queue)
  = Yielded (work <$> queued) (delete request_id buffer) queue.
Proof.
  intros Hsent Hperm Hempty.
  destruct (sent_jobs_inv _ _ _ _ _ _ _ _ _ _ Hsent) as (_ & _ & Hidx & Hall & _).
  by apply retrieve_numbered_jobs.
Qed.
End SendAndRetrieve.

Lemma sent_jobs_retrieved_in_line_order_witness :
  _retrieve_jobs 2 7 (∅ : gmap nat (gmap nat (list (list Z))))
                 ((worker_response j_seq <$> [job_1; job_0]) ++ [Empty []])
  = Yielded (j_seq <$> [job_0; job_1]) (delete 7 ∅) [Empty []].
Proof.
  apply (sent_jobs_retrieved_in_line_order word_dicts_two 1 2 tt 7
           ["a b"%string; " b  c "%string] [["b"%string; "a a"%string]]
           [job_0; job_1] [job_1; job_0] 2
           [[["a"%string; "b"%string]; ["b"%string; "c"%string]];
            [["b"%string]; ["a"%string; "a"%string]]]).
  - apply send_jobs_two_lines.
  - apply perm_swap.
  - reflexivity.
Defined.

(** ** [Translator._build_dictionaries] *)

Section BuildDictionariesProps.
Context {D : Type} (load_dict : D → gmap string Z)
        (iteritems : gmap string Z → list (string * Z)).

Lemma aux_groups_index_error (nums : list nat) (extra : list D) (m : nat) :
  ∀ (a totalnum : nat) (groups : list (list D)),
    0 < m → length nums < a + m →
    aux_groups nums extra (seq a m) totalnum groups = None.
Proof.
  induction m as [|m IH]; intros a totalnum groups Hm Hlen; [lia |].
  simpl. destruct (nums !! a) as [num|] eqn:Hnum; [|done]. simpl.
  apply lookup_lt_Some in Hnum. apply IH; lia.
Qed.

Lemma aux_groups_ones (nums : list nat) (extra : list D) (m : nat) :
  Forall (λ num, num = 1) nums →
  ∀ (a : nat) (groups : list (list D)),
    a + m ≤ length nums →
    aux_groups nums extra (seq a m) a groups
    = Some (groups ++ map (λ i, take 1 (drop i extra)) (seq a m)).
Proof.
  intros Hones. induction m as [|m IH]; intros a groups Hlen; simpl.
  - by rewrite app_nil_r.
  - destruct (lookup_lt_is_Some_2 nums a) as [num Hnum]; [lia |].
    rewrite Hnum. simpl.
    assert (num = 1) as ->.
    { rewrite Forall_lookup in Hones. by apply (Hones a). }
    replace (a + 1) with (S a) by lia. rewrite IH by lia.
    replace (S a - a) with 1 by lia. by rewrite <- app_assoc.
Qed.

Lemma sum_list_ge_length (nums : list nat) :
  Forall (λ num, 1 ≤ num) nums → length nums ≤ sum_list nums.
Proof. induction 1; simpl; lia. Qed.

Lemma sum_list_ones (nums : list nat) :
  Forall (λ num, 1 ≤ num) nums → sum_list nums ≤ length nums →
  Forall (λ num, num = 1) nums.
Proof.
  induction 1 as [|num nums Hnum Hall IH]; simpl; intros Hsum; [constructor |].
  pose proof (sum_list_ge_length nums Hall).
  constructor; [lia | apply IH; lia].
Qed.

Lemma sum_list_all_ones (nums : list nat) :
  Forall (λ num, num = 1) nums → sum_list nums = length nums.
Proof. induction 1; simpl; lia. Qed.

(** X13: For a multi-source model in which every auxiliary input has at
    least one dictionary, the dictionaries are built exactly when every
    auxiliary input has one dictionary; an auxiliary input with two
    dictionaries or more is an [IndexError]. *)
Theorem build_dictionaries_one_per_aux_input (o : @model_options D) (num_encoders : nat) :
  dictionaries o ≠ [] →
  Forall (λ num, 1 ≤ num) (extra_source_dicts_nums o) →
  is_Some (_build_dictionaries load_dict iteritems o true num_encoders)
  ↔ Forall (λ num, num = 1) (extra_source_dicts_nums o).
Proof.
  intros Hdicts Hnums. unfold _build_dictionaries, aux_dictionaries.
  destruct (last (dictionaries o)) as [dictionary_target|] eqn:Hlast;
    [|apply last_None in Hlast; done].
  cbn [mbind option_bind].
  set (nums := extra_source_dicts_nums o) in *.
  destruct (decide (sum_list nums ≤ length nums)) as [Hle|Hgt].
  - pose proof (sum_list_ones nums Hnums Hle) as Hones.
    split; [done |]. intros _.
    rewrite (aux_groups_ones nums _ _ Hones 0 []) by (simpl; lia). by eexists.
  - split.
    + rewrite aux_groups_index_error by (simpl; lia). by intros [? ?].
    + intros Hones. rewrite (sum_list_all_ones nums Hones) in Hgt. lia.
Qed.

(** X14: With one dictionary per auxiliary input, auxiliary input [i] is
    encoded with dictionary [i] of [extra_source_dicts], and with that
    one only. *)
Theorem build_dictionaries_aux_input_dictionary (o : @model_options D) (num_encoders : nat)
        (b : built) (i : nat) (dictionary : D) :
  Forall (λ num, num = 1) (extra_source_dicts_nums o) →
  _build_dictionaries load_dict iteritems o true num_encoders = Some b →
  i < length (extra_source_dicts_nums o) →
  extra_source_dicts o !! i = Some dictionary →
  _word_dicts b !! S i = Some [prune (n_words_src o) (load_dict dictionary)].
Proof.
  intros Hones Hbuilt Hi Hdict. unfold _build_dictionaries, aux_dictionaries in Hbuilt.
  destruct (last (dictionaries o)) as [dictionary_target|]; [|done].
  cbn [mbind option_bind] in Hbuilt.
  rewrite (sum_list_all_ones _ Hones) in Hbuilt.
  rewrite (aux_groups_ones _ _ _ Hones 0 []) in Hbuilt by (simpl; lia).
  cbn [mbind option_bind app] in Hbuilt.
  destruct (map _ (seq 0 (length (extra_source_dicts_nums o)))) as [|g gs] eqn:Hgroups.
  { apply (f_equal length) in Hgroups. rewrite length_map, length_seq in Hgroups.
    simpl in Hgroups. lia. }
  rewrite <- Hgroups in Hbuilt. injection Hbuilt as <-. cbn [_word_dicts].
  cbn [map]. rewrite lookup_cons. cbn iota.
  change (map ?f ?l !! i) with ((f <$> l) !! i). rewrite list_lookup_fmap.
  change (map ?f ?l !! i) with ((f <$> l) !! i). rewrite list_lookup_fmap.
  rewrite lookup_seq_lt by done. simpl.
  by rewrite (drop_S _ _ _ Hdict).
Qed.

Lemma invert_fold_sound (l : list (string * Z)) (i : Z) (w : string) :
  foldl (λ (word_idict : gmap Z string) (kv : string * Z), <[kv.2 := kv.1]> word_idict)
        ∅ l !! i = Some w →
  (w, i) ∈ l.
Proof.
  induction l as [|[w' i'] l IH] using rev_ind; [simpl; by rewrite lookup_empty |].
  rewrite foldl_app. simpl. intros Hl. apply elem_of_app.
  destruct (decide (i' = i)) as [->|Hne].
  - rewrite lookup_insert_eq in Hl. injection Hl as ->. right. by apply list_elem_of_singleton.
  - rewrite lookup_insert_ne in Hl by done. left. by apply IH.
Qed.

Lemma invert_fold_complete (l : list (string * Z)) (i : Z) (w : string) :
  (∀ w1 w2 j, (w1, j) ∈ l → (w2, j) ∈ l → w1 = w2) →
  (w, i) ∈ l →
  foldl (λ (word_idict : gmap Z string) (kv : string * Z), <[kv.2 := kv.1]> word_idict)
        ∅ l !! i = Some w.
Proof.
  induction l as [|[w' i'] l IH] using rev_ind; intros Hinj Hin; [by apply elem_of_nil in Hin |].
  rewrite foldl_app. simpl.
  destruct (decide (i' = i)) as [->|Hne].
  - rewrite lookup_insert_eq. f_equal. apply (Hinj w' w i).
    + apply elem_of_app. right. by apply list_elem_of_singleton.
    + done.
  - rewrite lookup_insert_ne by done. apply IH.
    + intros w1 w2 j H1 H2. apply (Hinj w1 w2 j); apply elem_of_app; by left.
    + apply elem_of_app in Hin as [Hin|Hin]; [done |].
      apply list_elem_of_singleton in Hin. congruence.
Qed.

Section Inverse.
Hypothesis iteritems_items : ∀ word_dict, iteritems word_dict ≡ₚ map_to_list word_dict.

Lemma invert_spec (word_dict : gmap string Z) (i : Z) (w : string) :
  (∀ w1 w2 j, word_dict !! w1 = Some j → word_dict !! w2 = Some j → w1 = w2) →
  invert iteritems word_dict !! i = Some w
  ↔ (i = 0%Z ∧ w = "<eos>"%string) ∨ (i = 1%Z ∧ w = "UNK"%string) ∨
    (i ≠ 0%Z ∧ i ≠ 1%Z ∧ word_dict !! w = Some i).
Proof.
  intros Hinj. unfold invert.
  destruct (decide (i = 1%Z)) as [->|H1].
  { rewrite lookup_insert_eq. split.
    - intros [= <-]. right. by left.
    - intros [[? _]|[[_ ->]|(_ & ? & _)]]; done. }
  rewrite lookup_insert_ne by done.
  destruct (decide (i = 0%Z)) as [->|H0].
  { rewrite lookup_insert_eq. split.
    - intros [= <-]. by left.
    - intros [[_ ->]|[[? _]|(? & _ & _)]]; done. }
  rewrite lookup_insert_ne by done. split.
  - intros Hl. apply invert_fold_sound in Hl. rewrite iteritems_items in Hl.
    apply elem_of_map_to_list in Hl. right. right. done.
  - intros [[? _]|[[? _]|(_ & _ & Hw)]]; [done | done |].
    apply invert_fold_complete.
    + intros w1 w2 j Hw1 Hw2. rewrite iteritems_items in Hw1, Hw2.
      apply elem_of_map_to_list in Hw1, Hw2. by apply (Hinj w1 w2 j).
    + rewrite iteritems_items. by apply elem_of_map_to_list.
Qed.

(** X15: The inverse dictionary built for factor [f] of input [a] undoes the
    dictionary built for it, when no two words of that dictionary share
    an index: index 0 reads "<eos>", index 1 reads "UNK", and any other
    index reads the word that the dictionary sends to it, if there is
    one. *)
Theorem build_dictionaries_inverse (o : @model_options D) (multisource : bool)
        (num_encoders : nat) (b : built) (a f : nat) (word_dict : gmap string Z) :
  _build_dictionaries load_dict iteritems o multisource num_encoders = Some b →
  _word_dicts b !! a ≫= (.!! f) = Some word_dict →
  (∀ w1 w2 j, word_dict !! w1 = Some j → word_dict !! w2 = Some j → w1 = w2) →
  ∃ word_idict,
    _word_idicts b !! a ≫= (.!! f) = Some word_idict ∧
    ∀ i w, word_idict !! i = Some w
           ↔ (i = 0%Z ∧ w = "<eos>"%string) ∨ (i = 1%Z ∧ w = "UNK"%string) ∨
             (i ≠ 0%Z ∧ i ≠ 1%Z ∧ word_dict !! w = Some i).
Proof.
  intros Hbuilt Hdict Hinj. unfold _build_dictionaries in Hbuilt.
  destruct (last (dictionaries o)) as [dictionary_target|]; [|done].
  cbn [mbind option_bind] in Hbuilt.
  destruct (aux_dictionaries o multisource num_encoders _) as [aux|]; [|done].
  cbn [mbind option_bind] in Hbuilt. injection Hbuilt as <-. cbn [_word_dicts _word_idicts] in *.
  exists (invert iteritems word_dict). split; [|intros i w; by apply invert_spec].
  set (word_dicts := _ :: _) in Hdict.
  change (_ :: _) with (map (map (invert iteritems)) word_dicts). clearbody word_dicts.
  change (map ?g ?l !! a) with ((g <$> l) !! a). rewrite list_lookup_fmap.
  destruct (_ !! a) as [group|] eqn:Hgroup; [|done]. simpl in *.
  change (map ?g ?l !! f) with ((g <$> l) !! f). rewrite list_lookup_fmap.
  by rewrite Hdict.
Qed.
End Inverse.
End BuildDictionariesProps.

Lemma build_dictionaries_ab :
  _build_dictionaries (λ _ : unit, dict_ab) map_to_list options_ab true 2 = Some built_ab.
Proof. vm_compute. reflexivity. Qed.

Lemma build_dictionaries_one_per_aux_input_witness :
  is_Some (_build_dictionaries (λ _ : unit, dict_ab) map_to_list options_ab true 2)
  ↔ Forall (λ num, num = 1) (extra_source_dicts_nums options_ab).
Proof.
  apply (build_dictionaries_one_per_aux_input (λ _ : unit, dict_ab) map_to_list options_ab 2).
  - discriminate.
  - repeat constructor.
Defined.

Lemma build_dictionaries_aux_input_dictionary_witness :
  _word_dicts built_ab !! 1 = Some [prune (IntSize 3) dict_ab].
Proof.
  apply (build_dictionaries_aux_input_dictionary (λ _ : unit, dict_ab) map_to_list
           options_ab 2 built_ab 0 tt).
  - repeat constructor.
  - apply build_dictionaries_ab.
  - simpl. lia.
  - reflexivity.
Defined.

Lemma dict_a_injective (w1 w2 : string) (j : Z) :
  dict_a !! w1 = Some j → dict_a !! w2 = Some j → w1 = w2.
Proof.
  unfold dict_a. intros H1 H2.
  apply lookup_singleton_Some in H1 as [<- _].
  apply lookup_singleton_Some in H2 as [<- _]. done.
Qed.

Lemma build_dictionaries_inverse_witness :
  ∃ word_idict,
    _word_idicts built_ab !! 1 ≫= (.!! 0) = Some word_idict ∧
    ∀ i w, word_idict !! i = Some w
           ↔ (i = 0%Z ∧ w = "<eos>"%string) ∨ (i = 1%Z ∧ w = "UNK"%string) ∨
             (i ≠ 0%Z ∧ i ≠ 1%Z ∧ dict_a !! w = Some i).
Proof.
  apply (build_dictionaries_inverse (λ _ : unit, dict_ab) map_to_list
           (λ _, reflexivity _) options_ab true 2 built_ab 1 0 dict_a).
  - apply build_dictionaries_ab.
  - reflexivity.
  - apply dict_a_injective.
Defined.

(** ** The indices sent to the models stay inside the vocabulary *)

Section Vocabulary.
Context {RID Settings D : Type}.
Implicit Types (word_dicts : list (list (gmap string Z))) (queued : list (@job RID Settings)).

Lemma factor_ids_below (dicts : list (gmap string Z)) (n : Z) (w : string) (ids : list Z) :
  Forall (below n) dicts → (1 < n)%Z →
  factor_ids dicts w = Some ids → Forall (λ id, (id < n)%Z) ids.
Proof.
  intros Hdicts Hn Hids. unfold factor_ids in Hids. apply mapM_Some_1 in Hids.
  induction Hids as [|[j f] id jfs ids Hid _ IH]; constructor; [|done].
  simpl in Hid. destruct (dicts !! j) as [d|] eqn:Hd; [|done]. simpl in Hid.
  injection Hid as <-. rewrite Forall_lookup in Hdicts.
  destruct (d !! f) as [i|] eqn:Hi; simpl; [by eapply (Hdicts j d) | done].
Qed.

Lemma encode_words_below (dicts : list (gmap string Z)) (n : Z) (factors : nat)
      (words : list string) :
  Forall (below n) dicts → (1 < n)%Z →
  ∀ x, encode_words dicts factors words = Encoded x →
       Forall (Forall (λ id, (id < n)%Z)) x.
Proof.
  intros Hdicts Hn. induction words as [|w words IH]; intros x Henc; simpl in Henc.
  - injection Henc as <-. constructor.
  - destruct (factor_ids dicts w) as [ids|] eqn:Hids; [|done].
    destruct (length ids =? factors); [|done].
    destruct (encode_words dicts factors words) as [x'| |]; [|done|done].
    injection Henc as <-. constructor; [by eapply factor_ids_below | by apply IH].
Qed.

Lemma encode_line_below word_dicts (n : Z) (factors : nat) (line : list string) :
  Forall (Forall (below n)) word_dicts → (1 < n)%Z →
  ∀ iidx xs, encode_line word_dicts factors iidx line = Encoded xs →
             Forall (Forall (Forall (λ id, (id < n)%Z))) xs.
Proof.
  intros Hdicts Hn.
  assert (Heos : Forall (Forall (λ id, (id < n)%Z)) [replicate factors 0%Z]).
  { repeat constructor. apply Forall_replicate. lia. }
  induction line as [|input line IH]; intros iidx xs Henc; simpl in Henc.
  - injection Henc as <-. constructor.
  - destruct (word_dicts !! iidx) as [dicts|] eqn:Hd.
    + destruct (encode_words dicts factors (py_words input)) as [x| |] eqn:Hw;
        [|done|done].
      destruct (encode_line word_dicts factors (S iidx) line) as [xs'| |] eqn:Hl;
        [|done|done].
      injection Henc as <-. constructor; [|by eapply IH].
      apply Forall_app. split; [|done].
      eapply encode_words_below; [|done|done].
      rewrite Forall_lookup in Hdicts. by apply (Hdicts iidx).
    + destruct (py_words input); [|done].
      destruct (encode_line word_dicts factors (S iidx) line) as [xs'| |] eqn:Hl;
        [|done|done].
      injection Henc as <-. constructor; [done | by eapply IH].
Qed.

Lemma send_lines_below word_dicts (n : Z) (factors num_processes : nat)
      (settings : Settings) (request_id : RID) (lines : list (list string)) :
  Forall (Forall (below n)) word_dicts → (1 < n)%Z →
  ∀ sidx queued queued',
    Forall (λ j, Forall (Forall (Forall (λ id, (id < n)%Z))) (j_seq j :: j_aux_seq j)) queued →
    send_lines word_dicts factors num_processes settings request_id sidx lines queued
      = inl queued' →
    Forall (λ j, Forall (Forall (Forall (λ id, (id < n)%Z))) (j_seq j :: j_aux_seq j)) queued'.
Proof.
  intros Hdicts Hn. induction lines as [|line lines IH]; intros sidx queued queued' Hq Hsend;
    simpl in Hsend.
  - by injection Hsend as <-.
  - destruct (encode_line word_dicts factors 0 line) as [xs| |] eqn:Henc; [|done|done].
    eapply IH; [|exact Hsend].
    apply Forall_app. split; [done |]. constructor; [|constructor]. simpl.
    pose proof (encode_line_below _ _ _ _ Hdicts Hn _ _ Henc) as Hxs.
    destruct xs as [|x xs]; simpl; [repeat constructor |].
    by inversion Hxs; subst; constructor.
Qed.

Lemma prune_below (n : Z) (word_dict : gmap string Z) :
  n ≠ 0%Z → below n (prune (IntSize n) word_dict).
Proof.
  intros Hn w i Hw. unfold prune in Hw. rewrite bool_decide_eq_false_2 in Hw by done.
  apply map_lookup_filter_Some in Hw as [_ Hi]. done.
Qed.

(** X16: When the vocabulary size of the model is a number [n], 2 at least,
    every index in the items sent for a request is below [n]: the words
    that the pruned dictionaries do not know go as 1, the end of the
    sentence as 0. *)
Theorem sent_indices_below_vocabulary_size
        (load_dict : D → gmap string Z) (iteritems : gmap string Z → list (string * Z))
        (o : @model_options D) (multisource : bool) (num_encoders : nat) (b : built)
        (n : Z) (factors num_processes : nat) (settings : Settings) (request_id : RID)
        (input_ : list string) (aux_input_ : list (list string))
        queued (n_samples : nat) (source_sentences : list (list (list string))) :
  _build_dictionaries load_dict iteritems o multisource num_encoders = Some b →
  n_words_src o = IntSize n →
  (2 ≤ n)%Z →
  _send_jobs_multisource (_word_dicts b) factors num_processes settings request_id
                         input_ aux_input_
    = Sent queued n_samples source_sentences →
  Forall (λ j, Forall (Forall (Forall (λ id, (id < n)%Z))) (j_seq j :: j_aux_seq j)) queued.
Proof.
  intros Hbuilt Hsize Hn Hsent.
  assert (Hdicts : Forall (Forall (below n)) (_word_dicts b)).
  { unfold _build_dictionaries in Hbuilt.
    destruct (last (dictionaries o)); [|done]. cbn [mbind option_bind] in Hbuilt.
    destruct (aux_dictionaries o multisource num_encoders _) as [aux|]; [|done].
    cbn [mbind option_bind] in Hbuilt. injection Hbuilt as <-. cbn [_word_dicts].
    assert (Hgroup : ∀ group : list D,
               Forall (below n) ((λ dictionary, prune (n_words_src o) (load_dict dictionary))
                                   <$> group)).
    { intros group. apply Forall_fmap, Forall_forall. intros dictionary _. simpl.
      rewrite Hsize. apply prune_below. lia. }
    constructor; [apply Hgroup |].
    change (map ?g aux) with (g <$> aux).
    apply Forall_fmap, Forall_forall. intros group _. apply Hgroup. }
  unfold _send_jobs_multisource in Hsent.
  destruct (send_lines _ _ _ _ _ 0 _ []) as [queued'|r] eqn:Hsend.
  - destruct (zip_lines input_ aux_input_); [done |]. injection Hsent as <- _ _.
    eapply send_lines_below; [exact Hdicts | lia | constructor | exact Hsend].
  - subst r. by apply send_lines_not_sent in Hsend.
Qed.
End Vocabulary.

Lemma send_jobs_unknown_word :
  _send_jobs_multisource (_word_dicts built_ab) 1 2 tt 7 ["a b"%string] [["c a"%string]]
  = Sent [job_unk] 1 [[["a"%string; "b"%string]]; [["c"%string; "a"%string]]].
Proof. vm_compute. reflexivity. Qed.

Lemma sent_indices_below_vocabulary_size_witness :
  Forall (λ j, Forall (Forall (Forall (λ id, (id < 3)%Z))) (j_seq j :: j_aux_seq j))
         [job_unk].
Proof.
  apply (sent_indices_below_vocabulary_size (λ _ : unit, dict_ab) map_to_list options_ab
           true 2 built_ab 3 1 2 tt 7 ["a b"%string] [["c a"%string]] [job_unk] 1
           [[["a"%string; "b"%string]]; [["c"%string; "a"%string]]]).
  - apply build_dictionaries_ab.
  - reflexivity.
  - lia.
  - apply send_jobs_unknown_word.
Defined.

(** ** [prepare_data]: the arrays of a batch *)

Lemma cell_assign_col_same {A} (a : list (list A)) (idx : nat) (vals : list A) (t : nat) :
  cell (assign_col a idx vals) t idx
  = cell a t idx ≫= λ old, Some (default old (vals !! t)).
Proof.
  unfold cell, assign_col. rewrite list_lookup_imap.
  destruct (a !! t) as [row|]; simpl; [|done].
  destruct (vals !! t) as [v|]; simpl; [|by destruct (row !! idx)].
  destruct (row !! idx) as [old|] eqn:Hold; simpl.
  - apply list_lookup_insert_eq. by eapply lookup_lt_Some.
  - by apply list_lookup_insert_None.
Qed.

Lemma cell_assign_col_other {A} (a : list (list A)) (idx idx' : nat) (vals : list A) (t : nat) :
  idx ≠ idx' →
  cell (assign_col a idx vals) t idx' = cell a t idx'.
Proof.
  intros Hne. unfold cell, assign_col. rewrite list_lookup_imap.
  destruct (a !! t) as [row|]; simpl; [|done].
  destruct (vals !! t) as [v|]; simpl; [|done].
  by apply list_lookup_insert_ne.
Qed.

Lemma assign_col_length {A} (a : list (list A)) (idx : nat) (vals : list A) :
  length (assign_col a idx vals) = length a.
Proof. unfold assign_col. apply length_imap. Qed.

Lemma cell_zeros {A} (zero : A) (rows cols t idx : nat) :
  t < rows → idx < cols → cell (zeros zero rows cols) t idx = Some zero.
Proof.
  intros Ht Hidx. unfold cell, zeros. rewrite lookup_replicate_2 by done. simpl.
  by apply lookup_replicate_2.
Qed.

Lemma enumerate_snoc {A} (l : list A) (x : A) :
  enumerate (l ++ [x]) = enumerate l ++ [(length l, x)].
Proof.
  unfold enumerate. rewrite imap_app. simpl. by rewrite Nat.add_0_r.
Qed.

Lemma fill_all_snoc (n_factors : nat) (b : batch) (pairs : list (list (list Z) * list Z))
      (p : list (list Z) * list Z) :
  fill_all n_factors b (pairs ++ [p])
  = fill_all n_factors b pairs ≫= λ b', fill n_factors b' (length pairs) p.1 p.2.
Proof. unfold fill_all. rewrite enumerate_snoc, foldl_app. done. Qed.

(** What the loop leaves in the target arrays: column [idx] holds
    sentence [idx] in place of what was there, and the mask one 1 for
    each of its words and one more. *)
Lemma fill_all_target (n_factors : nat) (b0 : batch) (pairs : list (list (list Z) * list Z)) :
  ∀ b, fill_all n_factors b0 pairs = Some b →
  length (b_y b) = length (b_y b0) ∧
  length (b_y_mask b) = length (b_y_mask b0) ∧
  ∀ t idx,
    cell (b_y b) t idx
    = match pairs !! idx with
      | Some p => cell (b_y b0) t idx ≫= λ old, Some (default old (p.2 !! t))
      | None => cell (b_y b0) t idx
      end ∧
    cell (b_y_mask b) t idx
    = match pairs !! idx with
      | Some p => cell (b_y_mask b0) t idx
                    ≫= λ old, Some (if bool_decide (t ≤ length p.2) then 1%R else old)
      | None => cell (b_y_mask b0) t idx
      end.
Proof.
  induction pairs as [|p pairs IH] using rev_ind; intros b Hfill.
  - injection Hfill as <-. done.
  - rewrite fill_all_snoc in Hfill.
    destruct (fill_all n_factors b0 pairs) as [b1|]; [|done]. simpl in Hfill.
    destruct (IH b1 eq_refl) as (Hly & Hlm & Hcells).
    unfold fill in Hfill.
    destruct (broadcast_factors n_factors p.1) as [value|]; [|done].
    injection Hfill as <-. cbn [b_y b_y_mask].
    rewrite !assign_col_length. split; [done |]. split; [done |].
    intros t idx. destruct (Hcells t idx) as [Hy Hm].
    destruct (decide (idx = length pairs)) as [->|Hne].
    + rewrite !cell_assign_col_same, Hy, Hm.
      rewrite lookup_app_r, Nat.sub_diag by lia. simpl.
      rewrite (proj2 (lookup_ge_None pairs (length pairs))) by lia.
      split; [done |]. destruct (cell (b_y_mask b0) t (length pairs)) as [old|]; [|done].
      simpl. f_equal. case_bool_decide.
      * rewrite lookup_replicate_2 by lia. done.
      * rewrite (proj1 (lookup_replicate_None _ _ _)) by lia. done.
    + rewrite !cell_assign_col_other by done. rewrite Hy, Hm.
      destruct (decide (idx < length pairs)).
      * by rewrite lookup_app_l by done.
      * rewrite (proj2 (lookup_ge_None (pairs ++ [p]) idx))
          by (rewrite length_app; simpl; lia).
        by rewrite (proj2 (lookup_ge_None pairs idx)) by lia.
Qed.

Lemma broadcast_factors_length (n_factors : nat) (s_x : list (list Z)) (value : list (list Z)) :
  broadcast_factors n_factors s_x = Some value → length value = n_factors.
Proof.
  unfold broadcast_factors. destruct s_x as [|w ws].
  - intros [= <-]. apply length_replicate.
  - destruct (Nat.eqb_spec (length (zip_star (w :: ws))) 0); [done |].
    destruct (Nat.eqb_spec (length (zip_star (w :: ws))) n_factors); [congruence |].
    destruct (Nat.eqb_spec (length (zip_star (w :: ws))) 1); [|done].
    intros [= <-]. apply length_replicate.
Qed.

(** What the loop leaves in the source arrays. *)
Lemma fill_all_source (n_factors : nat) (b0 : batch) (pairs : list (list (list Z) * list Z)) :
  length (b_x b0) = n_factors →
  ∀ b, fill_all n_factors b0 pairs = Some b →
  length (b_x b) = n_factors ∧
  length (b_x_mask b) = length (b_x_mask b0) ∧
  ∀ t idx,
    (∀ f, (b_x b !! f ≫= λ x_f, cell x_f t idx)
          = match pairs !! idx with
            | Some p =>
                (b_x b0 !! f ≫= λ x_f, cell x_f t idx)
                  ≫= λ old, value ← broadcast_factors n_factors p.1;
                            Some (default old (value !! f ≫= (.!! t)))
            | None => b_x b0 !! f ≫= λ x_f, cell x_f t idx
            end) ∧
    cell (b_x_mask b) t idx
    = match pairs !! idx with
      | Some p => cell (b_x_mask b0) t idx
                    ≫= λ old, Some (if bool_decide (t ≤ length p.1) then 1%R else old)
      | None => cell (b_x_mask b0) t idx
      end.
Proof.
  intros Hb0. induction pairs as [|p pairs IH] using rev_ind; intros b Hfill.
  - injection Hfill as <-. done.
  - rewrite fill_all_snoc in Hfill.
    destruct (fill_all n_factors b0 pairs) as [b1|]; [|done]. simpl in Hfill.
    destruct (IH b1 eq_refl) as (Hlx & Hlm & Hcells).
    unfold fill in Hfill.
    destruct (broadcast_factors n_factors p.1) as [value|] eqn:Hvalue; [|done].
    pose proof (broadcast_factors_length _ _ _ Hvalue) as Hlv.
    injection Hfill as <-. cbn [b_x b_x_mask].
    rewrite assign_col_length. split; [rewrite length_zip_with; lia |]. split; [done |].
    intros t idx. destruct (Hcells t idx) as [Hx Hm].
    destruct (decide (idx = length pairs)) as [->|Hne].
    + rewrite lookup_app_r, Nat.sub_diag by lia. cbn [lookup list_lookup].
      rewrite (proj2 (lookup_ge_None pairs (length pairs))) in Hx, Hm by lia.
      split.
      * intros f. rewrite lookup_zip_with, <- (Hx f), Hvalue.
        destruct (b_x b1 !! f) as [x_f|] eqn:Hxf; simpl; [|done].
        destruct (value !! f) as [row|] eqn:Hrow; simpl.
        -- rewrite cell_assign_col_same. by destruct (cell x_f t (length pairs)).
        -- apply lookup_lt_Some in Hxf. apply lookup_ge_None in Hrow. lia.
      * rewrite cell_assign_col_same, Hm.
        destruct (cell (b_x_mask b0) t (length pairs)) as [old|]; [|done].
        simpl. f_equal. case_bool_decide.
        -- by rewrite lookup_replicate_2 by lia.
        -- by rewrite (proj1 (lookup_replicate_None _ _ _)) by lia.
    + assert (Hsame : (pairs ++ [p]) !! idx = pairs !! idx).
      { destruct (decide (idx < length pairs)); [by rewrite lookup_app_l by done |].
        rewrite (proj2 (lookup_ge_None (pairs ++ [p]) idx))
          by (rewrite length_app; simpl; lia).
        by rewrite (proj2 (lookup_ge_None pairs idx)) by lia. }
      rewrite Hsame. split.
      * intros f. rewrite <- (Hx f), lookup_zip_with.
        destruct (b_x b1 !! f) as [x_f|] eqn:Hxf; simpl; [|done].
        destruct (value !! f) as [row|] eqn:Hrow; simpl.
        -- by rewrite cell_assign_col_other by done.
        -- apply lookup_lt_Some in Hxf. apply lookup_ge_None in Hrow. lia.
      * by rewrite cell_assign_col_other by done.
Qed.

Lemma numpy_max_bound (lengths : list nat) (m n : nat) :
  numpy_max lengths = Some m → n ∈ lengths → n ≤ m.
Proof.
  unfold numpy_max. destruct lengths; [done |]. intros [= <-]. apply max_list_elem_of_le.
Qed.

Lemma zip_lookup_Some {A B} (l : list A) (k : list B) (i : nat) (x : A) (y : B) :
  zip l k !! i = Some (x, y) → l !! i = Some x ∧ k !! i = Some y.
Proof.
  rewrite lookup_zip_with.
  destruct (l !! i); simpl; [|done]. destruct (k !! i); simpl; [|done].
  by intros [= -> ->].
Qed.

Lemma build_batch_target (n_factors : nat) (seqs_x : list (list (list Z)))
      (seqs_y : list (list Z)) (b : batch) (idx : nat) (s_x : list (list Z)) (s_y : list Z) :
  build_batch n_factors seqs_x seqs_y = Batch b →
  zip seqs_x seqs_y !! idx = Some (s_x, s_y) →
  length s_y < length (b_y b) ∧ length (b_y_mask b) = length (b_y b) ∧
  ∀ t, t < length (b_y b) →
       cell (b_y b) t idx = Some (default 0%Z (s_y !! t)) ∧
       cell (b_y_mask b) t idx = Some (if bool_decide (t ≤ length s_y) then 1%R else 0%R).
Proof.
  intros Hbuild Hpair. unfold build_batch in Hbuild.
  destruct (numpy_max (length <$> seqs_x)) as [max_x|] eqn:Hmx; [|done].
  destruct (numpy_max (length <$> seqs_y)) as [max_y|] eqn:Hmy; [|done].
  destruct (fill_all _ _ _) as [b'|] eqn:Hfill; [|done]. injection Hbuild as ->.
  destruct (fill_all_target _ _ _ _ Hfill) as (Hly & Hlm & Hcells).
  cbn [b_y b_y_mask] in Hly, Hlm, Hcells. unfold zeros in Hly, Hlm.
  rewrite length_replicate in Hly. rewrite length_replicate in Hlm.
  destruct (zip_lookup_Some _ _ _ _ _ Hpair) as [Hsx Hsy].
  assert (Hlen : length s_y ≤ max_y).
  { apply (numpy_max_bound _ _ _ Hmy). apply list_elem_of_fmap. exists s_y.
    split; [done | by eapply list_elem_of_lookup_2]. }
  split; [lia |]. split; [lia |]. intros t Ht.
  destruct (Hcells t idx) as [Hy Hm]. rewrite Hpair in Hy, Hm.
  apply lookup_lt_Some in Hsx.
  rewrite cell_zeros in Hy by lia. rewrite cell_zeros in Hm by lia. simpl in Hy, Hm. done.
Qed.

Lemma omap_lookup_factor (n_factors f t : nat) (s_x : list (list Z)) :
  Forall (λ w, length w = n_factors) s_x → f < n_factors →
  omap (λ w, w !! f) s_x !! t = s_x !! t ≫= (.!! f).
Proof.
  intros Hall Hf. revert t. induction Hall as [|w ws Hw _ IH]; intros t; [done |].
  simpl. destruct (lookup_lt_is_Some_2 w f) as [v Hv]; [lia |]. rewrite Hv.
  destruct t; simpl; [done | apply IH].
Qed.

Lemma min_length_factors (n_factors : nat) (w : list Z) (ws : list (list Z)) :
  Forall (λ w, length w = n_factors) (w :: ws) →
  foldr (λ w' n, length w' `min` n) (length w) ws = n_factors.
Proof.
  intros Hall. apply Forall_cons in Hall as [Hw Hws].
  induction Hws as [|w' ws Hw' _ IH]; simpl; [done | lia].
Qed.

Lemma broadcast_factors_full (n_factors : nat) (s_x : list (list Z)) :
  0 < n_factors → Forall (λ w, length w = n_factors) s_x →
  ∃ value, broadcast_factors n_factors s_x = Some value ∧
           ∀ f t, f < n_factors → value !! f ≫= (.!! t) = s_x !! t ≫= (.!! f).
Proof.
  intros Hn Hall. unfold broadcast_factors. destruct s_x as [|w ws].
  - eexists. split; [done |]. intros f t Hf. by rewrite lookup_replicate_2 by done.
  - unfold zip_star. rewrite (min_length_factors n_factors) by done.
    unfold transpose. rewrite length_map, length_seq.
    destruct (Nat.eqb_spec n_factors 0); [lia |]. rewrite Nat.eqb_refl.
    eexists. split; [done |]. intros f t Hf.
    change (map ?g ?l !! f) with ((g <$> l) !! f).
    rewrite list_lookup_fmap, lookup_seq_lt by done. cbn [fmap option_fmap option_map mbind option_bind plus].
    by apply (omap_lookup_factor n_factors).
Qed.

Lemma build_batch_source (n_factors : nat) (seqs_x : list (list (list Z)))
      (seqs_y : list (list Z)) (b : batch) (idx : nat) (s_x : list (list Z)) (s_y : list Z) :
  build_batch n_factors seqs_x seqs_y = Batch b →
  zip seqs_x seqs_y !! idx = Some (s_x, s_y) →
  0 < n_factors →
  Forall (λ w, length w = n_factors) s_x →
  length s_x < length (b_x_mask b) ∧ length (b_x b) = n_factors ∧
  ∀ t, t < length (b_x_mask b) →
       cell (b_x_mask b) t idx = Some (if bool_decide (t ≤ length s_x) then 1%R else 0%R) ∧
       ∀ f, f < n_factors →
            b_x b !! f ≫= (λ x_f, cell x_f t idx) = Some (default 0%Z (s_x !! t ≫= (.!! f))).
Proof.
  intros Hbuild Hpair Hn Hwords. unfold build_batch in Hbuild.
  destruct (numpy_max (length <$> seqs_x)) as [max_x|] eqn:Hmx; [|done].
  destruct (numpy_max (length <$> seqs_y)) as [max_y|] eqn:Hmy; [|done].
  destruct (fill_all _ _ _) as [b'|] eqn:Hfill; [|done]. injection Hbuild as ->.
  apply fill_all_source in Hfill as (Hlx & Hlm & Hcells); [|apply length_replicate].
  cbn [b_x b_x_mask] in Hlm, Hcells. unfold zeros in Hlm at 1.
  rewrite length_replicate in Hlm.
  destruct (zip_lookup_Some _ _ _ _ _ Hpair) as [Hsx Hsy].
  assert (Hlen : length s_x ≤ max_x).
  { apply (numpy_max_bound _ _ _ Hmx). apply list_elem_of_fmap. exists s_x.
    split; [done | by eapply list_elem_of_lookup_2]. }
  split; [lia |]. split; [done |]. intros t Ht.
  destruct (Hcells t idx) as [Hx Hm]. rewrite Hpair in Hx, Hm.
  apply lookup_lt_Some in Hsx.
  rewrite cell_zeros in Hm by lia. split; [done |]. intros f Hf.
  rewrite (Hx f), lookup_replicate_2 by done. cbn [mbind option_bind].
  rewrite cell_zeros by lia. cbn [mbind option_bind fst].
  destruct (broadcast_factors_full n_factors s_x Hn Hwords) as (value & -> & Hvalue).
  cbn [mbind option_bind]. by rewrite Hvalue.
Qed.


Lemma build_batch_not_nothing (n_factors : nat) (seqs_x : list (list (list Z)))
      (seqs_y : list (list Z)) :
  build_batch n_factors seqs_x seqs_y ≠ Nothing.
Proof.
  unfold build_batch. destruct (numpy_max _); [|done]. destruct (numpy_max _); [|done].
  by destruct (fill_all _ _ _).
Qed.

Lemma filter_nil_Forall {A} (f : A → bool) (l : list A) :
  List.filter f l = [] ↔ Forall (λ x, f x = false) l.
Proof.
  induction l as [|x l IH]; simpl; [by split; [constructor |] |].
  destruct (f x) eqn:Hx.
  - split; [done |]. intros [? _]%Forall_cons. congruence.
  - rewrite IH. split; [by constructor | by intros [_ ?]%Forall_cons].
Qed.

(** X17: [prepare_data] gives up, with four [None]s, exactly when [maxlen] is
    given and no pair has both sentences shorter than [maxlen]; without
    [maxlen] it never does. *)
Theorem prepare_data_nothing_iff_no_short_pair
        (seqs_x : list (list (list Z))) (seqs_y : list (list Z))
        (maxlen : option Z) (n_factors : nat) :
  prepare_data seqs_x seqs_y maxlen n_factors = Nothing
  ↔ ∃ m, maxlen = Some m ∧
         Forall (λ p, ¬ ((Z.of_nat (length p.1) < m)%Z ∧ (Z.of_nat (length p.2) < m)%Z))
                (zip seqs_x seqs_y).
Proof.
  unfold prepare_data. destruct maxlen as [m|].
  - assert (Hkept : keep_short m seqs_x seqs_y = []
                    ↔ Forall (λ p, ¬ ((Z.of_nat (length p.1) < m)%Z
                                      ∧ (Z.of_nat (length p.2) < m)%Z))
                             (zip seqs_x seqs_y)).
    { unfold keep_short. rewrite filter_nil_Forall. apply Forall_proper; [|done].
      intros p. rewrite andb_false_iff, !bool_decide_eq_false. tauto. }
    destruct (keep_short m seqs_x seqs_y) as [|p kept] eqn:Hk; simpl.
    + split; [|done]. intros _. exists m. split; [done |]. by apply Hkept.
    + split; [by intros ?%build_batch_not_nothing |].
      intros (m' & [= <-] & Hall). by apply Hkept in Hall.
  - split; [by intros ?%build_batch_not_nothing | by intros (m & ? & _)].
Qed.



(** X19: In the target arrays of the batch, the column of a pair holds the
    words of its target sentence and then zeros, at least one; the mask
    of the column is 1 on the words and on the first zero after them,
    and 0 from there on. *)
Theorem prepare_data_target_columns
        (seqs_x : list (list (list Z))) (seqs_y : list (list Z))
        (maxlen : option Z) (n_factors : nat) (b : batch)
        (idx : nat) (s_x : list (list Z)) (s_y : list Z) :
  prepare_data seqs_x seqs_y maxlen n_factors = Batch b →
  batch_pairs seqs_x seqs_y maxlen !! idx = Some (s_x, s_y) →
  length s_y < length (b_y b) ∧ length (b_y_mask b) = length (b_y b) ∧
  ∀ t, t < length (b_y b) →
       cell (b_y b) t idx = Some (default 0%Z (s_y !! t)) ∧
       cell (b_y_mask b) t idx = Some (if bool_decide (t ≤ length s_y) then 1%R else 0%R).
Proof.
  unfold prepare_data, batch_pairs. destruct maxlen as [m|]; [|apply build_batch_target].
  destruct (length (keep_short m seqs_x seqs_y) <? 1); [done |].
  intros Hbuild Hpair. eapply build_batch_target; [exact Hbuild |].
  by rewrite zip_fst_snd.
Qed.

(** X20: In the source arrays of the batch, the column of a pair whose words
    all have [n_factors] factors holds, for every factor, that factor
    of the words of the source sentence and then zeros, at least one;
    the mask of the column is 1 on the words and on the first zero
    after them, and 0 from there on. *)
Theorem prepare_data_source_columns
        (seqs_x : list (list (list Z))) (seqs_y : list (list Z))
        (maxlen : option Z) (n_factors : nat) (b : batch)
        (idx : nat) (s_x : list (list Z)) (s_y : list Z) :
  prepare_data seqs_x seqs_y maxlen n_factors = Batch b →
  batch_pairs seqs_x seqs_y maxlen !! idx = Some (s_x, s_y) →
  0 < n_factors →
  Forall (λ w, length w = n_factors) s_x →
  length s_x < length (b_x_mask b) ∧ length (b_x b) = n_factors ∧
  ∀ t, t < length (b_x_mask b) →
       cell (b_x_mask b) t idx = Some (if bool_decide (t ≤ length s_x) then 1%R else 0%R) ∧
       ∀ f, f < n_factors →
            b_x b !! f ≫= (λ x_f, cell x_f t idx) = Some (default 0%Z (s_x !! t ≫= (.!! f))).
Proof.
  unfold prepare_data, batch_pairs. destruct maxlen as [m|]; [|apply build_batch_source].
  destruct (length (keep_short m seqs_x seqs_y) <? 1); [done |].
  intros Hbuild Hpair. eapply build_batch_source; [exact Hbuild |].
  by rewrite zip_fst_snd.
Qed.

Lemma prepare_data_two_pairs :
  prepare_data [[[5%Z]; [6%Z]]; [[7%Z]]] [[8%Z]; [9%Z; 10%Z; 11%Z]] (Some 4%Z) 1
  = Batch {| b_x := [[[5%Z; 7%Z]; [6%Z; 0%Z]; [0%Z; 0%Z]]];
             b_x_mask := [[1%R; 1%R]; [1%R; 1%R]; [1%R; 0%R]];
             b_y := [[8%Z; 9%Z]; [0%Z; 10%Z]; [0%Z; 11%Z]; [0%Z; 0%Z]];
             b_y_mask := [[1%R; 1%R]; [1%R; 1%R]; [0%R; 1%R]; [0%R; 1%R]] |}.
Proof. reflexivity. Qed.


Lemma prepare_data_target_columns_witness :
  length [9%Z; 10%Z; 11%Z] < length [[8%Z; 9%Z]; [0%Z; 10%Z]; [0%Z; 11%Z]; [0%Z; 0%Z]] ∧
  length [[1%R; 1%R]; [1%R; 1%R]; [0%R; 1%R]; [0%R; 1%R]]
  = length [[8%Z; 9%Z]; [0%Z; 10%Z]; [0%Z; 11%Z]; [0%Z; 0%Z]] ∧
  ∀ t, t < length [[8%Z; 9%Z]; [0%Z; 10%Z]; [0%Z; 11%Z]; [0%Z; 0%Z]] →
       cell [[8%Z; 9%Z]; [0%Z; 10%Z]; [0%Z; 11%Z]; [0%Z; 0%Z]] t 1
       = Some (default 0%Z ([9%Z; 10%Z; 11%Z] !! t)) ∧
       cell [[1%R; 1%R]; [1%R; 1%R]; [0%R; 1%R]; [0%R; 1%R]] t 1
       = Some (if bool_decide (t ≤ length [9%Z; 10%Z; 11%Z]) then 1%R else 0%R).
Proof.
  apply (prepare_data_target_columns
           [[[5%Z]; [6%Z]]; [[7%Z]]] [[8%Z]; [9%Z; 10%Z; 11%Z]] (Some 4%Z) 1
           {| b_x := [[[5%Z; 7%Z]; [6%Z; 0%Z]; [0%Z; 0%Z]]];
              b_x_mask := [[1%R; 1%R]; [1%R; 1%R]; [1%R; 0%R]];
              b_y := [[8%Z; 9%Z]; [0%Z; 10%Z]; [0%Z; 11%Z]; [0%Z; 0%Z]];
              b_y_mask := [[1%R; 1%R]; [1%R; 1%R]; [0%R; 1%R]; [0%R; 1%R]] |}
           1 [[7%Z]] [9%Z; 10%Z; 11%Z]).
  - apply prepare_data_two_pairs.
  - reflexivity.
Defined.

Lemma prepare_data_source_columns_witness :
  length [[5%Z]; [6%Z]] < length [[1%R; 1%R]; [1%R; 1%R]; [1%R; 0%R]] ∧
  length [[[5%Z; 7%Z]; [6%Z; 0%Z]; [0%Z; 0%Z]]] = 1 ∧
  ∀ t, t < length [[1%R; 1%R]; [1%R; 1%R]; [1%R; 0%R]] →
       cell [[1%R; 1%R]; [1%R; 1%R]; [1%R; 0%R]] t 0
       = Some (if bool_decide (t ≤ length [[5%Z]; [6%Z]]) then 1%R else 0%R) ∧
       ∀ f, f < 1 →
            [[[5%Z; 7%Z]; [6%Z; 0%Z]; [0%Z; 0%Z]]] !! f ≫= (λ x_f, cell x_f t 0)
            = Some (default 0%Z ([[5%Z]; [6%Z]] !! t ≫= (.!! f))).
Proof.
  apply (prepare_data_source_columns
           [[[5%Z]; [6%Z]]; [[7%Z]]] [[8%Z]; [9%Z; 10%Z; 11%Z]] (Some 4%Z) 1
           {| b_x := [[[5%Z; 7%Z]; [6%Z; 0%Z]; [0%Z; 0%Z]]];
              b_x_mask := [[1%R; 1%R]; [1%R; 1%R]; [1%R; 0%R]];
              b_y := [[8%Z; 9%Z]; [0%Z; 10%Z]; [0%Z; 11%Z]; [0%Z; 0%Z]];
              b_y_mask := [[1%R; 1%R]; [1%R; 1%R]; [0%R; 1%R]; [0%R; 1%R]] |}
           0 [[5%Z]; [6%Z]] [8%Z]).
  - apply prepare_data_two_pairs.
  - reflexivity.
  - lia.
  - repeat constructor.
Defined.


(** ** [Translator.translate]: one translation per line *)

Lemma zip_lines_line_length (input_ : list string) : ∀ aux_input_,
  Forall (λ line, length line = S (length aux_input_)) (zip_lines input_ aux_input_).
Proof.
  induction input_ as [|l rest IH]; intros aux; simpl; [constructor |].
  destruct (mapM head aux) as [hs|] eqn:Hhs; [|constructor].
  constructor.
  - simpl. f_equal. symmetry. by eapply length_mapM.
  - specialize (IH (map tail aux)). by rewrite length_map in IH.
Qed.

Lemma lookups_from_one {X} (line : list X) (g : option X → list string) (n : nat) :
  length line = S n →
  map (λ iidx, g (line !! iidx)) (seq 1 n) = (λ x, g (Some x)) <$> tail line.
Proof.
  intros Hlen. destruct line as [|x line]; [done |]. simpl in *.
  injection Hlen as <-. apply list_eq. intros i.
  change (map ?f ?l !! i) with ((f <$> l) !! i). rewrite !list_lookup_fmap.
  destruct (line !! i) as [y|] eqn:Hy; simpl.
  - rewrite lookup_seq_lt by (by eapply lookup_lt_Some). simpl. by rewrite Hy.
  - by rewrite lookup_seq_ge by (by apply lookup_ge_None).
Qed.

Section TranslateProps.
Context `{Countable RID} {Settings A G : Type}.
Implicit Types (ts : @translation_settings RID Settings).

Lemma translate_loop_snoc (num_encoders : nat) (seqs2words : list Z → list string) ts
      (aux_given : bool) (srcs : list (list (list string)))
      (items : list (@output_item A G)) (it : @output_item A G) :
  translate_loop num_encoders seqs2words ts aux_given srcs (items ++ [it])
  = match translate_loop num_encoders seqs2words ts aux_given srcs items with
    | inl translations =>
        match translate_one num_encoders seqs2words ts aux_given srcs translations
                            (length items) it with
        | inl translation => inl (translations ++ [translation])
        | inr e => inr e
        end
    | inr e => inr e
    end.
Proof. unfold translate_loop. by rewrite enumerate_snoc, foldl_app. Qed.

Lemma translate_loop_each (num_encoders : nat) (seqs2words : list Z → list string) ts
      (aux_given : bool) (srcs : list (list (list string)))
      (f : nat → @output_item A G → @translated_entry A G) (items : list (@output_item A G)) :
  (∀ i it translations, items !! i = Some it →
     translate_one num_encoders seqs2words ts aux_given srcs translations i it
     = inl (f i it)) →
  translate_loop num_encoders seqs2words ts aux_given srcs items = inl (imap f items).
Proof.
  induction items as [|it items IH] using rev_ind; intros Hone; [done |].
  rewrite translate_loop_snoc, IH.
  - rewrite Hone by (by rewrite lookup_app_r, Nat.sub_diag by lia).
    rewrite imap_app. simpl. by rewrite Nat.add_0_r.
  - intros i it' translations Hi. apply Hone. apply lookup_app_l_Some. done.
Qed.

(** X21: With the n-best list switched off and the auxiliary sentences taken
    from the input: when the lines of a request are sent, the workers
    answer every item with a single best hypothesis, in whatever order,
    and nothing of the request was buffered before, [translate] returns
    one translation per line, in the order of the lines.  Translation
    [i] has the sentence id [i] and no hypothesis id; its source words
    are the words of the main input of line [i], its auxiliary words
    those of the auxiliary inputs of that line, and its target words,
    score and word probabilities are those of the answer to item
    [i]. *)
Theorem translate_one_translation_per_line
        (word_dicts : list (list (gmap string Z))) (factors num_processes num_encoders : nat)
        (seqs2words : list Z → list string) ts
        (source_segments : list string) (aux_source_segments : list (list string))
        (queued done_ : list (@job RID Settings)) (n_samples : nat)
        (source_sentences : list (list (list string)))
        (work : @job RID Settings → @output_item A G)
        (buffer : gmap RID (gmap nat (@output_item A G)))
        (queue : list (@queue_event RID (@output_item A G))) :
  ts_n_best ts = false →
  ts_predicted_trg ts = false ∨ aux_source_segments = [] →
  _send_jobs_multisource word_dicts factors num_processes (ts_decoding ts)
                         (ts_request_id ts) source_segments aux_source_segments
    = Sent queued n_samples source_sentences →
  done_ ≡ₚ queued →
  entry (ts_request_id ts) buffer = ∅ →
  Forall (λ j, ∃ samples score word_probs alignments hyp_graph,
               work j = Best samples score word_probs alignments hyp_graph ∧
               (ts_get_alignment ts = true →
                1 ≤ length alignments ∧ num_encoders ≤ length alignments)) queued →
  ∃ translations,
    translate word_dicts factors num_processes num_encoders seqs2words ts
              source_segments aux_source_segments buffer
              ((worker_response work <$> done_) ++ queue)
    = Translations translations (delete (ts_request_id ts) buffer) queue ∧
    length translations = length (zip_lines source_segments aux_source_segments) ∧
    ∀ i line j,
      zip_lines source_segments aux_source_segments !! i = Some line →
      queued !! i = Some j →
      ∃ t samples score word_probs alignments hyp_graph,
        translations !! i = Some (Single t) ∧
        work j = Best samples score word_probs alignments hyp_graph ∧
        t_sentence_id t = i ∧
        t_hypothesis_id t = None ∧
        t_source_words t = py_words (default EmptyString (head line)) ∧
        t_aux_source_words t = AuxWords (py_words <$> tail line) ∧
        t_target_words t = seqs2words samples ∧
        t_score t = score ∧
        t_target_probs t = word_probs ∧
        t_alignment t = (if ts_get_alignment ts then alignments !! 0 else None).
Proof.
  intros Hnbest Hpred Hsent Hperm Hempty Hwork.
  destruct (sent_jobs_inv _ _ _ _ _ _ _ _ _ _ Hsent) as (Hn & _ & Hidx & Hrid & Hsrcs).
  set (lines := zip_lines source_segments aux_source_segments) in *.
  assert (Hlq : length queued = length lines).
  { rewrite <- (length_map j_idx), Hidx, length_seq. done. }
  set (aux_given := negb (bool_decide (aux_source_segments = []))).
  assert (Hbranch : ts_predicted_trg ts && aux_given = false).
  { destruct Hpred as [-> | ->]; [done |]. unfold aux_given.
    rewrite bool_decide_eq_true_2 by done. apply andb_false_r. }
  set (f := λ (i : nat) (it : @output_item A G),
              match it with
              | Best samples score word_probs alignments hyp_graph =>
                  Single (Translated i
                            (py_words (default EmptyString
                                         (head (default [] (lines !! i)))))
                            (seqs2words samples) score
                            (if ts_get_alignment ts then alignments !! 0 else None)
                            word_probs hyp_graph None
                            (AuxWords (py_words <$> tail (default [] (lines !! i))))
                            (if ts_get_alignment ts
                             then (λ e, alignments !! (e + 1)) <$> seq 0 (num_encoders - 1)
                             else replicate (num_encoders - 1) None))
              | NBest _ _ _ _ _ => EmptyNBest
              end).
  assert (Hloop : translate_loop num_encoders seqs2words ts aux_given source_sentences
                                 (work <$> queued) = inl (imap f (work <$> queued))).
  { apply translate_loop_each. intros i it translations Hit.
    rewrite list_lookup_fmap in Hit.
    destruct (queued !! i) as [j|] eqn:Hj; [|done]. injection Hit as <-.
    rewrite Forall_lookup in Hwork.
    destruct (Hwork i j Hj) as (samples & score & word_probs & alignments & hyp_graph
                                & Hbest & Hal).
    destruct (lookup_lt_is_Some_2 lines i) as [line Hline];
      [apply lookup_lt_Some in Hj; lia |].
    assert (Hlen : length line = S (length aux_source_segments)).
    { pose proof (zip_lines_line_length source_segments aux_source_segments) as Hall.
      rewrite Forall_lookup in Hall. by apply (Hall i). }
    unfold translate_one. rewrite Hbranch, Hnbest, Hbest. unfold f.
    rewrite Hline. cbn [default].
    assert (Haux : mapM (λ ss : list (list string), ss !! i) (tail source_sentences)
                   = Some (py_words <$> tail line)).
    { assert (py_words <$> tail line
              = (λ iidx, py_words (default EmptyString (line !! iidx)))
                  <$> seq 1 (length aux_source_segments)) as ->.
      { change (?g <$> ?l) with (map g l) at 2.
        by rewrite (lookups_from_one line (λ o, py_words (default EmptyString o)) _ Hlen). }
      rewrite Hsrcs. cbn [seq map tail].
      change (map ?g (seq 1 ?n)) with (g <$> seq 1 n).
      apply mapM_Some_2, Forall2_fmap, Forall_Forall2_diag, Forall_forall.
      intros iidx _. change (map ?g lines !! i) with ((g <$> lines) !! i).
      by rewrite list_lookup_fmap, Hline. }
    assert (Hsrc : source_sentences !! 0 ≫= (.!! i)
                   = Some (py_words (default EmptyString (head line)))).
    { rewrite Hsrcs. cbn [seq map lookup list_lookup mbind option_bind].
      change (map ?g lines !! i) with ((g <$> lines) !! i).
      rewrite list_lookup_fmap, Hline. simpl. by destruct line. }
    rewrite Haux, Hsrc. cbn [fmap option_fmap option_map].
    destruct (ts_get_alignment ts); [|done].
    destruct (Hal eq_refl) as [H1 Hne].
    destruct (lookup_lt_is_Some_2 alignments 0) as [a0 Ha0]; [lia |].
    rewrite Ha0. cbn [mbind option_bind].
    assert (Hauxal : mapM (λ e, alignments !! (e + 1)) (seq 0 (num_encoders - 1))
                     = Some ((λ e, default a0 (alignments !! (e + 1)))
                               <$> seq 0 (num_encoders - 1))).
    { apply mapM_Some_2, Forall2_fmap_r, Forall_Forall2_diag, Forall_forall.
      intros e He. apply elem_of_seq in He.
      destruct (lookup_lt_is_Some_2 alignments (e + 1)) as [a Ha]; [lia |].
      unfold compose. by rewrite Ha. }
    rewrite Hauxal. cbn [mbind option_bind]. do 3 f_equal.
    rewrite <- list_fmap_compose. apply Forall_fmap_ext, Forall_forall.
    intros e He. apply elem_of_seq in He. simpl.
    destruct (lookup_lt_is_Some_2 alignments (e + 1)) as [a Ha]; [lia |].
    by rewrite Ha. }
  exists (imap f (work <$> queued)). split; [|split].
  - unfold translate. rewrite Hsent.
    rewrite (retrieve_numbered_jobs queued done_ n_samples (ts_request_id ts) work buffer queue)
      by done.
    fold aux_given. by rewrite Hloop.
  - by rewrite length_imap, length_fmap.
  - intros i line j Hline Hj.
    rewrite Forall_lookup in Hwork.
    destruct (Hwork i j Hj) as (samples & score & word_probs & alignments & hyp_graph
                                & Hbest & _).
    eexists _, samples, score, word_probs, alignments, hyp_graph.
    split; [|split; [exact Hbest |]].
    + rewrite list_lookup_imap, list_lookup_fmap, Hj. simpl. unfold f.
      rewrite Hbest, Hline. reflexivity.
    + simpl. done.
Qed.
End TranslateProps.

Section TranslateNBest.
Context `{Countable RID} {Settings A G : Type}.
Implicit Types (ts : @translation_settings RID Settings).

Lemma translate_loop_n_best (num_encoders : nat) (seqs2words : list Z → list string) ts
      (aux_given : bool) (srcs : list (list (list string)))
      (items : list (@output_item A G)) :
  ts_n_best ts = true →
  ∀ translations,
    translate_loop num_encoders seqs2words ts aux_given srcs items = inl translations →
    Forall (λ e, e = EmptyNBest) translations.
Proof.
  intros Hnbest. induction items as [|it items IH] using rev_ind; intros translations Hloop.
  - injection Hloop as <-. constructor.
  - rewrite translate_loop_snoc in Hloop.
    destruct (translate_loop _ _ _ _ _ items) as [translations'|]; [|done].
    destruct (translate_one _ _ _ _ _ _ _ _) as [translation|] eqn:Hone; [|done].
    injection Hloop as <-. apply Forall_app. split; [by apply IH |].
    constructor; [|constructor]. unfold translate_one in Hone.
    destruct (if ts_predicted_trg ts && aux_given then _ else _); [|done].
    rewrite Hnbest in Hone. destruct it as [? [|] ? ? ?|]; [|done|done].
    by injection Hone as <-.
Qed.

(** X22: With the n-best list switched on, [translate] never returns a
    hypothesis: whatever it returns is a list of empty n-best lists.
    (A result with a hypothesis in it makes line 651 raise.) *)
Theorem translate_n_best_returns_no_hypothesis
        (word_dicts : list (list (gmap string Z))) (factors num_processes num_encoders : nat)
        (seqs2words : list Z → list string) ts
        (source_segments : list string) (aux_source_segments : list (list string))
        (buffer buffer' : gmap RID (gmap nat (@output_item A G)))
        (queue queue' : list (@queue_event RID (@output_item A G)))
        (translations : list (@translated_entry A G)) :
  ts_n_best ts = true →
  translate word_dicts factors num_processes num_encoders seqs2words ts
            source_segments aux_source_segments buffer queue
    = Translations translations buffer' queue' →
  Forall (λ e, e = EmptyNBest) translations.
Proof.
  intros Hnbest Htr. unfold translate in Htr.
  destruct (_send_jobs_multisource _ _ _ _ _ _ _) as [queued n srcs| |]; [|done|done].
  destruct (_retrieve_jobs _ _ _ _) as [items b q|items| |]; [|by repeat case_match|done|done].
  destruct (translate_loop _ _ _ _ _ items) as [translations'|[|]] eqn:Hloop; [|done|done].
  injection Htr as <- _ _. by eapply translate_loop_n_best.
Qed.
End TranslateNBest.

Lemma translate_n_best_empty :
  translate (A:=unit) (G:=unit) word_dicts_two 1 2 2 (λ _, [])
            {| ts_request_id := 7; ts_predicted_trg := false; ts_n_best := true;
               ts_get_alignment := false; ts_decoding := tt |}
            ["a b"%string] [["b"%string]] ∅ [Resp 7 0 (NBest [] [] [] [] tt)]
  = Translations [EmptyNBest] ∅ [].
Proof. vm_compute. reflexivity. Qed.

Lemma translate_n_best_returns_no_hypothesis_witness :
  Forall (λ e : @translated_entry unit unit, e = EmptyNBest) [EmptyNBest].
Proof.
  apply (translate_n_best_returns_no_hypothesis (A:=unit) (G:=unit) word_dicts_two 1 2 2
           (λ _, [])
           {| ts_request_id := 7; ts_predicted_trg := false; ts_n_best := true;
              ts_get_alignment := false; ts_decoding := tt |}
           ["a b"%string] [["b"%string]] ∅ ∅ [Resp 7 0 (NBest [] [] [] [] tt)] []).
  - reflexivity.
  - apply translate_n_best_empty.
Defined.

Lemma translate_one_translation_per_line_witness :
  let ts := {| ts_request_id := 7; ts_predicted_trg := false; ts_n_best := false;
               ts_get_alignment := false; ts_decoding := tt |} in
  let work := (λ j : @job nat unit, Best (A:=unit) (G:=unit) (concat (j_seq j)) 0%R [] [] tt) in
  let seqs2words := (λ s : list Z, (λ _, "w"%string) <$> s) in
  let lines := zip_lines ["a b"%string; " b  c "%string] [["b"%string; "a a"%string]] in
  ∃ translations,
    translate word_dicts_two 1 2 2 seqs2words ts
              ["a b"%string; " b  c "%string] [["b"%string; "a a"%string]] ∅
              ((worker_response work <$> [job_1; job_0]) ++ [])
    = Translations translations (delete 7 ∅) [] ∧
    length translations = length lines ∧
    ∀ i line j,
      lines !! i = Some line →
      [job_0; job_1] !! i = Some j →
      ∃ t samples score word_probs alignments hyp_graph,
        translations !! i = Some (Single t) ∧
        work j = Best samples score word_probs alignments hyp_graph ∧
        t_sentence_id t = i ∧
        t_hypothesis_id t = None ∧
        t_source_words t = py_words (default EmptyString (head line)) ∧
        t_aux_source_words t = AuxWords (py_words <$> tail line) ∧
        t_target_words t = seqs2words samples ∧
        t_score t = score ∧
        t_target_probs t = word_probs ∧
        t_alignment t = (if ts_get_alignment ts then alignments !! 0 else None).
Proof.
  intros ts work seqs2words lines.
  apply (translate_one_translation_per_line word_dicts_two 1 2 2 seqs2words ts
           ["a b"%string; " b  c "%string] [["b"%string; "a a"%string]]
           [job_0; job_1] [job_1; job_0] 2
           [[["a"%string; "b"%string]; ["b"%string; "c"%string]];
            [["b"%string]; ["a"%string; "a"%string]]]
           work ∅ []).
  - reflexivity.
  - left. reflexivity.
  - apply send_jobs_two_lines.
  - apply perm_swap.
  - reflexivity.
  - repeat (constructor; [by eexists _, _, _, _, _ |]). constructor.
Defined.
